(** * KPL-Premiere: the tournament progression engine

    A shallow embedding of the league manager's core (js/config.js,
    js/state.js, js/sorting.js, js/match.js, js/swiss.js, js/bracket.js)
    and the properties of its specification.

    Conventions of the embedding.
    - Team objects are shared by reference between [state.teams], the
      pools, the matches and the bracket rounds; a reference is a [ref]
      and the objects live in a [Heap], so that an update through one
      alias is seen through all of them.
    - Counters (w, l, pd, pts, week, swissRound, pending) are integers [Z].
    - The value handed to [isValidScore] is an arbitrary JavaScript value
      ([JsValue]); the click handlers hand it the result of [parseInt],
      which is an integer or NaN.
    - DOM rendering, button states other than the submit button of a match,
      scrolling and [State.save] have no effect on the modelled state and
      are left out; [console] keeps the warnings and errors logged. *)

From Stdlib Require Import ZArith QArith Qminmax Qabs Lia Lqa Permutation.
From stdpp Require Import base gmap sets list strings.

Local Open Scope Z_scope.

(** ** js/config.js *)

Definition TOTAL_WEEKS : Z := 15.
Definition SWISS_ROUNDS : Z := 4.
Definition TEAM_COUNT : Z := 8.
Definition PLAYERS_PER_TEAM : Z := 2.
Definition BRACKET_ROUND_COUNT : Z := 3.
Definition BRACKET_BASE_POINTS : list Z := [10; 8; 6; 4].
Definition FIRST_PLACE_BONUS : Z := 5.
Definition LOSER_POINT_PENALTY : Z := 2.

(** ** Data model (the state shape of js/state.js) *)

(** The [w], [l], [pd] triple that [swiss], [bracket] share; [applyScore]
    works on whichever of the two blocks the phase selects. *)
Record Wld := mkWld { w : Z; l : Z; pd : Z }.

(** [team.swiss]: the triple, the opponents faced this week and the
    round-4 eligibility mark ([playR4] present and true, or absent).
    [h2h] is created empty and never read or written again. *)
Record Swiss := mkSwiss { s_rec : Wld; opps : list string; playR4 : bool }.

Record Team := mkTeam {
  name : string;
  players : list string;
  swiss : Swiss;
  bracket : Wld }.

Record League := mkLeague { pts : Z; lw : Z; ll : Z; lpd : Z }.

Record Player := mkPlayer { p_name : string; p_team : string; league : League }.

(** A reference to a team object. *)
Abbreviation ref := nat (only parsing).
Definition Heap := ref -> Team.

(** In-place update of the object behind a reference. *)
Definition upd (h : Heap) (r : ref) (f : Team -> Team) : Heap :=
  fun x => if Nat.eqb x r then f (h x) else h x.

Inductive LogEntry :=
| WarnNoTeams
| WarnRound4 (found : nat)
| ErrRound3Missing
| WarnPlayerNotFound (pName : string).

(** One match element: the two teams and the phase it was made for, and the
    variables its handlers close over. *)
Record Match := mkMatch {
  m_a : ref;
  m_b : ref;
  m_isSwiss : bool;
  m_bo3 : bool;
  done : bool;
  lastResult : option (Z * Z);
  oppsRecorded : bool;
  submitDisabled : bool }.

(** The six fields of [state], the heap of team objects, the match
    elements appended to the page (as they were made: the variables of a
    handler travel with the [Match] the handler returns), the console, and
    the completion callback of js/match.js with the microtask queue it is
    deferred to (a callback is identified by the bracket round that
    registered it). *)
Record World := mkWorld {
  week : Z;
  teams : list ref;
  allPlayers : list Player;
  swissRound : Z;
  pending : Z;
  bracketRounds : list (list (ref * ref));
  heap : Heap;
  content : list Match;
  console : list LogEntry;
  onAllMatchesComplete : option Z;
  microtasks : list Z }.

(** ** js/state.js: setters *)

Definition setWeek (v : Z) (s : World) : World :=
  mkWorld v (teams s) (allPlayers s) (swissRound s) (pending s) (bracketRounds s)
          (heap s) (content s) (console s) (onAllMatchesComplete s) (microtasks s).
Definition setPlayers (v : list Player) (s : World) : World :=
  mkWorld (week s) (teams s) v (swissRound s) (pending s) (bracketRounds s)
          (heap s) (content s) (console s) (onAllMatchesComplete s) (microtasks s).
Definition setSwissRound (v : Z) (s : World) : World :=
  mkWorld (week s) (teams s) (allPlayers s) v (pending s) (bracketRounds s)
          (heap s) (content s) (console s) (onAllMatchesComplete s) (microtasks s).
Definition setPending (v : Z) (s : World) : World :=
  mkWorld (week s) (teams s) (allPlayers s) (swissRound s) v (bracketRounds s)
          (heap s) (content s) (console s) (onAllMatchesComplete s) (microtasks s).
Definition setHeap (v : Heap) (s : World) : World :=
  mkWorld (week s) (teams s) (allPlayers s) (swissRound s) (pending s) (bracketRounds s)
          v (content s) (console s) (onAllMatchesComplete s) (microtasks s).
Definition clearContent (s : World) : World :=
  mkWorld (week s) (teams s) (allPlayers s) (swissRound s) (pending s) (bracketRounds s)
          (heap s) [] (console s) (onAllMatchesComplete s) (microtasks s).
Definition appendChild (m : Match) (s : World) : World :=
  mkWorld (week s) (teams s) (allPlayers s) (swissRound s) (pending s) (bracketRounds s)
          (heap s) (content s ++ [m]) (console s) (onAllMatchesComplete s) (microtasks s).
Definition log (e : LogEntry) (s : World) : World :=
  mkWorld (week s) (teams s) (allPlayers s) (swissRound s) (pending s) (bracketRounds s)
          (heap s) (content s) (console s ++ [e]) (onAllMatchesComplete s) (microtasks s).
Definition setCallback (cb : option Z) (q : list Z) (s : World) : World :=
  mkWorld (week s) (teams s) (allPlayers s) (swissRound s) (pending s) (bracketRounds s)
          (heap s) (content s) (console s) cb q.

Definition incrementSwissRound (s : World) : World := setSwissRound (swissRound s + 1) s.
Definition decrementPending (s : World) : World := setPending (pending s - 1) s.
Definition incrementPending (s : World) : World := setPending (pending s + 1) s.
Definition isLeagueComplete (s : World) : bool := TOTAL_WEEKS <=? week s.

(** [state.players.find(p => p.name === name)]: the position of the first
    player of that name. *)
Fixpoint findPlayerByName (pName : string) (ps : list Player) : option nat :=
  match ps with
  | [] => None
  | p :: ps' =>
      if String.eqb (p_name p) pName then Some O
      else option_map S (findPlayerByName pName ps')
  end.

(** ** js/match.js *)

(** A JavaScript value as [isValidScore] tells them apart: a finite number,
    NaN, an infinity, or a value whose [typeof] is not ['number'].
    A finite double is a rational, the comparisons of the source are
    exact on it, and so is [max - min] wherever it decides the result
    (when it is near 2 and [max >= 11], [min >= max / 2]). *)
Inductive JsValue :=
| JsNumber (q : Q)
| JsNaN
| JsInfinity (negative : bool)
| JsNotNumber.

Definition typeofNumber (v : JsValue) : bool :=
  match v with JsNotNumber => false | _ => true end.

(** [isNaN] is only reached by values whose [typeof] is ['number']. *)
Definition isNaN (v : JsValue) : bool :=
  match v with JsNaN => true | _ => false end.

(** [v < c] and [v > c] for a finite constant [c]. *)
Definition jsLt (v : JsValue) (c : Q) : bool :=
  match v with
  | JsNumber q => negb (Qle_bool c q)
  | JsInfinity negative => negative
  | _ => false
  end.

Definition jsGt (v : JsValue) (c : Q) : bool :=
  match v with
  | JsNumber q => negb (Qle_bool q c)
  | JsInfinity negative => negb negative
  | _ => false
  end.

Definition isValidScore (scoreA scoreB : JsValue) : bool :=
  if negb (typeofNumber scoreA) || negb (typeofNumber scoreB) then false
  else if isNaN scoreA || isNaN scoreB then false
  else if jsLt scoreA 0 || jsLt scoreB 0 || jsGt scoreA 99 || jsGt scoreB 99 then false
  else match scoreA, scoreB with
       | JsNumber x, JsNumber y =>
           let max := Qmax x y in
           let min := Qmin x y in
           Qle_bool 11 max && Qle_bool 2 (max - min)
       | _, _ => false
       end.

(** [parseInt] of an input field: an integer, or NaN. *)
Definition parseIntResult (v : option Z) : JsValue :=
  match v with
  | Some z => JsNumber (inject_Z z)
  | None => JsNaN
  end.

(** In-place update of the block of a team that the phase selects
    ([isSwiss ? a.swiss : a.bracket]). *)
Definition setPhaseStats (isSwiss : bool) (f : Wld -> Wld) (t : Team) : Team :=
  if isSwiss
  then mkTeam (name t) (players t)
              (mkSwiss (f (s_rec (swiss t))) (opps (swiss t)) (playR4 (swiss t)))
              (bracket t)
  else mkTeam (name t) (players t) (swiss t) (f (bracket t)).

Definition addW (d : Z) (x : Wld) : Wld := mkWld (w x + d) (l x) (pd x).
Definition addL (d : Z) (x : Wld) : Wld := mkWld (w x) (l x + d) (pd x).
Definition addPd (d : Z) (x : Wld) : Wld := mkWld (w x) (l x) (pd x + d).

Definition b2z (b : bool) : Z := if b then 1 else 0.

(** [applyScore(a, b, scoreA, scoreB, isSwiss, lastResult)], one heap
    update per assignment of the source and in its order, so that the
    case where [a] and [b] are the same object is the source's too.
    A [Team] always carries both blocks, hence the guard
    [!teamA || !teamB] of the source never fires here. *)
Definition applyScore (h : Heap) (a b : ref) (scoreA scoreB : Z) (isSwiss : bool)
    (last : option (Z * Z)) : Heap * option (Z * Z) :=
  let on r f hp := upd hp r (setPhaseStats isSwiss f) in
  let h1 :=
    match last with
    | Some (sa, sb) =>
        let h := on a (addW (- b2z (sb <? sa))) h in
        let h := on a (addL (- b2z (sa <? sb))) h in
        let h := on b (addW (- b2z (sa <? sb))) h in
        let h := on b (addL (- b2z (sb <? sa))) h in
        let h := on a (addPd (- (sa - sb))) h in
        on b (addPd (- (sb - sa))) h
    | None => h
    end in
  let h2 := on a (addPd (scoreA - scoreB)) h1 in
  let h3 := on b (addPd (scoreB - scoreA)) h2 in
  let h4 :=
    if scoreB <? scoreA
    then on b (addL 1) (on a (addW 1) h3)
    else on a (addL 1) (on b (addW 1) h3) in
  (h4, Some (scoreA, scoreB)).

(** [notifyCompletion(isSwiss)]: for a bracket match that brings [pending]
    to 0 the registered callback is cleared and queued as a microtask.
    ([checkPendingComplete] only enables buttons.) *)
Definition notifyCompletion (isSwiss : bool) (s : World) : World :=
  if negb isSwiss && (pending s =? 0)
  then match onAllMatchesComplete s with
       | Some cb => setCallback None (microtasks s ++ [cb]) s
       | None => s
       end
  else s.

(** [a.swiss.opps.push(n)] *)
Definition pushOpp (n : string) (t : Team) : Team :=
  mkTeam (name t) (players t)
         (mkSwiss (s_rec (swiss t)) (opps (swiss t) ++ [n]) (playR4 (swiss t)))
         (bracket t).

(** [makeMatch(a, b, isSwiss)]: the fresh element. *)
Definition makeMatch (a b : ref) (isSwiss : bool) : Match :=
  mkMatch a b isSwiss false false None false false.

(** [makeBo3Match(a, b, isSwiss)]: the fresh element (its handler is not
    needed below). *)
Definition makeBo3Match (a b : ref) (isSwiss : bool) : Match :=
  mkMatch a b isSwiss true false None false false.

(** The steps both handlers of [makeMatch] share after validation:
    [if (!done) { State.decrementPending(); done = true; }] and
    [lastResult = applyScore(...)]. *)
Definition recordScore (m : Match) (s : World) (scoreA scoreB : Z)
    : World * option (Z * Z) :=
  let s1 := if done m then s else decrementPending s in
  let '(h, res) := applyScore (heap s1) (m_a m) (m_b m) scoreA scoreB
                              (m_isSwiss m) (lastResult m) in
  (setHeap h s1, res).

(** The [onclick] of [.match-submit], given what [parseInt] made of the
    two input fields. *)
Definition submitOnclick (vA vB : option Z) (m : Match) (s : World) : Match * World :=
  if negb (isValidScore (parseIntResult vA) (parseIntResult vB)) then (m, s)
  else match vA, vB with
       | Some scoreA, Some scoreB =>
           let '(s1, res) := recordScore m s scoreA scoreB in
           let record := m_isSwiss m && negb (oppsRecorded m) in
           let s2 :=
             if record
             then
               let h := upd (heap s1) (m_a m) (pushOpp (name (heap s1 (m_b m)))) in
               let h := upd h (m_b m) (pushOpp (name (h (m_a m)))) in
               setHeap h s1
             else s1 in
           (mkMatch (m_a m) (m_b m) (m_isSwiss m) (m_bo3 m) true res
                    (if record then true else oppsRecorded m) true,
            notifyCompletion (m_isSwiss m) s2)
       | _, _ => (m, s)
       end.

(** The [onclick] of [.admin]: each prompt is cancelled ([None]) or gives
    a string, of which [parseInt] makes an integer or NaN. *)
Definition adminOnclick (saStr sbStr : option (option Z)) (m : Match) (s : World)
    : Match * World :=
  match saStr, sbStr with
  | None, _ => (m, s)
  | _, None => (m, s)
  | Some vA, Some vB =>
      if negb (isValidScore (parseIntResult vA) (parseIntResult vB)) then (m, s)
      else match vA, vB with
           | Some parsedA, Some parsedB =>
               let '(s1, res) := recordScore m s parsedA parsedB in
               (mkMatch (m_a m) (m_b m) (m_isSwiss m) (m_bo3 m) true res
                        (oppsRecorded m) true,
                notifyCompletion (m_isSwiss m) s1)
           | _, _ => (m, s)
           end
  end.

(** What can happen to one element made by [makeMatch], and a run of such
    events. *)
Inductive Event :=
| Submit (vA vB : option Z)
| Admin (saStr sbStr : option (option Z)).

Definition handle (e : Event) (ms : Match * World) : Match * World :=
  match e with
  | Submit vA vB => submitOnclick vA vB (fst ms) (snd ms)
  | Admin sa sb => adminOnclick sa sb (fst ms) (snd ms)
  end.

Definition run (es : list Event) (ms : Match * World) : Match * World :=
  fold_left (fun acc e => handle e acc) es ms.

(** ** js/swiss.js *)

(** A list of pairs of teams, and what a call of the search returns: the
    flag, and [used] and [result] as the call leaves them. *)
Abbreviation Pairing := (list (ref * ref)) (only parsing).
Abbreviation Search := (option (bool * gset ref * list (ref * ref))) (only parsing).

Section SwissPair.

Variable h : Heap.

(** [a.swiss.opps.includes(b.name)] *)
Definition includesOpp (a b : ref) : bool :=
  bool_decide (name (h b) ∈ opps (swiss (h a))).

Variable pool : list ref.

(** The [for (const b of pool)] loop of [backtrack] for the team [a],
    from the candidates [bs] on, with the current [used] and [result];
    [rec] is the recursive call. [None] is only ever the answer of [rec]
    (see [backtrack]). *)
Fixpoint tryPartners (rec : gset ref -> Pairing -> Search) (a : ref)
    (bs : list ref) (used : gset ref) (result : Pairing) : Search :=
  match bs with
  | [] => Some (false, used ∖ {[a]}, result)
  | b :: bs' =>
      if bool_decide (b ∈ used) || includesOpp a b
      then tryPartners rec a bs' used result
      else
        match rec ({[b]} ∪ used) (result ++ [(a, b)]) with
        | None => None
        | Some (true, u, r) => Some (true, u, r)
        | Some (false, u, r) => tryPartners rec a bs' (u ∖ {[b]}) (removelast r)
        end
  end.

(** [backtrack()]: the closure over [used] and [result] as a function
    from their values before the call to the returned flag and their
    values after it. The recursion is on [fuel], the depth of calls
    allowed; [None] means the fuel ran out. *)
Fixpoint backtrack (fuel : nat) (used : gset ref) (result : Pairing) : Search :=
  match fuel with
  | O => None
  | S fuel' =>
      if bool_decide (size used = length pool) then Some (true, used, result)
      else
        match List.find (fun t => negb (bool_decide (t ∈ used))) pool with
        | None => Some (false, used, result)
        | Some a => tryPartners (backtrack fuel') a pool ({[a]} ∪ used) result
        end
  end.

End SwissPair.

(** [swissPair(pool)]. A call of [backtrack] uses two more teams than its
    caller, so [S (length pool)] levels are never exhausted
    ([backtrack_enough_fuel]) and the last branch is never taken. *)
Definition swissPair (h : Heap) (pool : list ref) : Pairing :=
  if (length pool <? 2)%nat then []
  else match backtrack h pool (S (length pool)) ∅ [] with
       | Some (_, _, result) => result
       | None => []
       end.

(** The pools of [nextSwissRound]: an object keyed by ["w-l"], whose
    values come in the order the keys were first inserted. The key string
    determines the two integers, so the pair stands for it. *)
Definition Pools := list ((Z * Z) * list ref).

Fixpoint poolPush (key : Z * Z) (t : ref) (pools : Pools) : Pools :=
  match pools with
  | [] => [(key, [t])]
  | (k, ts) :: rest =>
      if bool_decide (k = key) then (k, ts ++ [t]) :: rest
      else (k, ts) :: poolPush key t rest
  end.

Fixpoint poolGet (key : Z * Z) (pools : Pools) : option (list ref) :=
  match pools with
  | [] => None
  | (k, ts) :: rest => if bool_decide (k = key) then Some ts else poolGet key rest
  end.

Definition recordKey (t : Team) : Z * Z := (w (s_rec (swiss t)), l (s_rec (swiss t))).

Definition groupPools (h : Heap) (ts : list ref) : Pools :=
  fold_left (fun pools t => poolPush (recordKey (h t)) t pools) ts [].

(** [pairs.forEach(([a, b]) => { roundEl.appendChild(mk(a, b, true));
    State.incrementPending(); })] *)
Definition createMatches (mk : ref -> ref -> bool -> Match) (pairs : Pairing)
    (s : World) : World :=
  fold_left (fun acc '(a, b) => incrementPending (appendChild (mk a b true) acc)) pairs s.

Definition setPlayR4 (v : bool) (t : Team) : Team :=
  mkTeam (name t) (players t)
         (mkSwiss (s_rec (swiss t)) (opps (swiss t)) v)
         (bracket t).

Definition forEachTeam (f : Team -> Team) (ts : list ref) (h : Heap) : Heap :=
  fold_left (fun hp t => upd hp t f) ts h.

Definition pairPool (mk : ref -> ref -> bool -> Match) (p : option (list ref))
    (s : World) : World :=
  match p with
  | Some ts => createMatches mk (swissPair (heap s) ts) s
  | None => s
  end.

Definition hasRecord (h : Heap) (rw rl : Z) (t : ref) : bool :=
  (w (s_rec (swiss (h t))) =? rw) && (l (s_rec (swiss (h t))) =? rl).

Definition nextSwissRound (s : World) : World :=
  if 0 <? pending s then s
  else
    let s := setPending 0 (incrementSwissRound s) in
    match teams s with
    | [] => log WarnNoTeams s
    | _ =>
        let pools := groupPools (heap s) (teams s) in
        if swissRound s =? 3 then
          let s := pairPool makeBo3Match (poolGet (2, 0) pools) s in
          let s :=
            match poolGet (1, 1) pools with
            | Some ts =>
                let s := setHeap (forEachTeam (setPlayR4 true) ts (heap s)) s in
                createMatches makeMatch (swissPair (heap s) ts) s
            | None => s
            end in
          pairPool makeBo3Match (poolGet (0, 2) pools) s
        else if swissRound s =? 4 then
          let r4teams := filter (fun t => playR4 (swiss (heap s t)) = true) (teams s) in
          if (length r4teams =? 4)%nat then
            let winners := filter (fun t => hasRecord (heap s) 2 1 t = true) r4teams in
            let losers := filter (fun t => hasRecord (heap s) 1 2 t = true) r4teams in
            let s := if (length winners =? 2)%nat
                     then createMatches makeMatch (swissPair (heap s) winners) s else s in
            let s := if (length losers =? 2)%nat
                     then createMatches makeMatch (swissPair (heap s) losers) s else s in
            setHeap (forEachTeam (setPlayR4 false) r4teams (heap s)) s
          else log (WarnRound4 (length r4teams)) s
        else
          fold_left (fun acc '(_, p) => createMatches makeMatch (swissPair (heap acc) p) acc)
                    pools s
    end.

(** ** js/bracket.js *)

Definition addLeague (points : Z) (b : Wld) (p : Player) : Player :=
  mkPlayer (p_name p) (p_team p)
           (mkLeague (pts (league p) + points) (lw (league p) + w b)
                     (ll (league p) + l b) (lpd (league p) + pd b)).

(** The body of [team.players.forEach(pName => ...)] in [finalizeWeek]. *)
Definition awardPlayer (points : Z) (t : ref) (s : World) (pName : string) : World :=
  match findPlayerByName pName (allPlayers s) with
  | Some k => setPlayers (alter (addLeague points (bracket (heap s t))) k (allPlayers s)) s
  | None => log (WarnPlayerNotFound pName) s
  end.

Definition awardTeam (points : Z) (t : ref) (s : World) : World :=
  fold_left (awardPlayer points t) (players (heap s t)) s.

Definition hiTeam (h : Heap) (a b : ref) : ref :=
  if w (bracket (h b)) <? w (bracket (h a)) then a else b.
Definition loTeam (h : Heap) (a b : ref) : ref :=
  if Nat.eqb (hiTeam h a b) a then b else a.

(** [BRACKET_BASE_POINTS[i] + (i === 0 ? FIRST_PLACE_BONUS : 0)] and
    [BRACKET_BASE_POINTS[i] - LOSER_POINT_PENALTY]; past the end of the
    table the source computes NaN, which [pts : Z] cannot hold: [None]. *)
Definition hiPts (i : nat) : option Z :=
  base ← BRACKET_BASE_POINTS !! i;
  Some (base + (if Nat.eqb i 0 then FIRST_PLACE_BONUS else 0)).
Definition loPts (i : nat) : option Z :=
  base ← BRACKET_BASE_POINTS !! i;
  Some (base - LOSER_POINT_PENALTY).

(** [bracketRounds[2].forEach(([a, b], i) => ...)], from index [i] on. *)
Fixpoint awardPairs (i : nat) (pairs : Pairing) (s : World) : option World :=
  match pairs with
  | [] => Some s
  | (a, b) :: rest =>
      let hi := hiTeam (heap s) a b in
      let lo := loTeam (heap s) a b in
      hp ← hiPts i;
      lp ← loPts i;
      awardPairs (S i) rest (awardTeam lp lo (awardTeam hp hi s))
  end.

Definition freshSwiss : Swiss := mkSwiss (mkWld 0 0 0) [] false.
Definition freshBracket : Wld := mkWld 0 0 0.

Definition resetTeam (t : Team) : Team :=
  mkTeam (name t) (players t) freshSwiss freshBracket.

(** [finalizeWeek()]; [None] only where the source leaves the integers
    ([BRACKET_BASE_POINTS[i]] is undefined: more than four pairs in
    round 3). *)
Definition finalizeWeek (s : World) : option World :=
  match bracketRounds s !! 2%nat with
  | None | Some [] => Some (log ErrRound3Missing s)
  | Some pairs =>
      s1 ← awardPairs 0 pairs s;
      Some (setHeap (forEachTeam resetTeam (teams s1) (heap s1)) s1)
  end.

Definition nextWeek (s : World) : World :=
  if isLeagueComplete s then s
  else clearContent (setSwissRound 0 (setWeek (week s + 1) s)).

(** ** js/sorting.js *)

(** Modelled from the spec: [String.prototype.localeCompare] belongs to the
    host, not to the repository; the spec gives the order of names as
    "ascending name (lexicographic, case-sensitive)", that is, the
    comparison of the two strings character code by character code. *)
Definition localeCompare (a b : string) : Z :=
  match String.compare a b with
  | Lt => -1
  | Eq => 0
  | Gt => 1
  end.

Definition comparePlayersByLeague (a b : Player) : Z :=
  if negb (pts (league b) =? pts (league a)) then pts (league b) - pts (league a)
  else if negb (lw (league b) =? lw (league a)) then lw (league b) - lw (league a)
  else if negb (lpd (league b) =? lpd (league a)) then lpd (league b) - lpd (league a)
  else localeCompare (p_name a) (p_name b).

(** [Array.prototype.sort] puts [a] before [b] when the comparator is
    negative on [(a, b)]. *)
Definition ranksBefore (a b : Player) : Prop := comparePlayersByLeague a b < 0.

(** ** js/match.js: the best-of-3 element *)

(** What the [onclick] of a best-of-3 element ends with: one of its three
    error messages, or the submission. *)
Inductive Bo3Outcome :=
| Bo3Games12Required
| Bo3Game3Required
| Bo3NotDecided
| Bo3Submitted.

(** [x > y] on two results of [parseInt]: false when either is NaN. *)
Definition jsGtInt (x y : option Z) : bool :=
  match x, y with
  | Some a, Some b => b <? a
  | _, _ => false
  end.

(** The assignments of the handler to the two records:
    [teamA.pd += pdA; teamB.pd += pdB] and the win and the loss. *)
Definition bo3Stats (isSwiss : bool) (a b : ref) (pdA pdB aWins bWins : Z) (h : Heap)
    : Heap :=
  let on r f hp := upd hp r (setPhaseStats isSwiss f) in
  let h := on a (addPd pdA) h in
  let h := on b (addPd pdB) h in
  if bWins <? aWins
  then on b (addL 1) (on a (addW 1) h)
  else on a (addL 1) (on b (addW 1) h).

(** The [onclick] of the button of [makeBo3Match(a, b, isSwiss)], given
    what [parseInt] made of the six input fields. [aWins] and [bWins] are
    the counters of the source, read where the source reads them: the
    second test [aWins === 1 && bWins === 1] comes after game 3 has been
    counted. The element has no [lastResult]. [None] stands for NaN
    written into a record (an addition with a field that did not parse). *)
Definition bo3Onclick (g1a g1b g2a g2b g3a g3b : option Z) (m : Match) (s : World)
    : option (Match * World * Bo3Outcome) :=
  if negb (isValidScore (parseIntResult g1a) (parseIntResult g1b))
     || negb (isValidScore (parseIntResult g2a) (parseIntResult g2b))
  then Some (m, s, Bo3Games12Required)
  else
    let aWins := b2z (jsGtInt g1a g1b) + b2z (jsGtInt g2a g2b) in
    let bWins := b2z (negb (jsGtInt g1a g1b)) + b2z (negb (jsGtInt g2a g2b)) in
    let third := (aWins =? 1) && (bWins =? 1) in
    if third && negb (isValidScore (parseIntResult g3a) (parseIntResult g3b))
    then Some (m, s, Bo3Game3Required)
    else
      let aWins := if third then aWins + b2z (jsGtInt g3a g3b) else aWins in
      let bWins := if third then bWins + b2z (negb (jsGtInt g3a g3b)) else bWins in
      if (aWins <? 2) && (bWins <? 2) then Some (m, s, Bo3NotDecided)
      else
        let s1 := if done m then s else decrementPending s in
        match g1a, g1b, g2a, g2b with
        | Some a1, Some b1, Some a2, Some b2 =>
            let pdA := (a1 - b1) + (a2 - b2) in
            let pdB := (b1 - a1) + (b2 - a2) in
            pds ← (if (aWins =? 1) && (bWins =? 1)
                   then match g3a, g3b with
                        | Some a3, Some b3 => Some (pdA + (a3 - b3), pdB + (b3 - a3))
                        | _, _ => None
                        end
                   else Some (pdA, pdB));
            let h := bo3Stats (m_isSwiss m) (m_a m) (m_b m) (fst pds) (snd pds)
                              aWins bWins (heap s1) in
            let record := m_isSwiss m && negb (oppsRecorded m) in
            let h := if record
                     then
                       let h := upd h (m_a m) (pushOpp (name (h (m_b m)))) in
                       upd h (m_b m) (pushOpp (name (h (m_a m))))
                     else h in
            Some (mkMatch (m_a m) (m_b m) (m_isSwiss m) (m_bo3 m) true (lastResult m)
                          (if record then true else oppsRecorded m) true,
                  notifyCompletion (m_isSwiss m) (setHeap h s1),
                  Bo3Submitted)
        | _, _, _, _ => None
        end.

(** ** js/state.js: derived state *)

Definition setBracketRounds (v : list Pairing) (s : World) : World :=
  mkWorld (week s) (teams s) (allPlayers s) (swissRound s) (pending s) v
          (heap s) (content s) (console s) (onAllMatchesComplete s) (microtasks s).

Definition hasTeams (s : World) : bool := (0 <? length (teams s))%nat.

(** [state.bracketRounds[0] && state.bracketRounds[0].length > 0] *)
Definition hasBracketStarted (s : World) : bool :=
  match bracketRounds s !! 0%nat with
  | Some (_ :: _) => true
  | _ => false
  end.

(** The four labels of [getCurrentPhase]; the second is the template
    [Swiss Round ${state.swissRound}]. *)
Inductive Phase :=
| ReadyToStartSwiss
| SwissRoundLabel (n : Z)
| PlacementBracket
| WeekComplete.

Definition getCurrentPhase (s : World) : Phase :=
  if swissRound s =? 0 then ReadyToStartSwiss
  else if (0 <? swissRound s) && (swissRound s <=? SWISS_ROUNDS)
       then SwissRoundLabel (swissRound s)
  else if hasBracketStarted s then PlacementBracket
  else WeekComplete.

(** ** js/sorting.js and js/swiss.js: the Swiss standings *)

(** [buchholz(team)] against the teams [ts] of the state: the names of
    [team.swiss.opps] are looked up, the names that no team bears are
    dropped, and the Swiss wins of the teams found are summed. *)
Definition buchholz (h : Heap) (ts : list ref) (team : ref) : Z :=
  fold_left (fun sum opp => sum + w (s_rec (swiss (h opp))))
            (omap (fun n => List.find (fun x => String.eqb (name (h x)) n) ts)
                  (opps (swiss (h team))))
            0.

(** The comparator that [createTeamSwissComparator(buchholzFn)] returns. *)
Definition compareTeamsBySwiss (buchholzFn : ref -> Z) (h : Heap) (a b : ref) : Z :=
  if negb (w (s_rec (swiss (h b))) =? w (s_rec (swiss (h a))))
  then w (s_rec (swiss (h b))) - w (s_rec (swiss (h a)))
  else
    let bh := buchholzFn b - buchholzFn a in
    if negb (bh =? 0) then bh
    else if negb (pd (s_rec (swiss (h b))) =? pd (s_rec (swiss (h a))))
         then pd (s_rec (swiss (h b))) - pd (s_rec (swiss (h a)))
         else localeCompare (name (h a)) (name (h b)).

(** ** js/bracket.js: the rounds of the bracket *)

(** The two [console.error] of the bracket controller. *)
Inductive BracketError :=
| ErrNeed8Teams
| ErrRoundNoMatches (roundNum : Z).

(** How a call of the bracket controller ends: it ran through, or it
    logged an error and returned. The state is the one it leaves. *)
Inductive Outcome :=
| Ran (s : World)
| Refused (e : BracketError) (s : World).

(** [bracketRounds[roundNum - 1]] *)
Definition roundAt (roundNum : Z) (rounds : list Pairing) : option Pairing :=
  if roundNum <? 1 then None else rounds !! Z.to_nat (roundNum - 1).

(** [makeMatch(pair[0], pair[1], false)] *)
Definition makeBracketMatch (a b : ref) (_ : bool) : Match := makeMatch a b false.

(** [runBracketRound(roundNum)]. A pair of the model always has its two
    members, so the [Invalid bracket pair] branch has no counterpart. *)
Definition runBracketRound (roundNum : Z) (s : World) : Outcome :=
  match roundAt roundNum (bracketRounds s) with
  | None | Some [] => Refused (ErrRoundNoMatches roundNum) s
  | Some pairs =>
      let s := setPending 0 s in
      let s := setCallback (Some roundNum) (microtasks s) s in
      Ran (createMatches makeBracketMatch pairs s)
  end.

(** The team pushed to [winners] and the team pushed to [losers] for a
    pair of the round. *)
Definition bracketWinner (h : Heap) (p : ref * ref) : ref :=
  if w (bracket (h (snd p))) <? w (bracket (h (fst p))) then fst p else snd p.
Definition bracketLoser (h : Heap) (p : ref * ref) : ref :=
  if w (bracket (h (snd p))) <? w (bracket (h (fst p))) then snd p else fst p.

(** [bracketRounds[i] = v] for an index up to the length of the array
    (the only case [generateNextBracketRound] meets once it has read the
    round before): the element is replaced, or appended. *)
Definition assignRound (i : nat) (v : Pairing) (rounds : list Pairing) : list Pairing :=
  if (i <? length rounds)%nat then <[i := v]> rounds else rounds ++ [v].

(** [generateNextBracketRound(roundNum)]. [None] is an uncaught
    TypeError: the round read is undefined, or it has fewer than four
    pairs, so that a member of the next round is undefined and
    [makeMatch] fails on its name. *)
Definition generateNextBracketRound (roundNum : Z) (s : World) : option Outcome :=
  pairs ← roundAt roundNum (bracketRounds s);
  let winners := map (bracketWinner (heap s)) pairs in
  let losers := map (bracketLoser (heap s)) pairs in
  match winners, losers with
  | w0 :: w1 :: w2 :: w3 :: _, l0 :: l1 :: l2 :: l3 :: _ =>
      let s :=
        if roundNum =? 1
        then setBracketRounds
               (assignRound 1 [(w0, w1); (w2, w3); (l0, l1); (l2, l3)] (bracketRounds s)) s
        else setBracketRounds
               (assignRound 2 [(w0, w1); (l0, l1); (w2, w3); (l2, l3)] (bracketRounds s)) s in
      Some (runBracketRound (roundNum + 1) s)
  | _, _ => None
  end.

(** The callback that [runBracketRound(roundNum)] registers. *)
Definition roundCallback (roundNum : Z) (s : World) : option Outcome :=
  if roundNum <? BRACKET_ROUND_COUNT then generateNextBracketRound roundNum s
  else option_map Ran (finalizeWeek s).

(** The next microtask of the queue. *)
Definition runMicrotask (s : World) : option Outcome :=
  match microtasks s with
  | [] => Some (Ran s)
  | cb :: q => roundCallback cb (setCallback (onAllMatchesComplete s) q s)
  end.

Section HostSort.

(** [Array.prototype.sort] belongs to the host: the functions that call
    it take it as a parameter. *)
Variable sort : (ref -> ref -> Z) -> list ref -> list ref.

(** [sortTeamsBySwiss(teams)], with the teams of the state in [s]. *)
Definition sortTeamsBySwiss (s : World) (ts : list ref) : list ref :=
  match ts with
  | [] => []
  | _ => sort (compareTeamsBySwiss (buchholz (heap s) (teams s)) (heap s)) ts
  end.

(** [startBracket()]. [None] is an uncaught TypeError: a seed is
    undefined (the sort returned fewer than eight teams). *)
Definition startBracket (s : World) : option Outcome :=
  if (length (teams s) <? 8)%nat then Some (Refused ErrNeed8Teams s)
  else
    match sortTeamsBySwiss s (teams s) with
    | s0 :: s1 :: s2 :: s3 :: s4 :: s5 :: s6 :: s7 :: _ =>
        Some (runBracketRound 1
                (setBracketRounds [[(s0, s7); (s3, s4); (s1, s6); (s2, s5)]; []; []] s))
    | _ => None
    end.

End HostSort.

(** ** js/app.js: the start of a league *)

Definition setTeams (v : list ref) (s : World) : World :=
  mkWorld (week s) v (allPlayers s) (swissRound s) (pending s) (bracketRounds s)
          (heap s) (content s) (console s) (onAllMatchesComplete s) (microtasks s).

(** The three input fields of a team: team name, player 1, player 2. *)
Abbreviation Group := (string * string * string)%type (only parsing).

(** A reference that no object reachable from the state has: the team
    objects of a new league are allocated from it on. The objects
    reachable are the teams of the state and those of the bracket rounds
    (the elements of the page are removed before the allocation). *)
Definition freshRef (s : World) : ref :=
  S (list_max (teams s ++ flat_map (flat_map (fun p => [fst p; snd p])) (bracketRounds s))).

Section HostStrings.

(** [String.prototype.trim] and [String.prototype.toLowerCase] belong to
    the host. *)
Variable trim : string -> string.
Variable toLowerCase : string -> string.

(** The body of [document.querySelectorAll('.teamInput').forEach] in
    [startLeague]: the flag [valid] and the set [allNames]. *)
Definition checkInput (acc : bool * list string) (value : string) : bool * list string :=
  let n := trim value in
  if String.eqb n "" || bool_decide (toLowerCase n ∈ snd acc)
  then (false, snd acc)
  else (fst acc, toLowerCase n :: snd acc).

Definition inputValues (inputs : list Group) : list string :=
  flat_map (fun g => [fst (fst g); snd (fst g); snd g]) inputs.

Definition newTeam (g : Group) : Team :=
  mkTeam (trim (fst (fst g))) [trim (snd (fst g)); trim (snd g)]
         (mkSwiss (mkWld 0 0 0) [] false) (mkWld 0 0 0).

Definition newPlayers (g : Group) : list Player :=
  [mkPlayer (trim (snd (fst g))) (trim (fst (fst g))) (mkLeague 0 0 0 0);
   mkPlayer (trim (snd g)) (trim (fst (fst g))) (mkLeague 0 0 0 0)].

(** The team objects of the loop, allocated at [base], [base + 1], ... *)
Definition allocTeams (base : ref) (gs : list Group) (h : Heap) : Heap :=
  fun x => if (base <=? x)%nat
           then match gs !! (x - base)%nat with
                | Some g => newTeam g
                | None => h x
                end
           else h x.

(** [startLeague()], given the answer to the confirmation dialog (asked
    for only when the state has teams) and the values of the input
    fields, group by group. [None] is an uncaught TypeError: the page has
    fewer than [TEAM_COUNT] groups. *)
Definition startLeague (confirmed : bool) (inputs : list Group) (s : World)
    : option World :=
  if hasTeams s && negb confirmed then Some s
  else
    let valid := fst (fold_left checkInput (inputValues inputs) (true, [])) in
    if negb valid then Some s
    else if (length inputs <? Z.to_nat TEAM_COUNT)%nat then None
    else
      let gs := take (Z.to_nat TEAM_COUNT) inputs in
      let base := freshRef s in
      let s := clearContent (setPlayers [] (setTeams [] s)) in
      let s := setHeap (allocTeams base gs (heap s)) s in
      let s := setTeams (seq base (length gs)) s in
      let s := setPlayers (flat_map newPlayers gs) s in
      let s := setSwissRound 0 (setWeek 1 s) in
      Some (nextSwissRound s).

End HostStrings.

(** * Vocabulary of the properties, and the states of the examples *)

(** ** Score validation *)

(** [v] is the integer [n]. *)
Definition jsIsInt (v : JsValue) (n : Z) : Prop :=
  match v with
  | JsNumber q => (q == inject_Z n)%Q
  | _ => False
  end.

(** The condition of the specification: two integers in 0..99, the larger
    at least 11, two apart or more. *)
Definition validScorePair (scoreA scoreB : JsValue) : Prop :=
  exists m n : Z,
    jsIsInt scoreA m /\ jsIsInt scoreB n /\
    0 <= m <= 99 /\ 0 <= n <= 99 /\ 11 <= Z.max m n /\ 2 <= Z.abs (m - n).

(** ** Applying and re-applying a score *)

(** Every assignment of [applyScore] adds a constant to one field, so a
    run of them adds a sum of constants to the block of each team. *)
Definition zeroWld : Wld := mkWld 0 0 0.
Definition plusWld (x d : Wld) : Wld := mkWld (w x + w d) (l x + l d) (pd x + pd d).

(** The team [t] with [d] added to the block of the phase. *)
Definition bump (isSwiss : bool) (d : Wld) (t : Team) : Team :=
  setPhaseStats isSwiss (fun x => plusWld x d) t.

(** The heap [hp] is the heap [h] with [D x] added to the block of each
    team [x]. *)
Definition tracks (isSwiss : bool) (h : Heap) (D : ref -> Wld) (hp : Heap) : Prop :=
  forall x, hp x = bump isSwiss (D x) (h x).

(** The sums [D] after one more addition of [d] to team [r]. *)
Definition also (r : ref) (d : Wld) (D : ref -> Wld) : ref -> Wld :=
  fun x => plusWld (D x) (if Nat.eqb x r then d else zeroWld).

(** What [applyScore] adds to the block of team [a] and of team [b]. *)
Definition undoneA (last : option (Z * Z)) : Wld :=
  match last with
  | Some (sa, sb) => mkWld (- b2z (sb <? sa)) (- b2z (sa <? sb)) (- (sa - sb))
  | None => zeroWld
  end.
Definition undoneB (last : option (Z * Z)) : Wld :=
  match last with
  | Some (sa, sb) => mkWld (- b2z (sa <? sb)) (- b2z (sb <? sa)) (- (sb - sa))
  | None => zeroWld
  end.
Definition addedA (scoreA scoreB : Z) : Wld :=
  mkWld (b2z (scoreB <? scoreA)) (b2z (negb (scoreB <? scoreA))) (scoreA - scoreB).
Definition addedB (scoreA scoreB : Z) : Wld :=
  mkWld (b2z (negb (scoreB <? scoreA))) (b2z (scoreB <? scoreA)) (scoreB - scoreA).

Definition netChange (a b : ref) (scoreA scoreB : Z) (last : option (Z * Z)) (x : ref)
    : Wld :=
  plusWld (if Nat.eqb x a then plusWld (undoneA last) (addedA scoreA scoreB) else zeroWld)
          (if Nat.eqb x b then plusWld (undoneB last) (addedB scoreA scoreB) else zeroWld).

(** ** The Swiss round controller *)

(** A week with one match of round 2 still open. *)
Definition worldPending : World :=
  mkWorld 1 [0; 1]%nat [] 2 1 []
          (fun r => mkTeam (if Nat.eqb r 0 then "A" else "B") []
                           (mkSwiss (mkWld 1 0 3) [] false) (mkWld 0 0 0))
          [makeMatch 0%nat 1%nat true] [] None [].

(** The teams that carry the round-4 mark. *)
Definition eligible (s : World) : list ref :=
  filter (fun t => playR4 (swiss (heap s t)) = true) (teams s).

(** Four teams carry the mark, two of them at 2-1 and two at 1-2. *)
Definition worldRound4 : World :=
  mkWorld 1 [0; 1; 2; 3]%nat [] 3 0 []
          (fun r => mkTeam (if Nat.eqb r 0 then "A" else if Nat.eqb r 1 then "B"
                            else if Nat.eqb r 2 then "C" else "D") []
                           (mkSwiss (if Nat.ltb r 2 then mkWld 2 1 3 else mkWld 1 2 (-3))
                                    [] true)
                           (mkWld 0 0 0))
          [] [] None [].

(** Only two teams carry the mark when round 4 is asked for. *)
Definition worldRound4Short : World :=
  mkWorld 1 [0; 1; 2; 3]%nat [] 3 0 []
          (fun r => mkTeam (if Nat.eqb r 0 then "A" else if Nat.eqb r 1 then "B"
                            else if Nat.eqb r 2 then "C" else "D") []
                           (mkSwiss (if Nat.ltb r 2 then mkWld 2 1 3 else mkWld 0 3 (-3))
                                    [] (Nat.ltb r 2))
                           (mkWld 0 0 0))
          [] [] None [].

(** ** Week finalization *)

(** One addition to a league record: the points, the team whose bracket
    block is added, the name looked up. *)
Definition Award := (Z * ref * string)%type.

Definition giveAward (s : World) (aw : Award) : World :=
  awardPlayer (fst (fst aw)) (snd (fst aw)) s (snd aw).

Definition teamAwards (h : Heap) (points : Z) (t : ref) : list Award :=
  map (fun n => (points, t, n)) (players (h t)).

(** The additions of [finalizeWeek] in the order the loops make them. *)
Fixpoint pairAwards (h : Heap) (i : nat) (pairs : Pairing) : option (list Award) :=
  match pairs with
  | [] => Some []
  | (a, b) :: rest =>
      hp ← hiPts i;
      lp ← loPts i;
      tl ← pairAwards h (S i) rest;
      Some (teamAwards h hp (hiTeam h a b) ++ teamAwards h lp (loTeam h a b) ++ tl)
  end.

(** What the award loop cannot change: everything but the league records
    and the console. *)
Definition awardsOnly (s s' : World) : Prop :=
  week s' = week s /\ teams s' = teams s /\ swissRound s' = swissRound s /\
  pending s' = pending s /\ bracketRounds s' = bracketRounds s /\
  heap s' = heap s /\ content s' = content s /\
  map p_name (allPlayers s') = map p_name (allPlayers s).

(** The names on the rosters of the teams of round 3. *)
Definition rosterNames (h : Heap) (pairs : Pairing) : list string :=
  flat_map (fun ab => players (h (fst ab)) ++ players (h (snd ab))) pairs.


(** The awards of [aws] that resolve to the player at position [k]. *)
Definition awardsFor (ps : list Player) (k : nat) (aws : list Award) : list Award :=
  filter (fun aw => findPlayerByName (snd aw) ps = Some k) aws.

Definition addAward (h : Heap) (p : Player) (aw : Award) : Player :=
  addLeague (fst (fst aw)) (bracket (h (snd (fst aw)))) p.

(** A week whose bracket is played out: eight teams of two, round 3 holding
    the four placement pairs, the even-numbered team ahead in each. *)
Definition letter (r : nat) : string := String (Ascii.ascii_of_nat (65 + r)) EmptyString.

Definition teamOf (r : nat) : Team :=
  mkTeam ("T" +:+ letter r) ["P" +:+ letter r; "Q" +:+ letter r]
         (mkSwiss (mkWld 2 2 (Z.of_nat r)) ["T" +:+ letter (7 - r)] false)
         (if Nat.even r then mkWld 3 0 12 else mkWld 2 1 (-4)).

Definition playersOf (r : nat) : list Player :=
  [mkPlayer ("P" +:+ letter r) ("T" +:+ letter r) (mkLeague 20 5 4 (-3));
   mkPlayer ("Q" +:+ letter r) ("T" +:+ letter r) (mkLeague 0 0 0 0)].

Definition worldBracketDone : World :=
  mkWorld 1 (seq 0 8) (flat_map playersOf (seq 0 8)) 4 0
          [[(0, 7); (3, 4); (1, 6); (2, 5)]%nat;
           [(0, 4); (6, 2); (7, 3); (1, 5)]%nat;
           [(0, 1); (2, 3); (4, 5); (6, 7)]%nat]
          teamOf [] [] None [].

Definition round3 : Pairing := [(0, 1); (2, 3); (4, 5); (6, 7)]%nat.

(** ** The league comparator *)

(** The order of the specification: points descending, then wins
    descending, then point differential descending, then name ascending,
    character code by character code. *)
Definition keyBefore (a b : Player) : Prop :=
  pts (league b) < pts (league a) \/
  (pts (league a) = pts (league b) /\
   (lw (league b) < lw (league a) \/
    (lw (league a) = lw (league b) /\
     (lpd (league b) < lpd (league a) \/
      (lpd (league a) = lpd (league b) /\
       String.ltb (p_name a) (p_name b) = true))))).

Definition sameKey (a b : Player) : Prop :=
  pts (league a) = pts (league b) /\ lw (league a) = lw (league b) /\
  lpd (league a) = lpd (league b) /\ p_name a = p_name b.

(** ** Opponent recording *)

Definition oppsOf (s : World) (t : ref) : list string := opps (swiss (heap s t)).
Definition nameOf (s : World) (t : ref) : string := name (heap s t).

(** A submission through the submit button that passes validation. *)
Definition validSubmit (e : Event) : bool :=
  match e with
  | Submit vA vB => isValidScore (parseIntResult vA) (parseIntResult vB)
  | Admin _ _ => false
  end.

(** The entry a Swiss match adds to the opponents list of team [t]. *)
Definition entryFor (m : Match) (s : World) (t : ref) : list string :=
  if Nat.eqb t (m_a m) then [nameOf s (m_b m)]
  else if Nat.eqb t (m_b m) then [nameOf s (m_a m)]
  else [].

(** ** The pairing engine *)

(** The teams of a pairing, pair after pair. *)
Definition flatPairs (M : Pairing) : list ref := flat_map (fun p => [fst p; snd p]) M.

(** Every team of the pool is in exactly one pair. *)
Definition perfectMatching (pool : list ref) (M : Pairing) : Prop :=
  NoDup (flatPairs M) /\ flatPairs M ≡ₚ pool.

(** Neither team has the other's name in its opponents list. *)
Definition neverMet (h : Heap) (p : ref * ref) : Prop :=
  includesOpp h (fst p) (snd p) = false /\ includesOpp h (snd p) (fst p) = false.

(** The check of the search: the second team of the pair is not in the
    opponents list of the first. *)
Definition passesCheck (h : Heap) (p : ref * ref) : Prop :=
  includesOpp h (fst p) (snd p) = false.

(** The two teams are in each other's opponents lists. *)
Definition inEachOthersOpps (h : Heap) (p : ref * ref) : Prop :=
  name (h (snd p)) ∈ opps (swiss (h (fst p))) /\
  name (h (fst p)) ∈ opps (swiss (h (snd p))).

(** A failed call leaves [used] and [result] as it found them. *)
Definition restores (rec : gset ref -> Pairing -> Search) : Prop :=
  forall used result u r, rec used result = Some (false, u, r) -> u = used /\ r = result.

(** What a successful call has done: it has appended pairs of unused
    teams of the pool that pass the check, no team twice, and [used]
    has as many teams as the pool. *)
Definition extends (h : Heap) (pool : list ref) (used : gset ref) (result : Pairing)
    (u : gset ref) (r : Pairing) : Prop :=
  exists new,
    r = result ++ new /\
    u = list_to_set (flatPairs new) ∪ used /\
    NoDup (flatPairs new) /\
    (forall x, x ∈ flatPairs new -> x ∈ pool /\ x ∉ used) /\
    Forall (passesCheck h) new /\
    size u = length pool.

(** A matching of the unused teams in which no two paired teams have
    met. *)
Definition matchesUnused (h : Heap) (pool : list ref) (used : gset ref) (M : Pairing)
    : Prop :=
  NoDup (flatPairs M) /\
  (list_to_set (flatPairs M) : gset ref) = list_to_set (C := gset nat) pool ∖ used /\
  Forall (neverMet h) M.

(** The opponents lists agree on who has met whom, as they do when every
    entry was pushed by a submit handler. *)
Definition oppsSymmetric (h : Heap) (pool : list ref) : Prop :=
  forall x y, x ∈ pool -> y ∈ pool -> includesOpp h x y = includesOpp h y x.

(** Four teams of one pool: A and C have met, and so have C and D. The
    search first pairs A with B, finds C and D left over, pops the pair and
    ends with A-D and B-C. *)
Definition poolHeap : Heap :=
  fun r => mkTeam (letter r) []
                  (mkSwiss (mkWld 1 1 0)
                           (match r with
                            | 0 => ["C"]
                            | 2 => ["A"; "D"]
                            | 3 => ["C"]
                            | _ => []
                            end%nat)
                           false)
                  (mkWld 0 0 0).

(** ** A week from its start *)

(** Eight teams at 0-0 and nothing played. *)
Definition worldStart : World :=
  mkWorld 1 (seq 0 8) (flat_map playersOf (seq 0 8)) 0 0 []
          (fun r => mkTeam ("T" +:+ letter r) ["P" +:+ letter r; "Q" +:+ letter r]
                           freshSwiss freshBracket)
          [] [] None [].

(** ** Runs of submissions *)

(** The block of a team that the phase selects. *)
Definition phaseBlock (isSwiss : bool) (t : Team) : Wld :=
  if isSwiss then s_rec (swiss t) else bracket t.

(** The scores of an event that passes validation, through either
    handler. *)
Definition validScores (e : Event) : option (Z * Z) :=
  match e with
  | Submit (Some x) (Some y)
  | Admin (Some (Some x)) (Some (Some y)) =>
      if isValidScore (parseIntResult (Some x)) (parseIntResult (Some y))
      then Some (x, y) else None
  | _ => None
  end.

(** The scores of the last event of a run that passes validation. *)
Definition lastValid (es : list Event) : option (Z * Z) :=
  last (omap validScores es).

(** Several single-game elements on the page: the variables of each, an
    event on the [i]-th of them (handled as an element of [makeMatch]
    handles it), and a run of such events. *)
Definition handleAt (ie : nat * Event) (ps : list Match * World) : list Match * World :=
  match fst ps !! fst ie with
  | Some m =>
      let ms' := handle (snd ie) (m, snd ps) in
      (<[fst ie := fst ms']> (fst ps), snd ms')
  | None => ps
  end.

Definition runPage (ies : list (nat * Event)) (ps : list Match * World)
    : list Match * World :=
  fold_left (fun acc ie => handleAt ie acc) ies ps.

(** The elements not yet submitted. *)
Definition notDone (ms : list Match) : list Match :=
  filter (fun m => done m = false) ms.

(** What a submission has no business with: the name, the roster, the
    round-4 mark and the block of the other phase. *)
Definition restOf (isSwiss : bool) (t : Team) : string * list string * bool * Wld :=
  (name t, players t, playR4 (swiss t), phaseBlock (negb isSwiss) t).

(** Whether a run holds an event that passes validation. *)
Definition anyValid (es : list Event) : bool :=
  match lastValid es with Some _ => true | None => false end.

(** ** Best-of-3 series *)

(** Whether team A takes the series: the first two games if one team won
    both, the third otherwise. *)
Definition seriesToA (a1 b1 a2 b2 : Z) (g3a g3b : option Z) : bool :=
  if Bool.eqb (b1 <? a1) (b2 <? a2) then b1 <? a1 else jsGtInt g3a g3b.

(** A series that goes to a third game, which team A wins 11 to 9. *)
Definition seriesOfThree : option (Match * World * Bo3Outcome) :=
  bo3Onclick (Some 11) (Some 3) (Some 5) (Some 11) (Some 11) (Some 9)
             (makeBo3Match 0%nat 1%nat true) worldPending.

(** ** The Swiss standings *)

(** [Array.prototype.sort] puts [a] before [b] when the comparator is
    negative on [(a, b)]. *)
Definition seedsBefore (buchholzFn : ref -> Z) (h : Heap) (a b : ref) : Prop :=
  compareTeamsBySwiss buchholzFn h a b < 0.

(** The order of the standings: Swiss wins descending, then the tiebreak
    descending, then Swiss point differential descending, then name
    ascending, character code by character code. *)
Definition teamKeyBefore (buchholzFn : ref -> Z) (h : Heap) (a b : ref) : Prop :=
  w (s_rec (swiss (h b))) < w (s_rec (swiss (h a))) \/
  (w (s_rec (swiss (h a))) = w (s_rec (swiss (h b))) /\
   (buchholzFn b < buchholzFn a \/
    (buchholzFn a = buchholzFn b /\
     (pd (s_rec (swiss (h b))) < pd (s_rec (swiss (h a))) \/
      (pd (s_rec (swiss (h a))) = pd (s_rec (swiss (h b))) /\
       String.ltb (name (h a)) (name (h b)) = true))))).

(** What one entry of an opponents list is worth: the Swiss wins of the
    first team of [ts] that bears the name, nothing if none does. *)
Definition oppWins (h : Heap) (ts : list ref) (n : string) : Z :=
  match List.find (fun x => String.eqb (name (h x)) n) ts with
  | Some opp => w (s_rec (swiss (h opp)))
  | None => 0
  end.

(** ** The bracket *)

(** The fresh elements of a round of the bracket. *)
Definition bracketMatches (pairs : Pairing) : list Match :=
  map (fun p => makeMatch (fst p) (snd p) false) pairs.

(** A sort the host may run: insertion from the left, an element going
    before the first element it is to precede. *)
Fixpoint insertSorted (cmp : ref -> ref -> Z) (x : ref) (l : list ref) : list ref :=
  match l with
  | [] => [x]
  | y :: l' => if cmp x y <? 0 then x :: y :: l' else y :: insertSorted cmp x l'
  end.

Definition insertionSort (cmp : ref -> ref -> Z) (l : list ref) : list ref :=
  foldr (insertSorted cmp) [] l.

(** The week of [worldBracketDone] when its Swiss rounds are over and no
    bracket has been drawn. *)
Definition worldSwissDone : World :=
  mkWorld 1 (seq 0 8) (flat_map playersOf (seq 0 8)) 4 0 []
          (fun r => mkTeam ("T" +:+ letter r) ["P" +:+ letter r; "Q" +:+ letter r]
                           (mkSwiss (mkWld (Z.of_nat (r / 2)) (Z.of_nat (3 - r / 2))
                                           (Z.of_nat r))
                                    [] false)
                           freshBracket)
          [] [] None [].

(** A page whose open elements are the bracket elements that [pending]
    counts: while some are open the callback of round [r] is registered
    and the queue is [q0]; once none is, the callback is cleared and
    queued once. *)
Definition roundOnPage (r : Z) (q0 : list Z) (ps : list Match * World) : Prop :=
  (forall m, m ∈ fst ps -> done m = false -> m_isSwiss m = false) /\
  pending (snd ps) = Z.of_nat (length (notDone (fst ps))) /\
  if pending (snd ps) =? 0
  then onAllMatchesComplete (snd ps) = None /\ microtasks (snd ps) = q0 ++ [r]
  else onAllMatchesComplete (snd ps) = Some r /\ microtasks (snd ps) = q0.

(** Whether a run on a page holds a valid event on the [i]-th element. *)
Definition validAt (i : nat) (ies : list (nat * Event)) : bool :=
  existsb (fun ie => Nat.eqb (fst ie) i
                     && match validScores (snd ie) with Some _ => true | None => false end)
          ies.

(** Round 3 of [worldBracketDone] with two of its elements on the page,
    both open, and a run that submits the first, corrects it through the
    override and then submits the second. *)
Definition pageOfTwo : list Match := bracketMatches [(0, 1); (2, 3)]%nat.

Definition worldRoundOpen : World :=
  mkWorld 1 (seq 0 8) (flat_map playersOf (seq 0 8)) 4 2
          (bracketRounds worldBracketDone) teamOf pageOfTwo [] (Some 3) [].

Definition eventsOfTwo : list (nat * Event) :=
  [(0%nat, Submit (Some 11) (Some 5));
   (0%nat, Admin (Some (Some 9)) (Some (Some 11)));
   (1%nat, Submit (Some 3) (Some 11))].

(** ** What a Swiss round draws *)

(** The pairs of a list of elements. *)
Definition pairsOf (ms : list Match) : Pairing := map (fun m => (m_a m, m_b m)) ms.

(** The pairs [M] are drawn from the teams of [s] whose record satisfies
    [K]: no team is in two pairs, the two teams of a pair are teams of the
    state with the same Swiss record, and the second is not in the
    opponents list of the first. *)
Definition drawnFrom (s : World) (K : Z * Z -> Prop) (M : Pairing) : Prop :=
  NoDup (flatPairs M) /\
  Forall (fun p => fst p ∈ teams s /\ snd p ∈ teams s /\
                   recordKey (heap s (fst p)) = recordKey (heap s (snd p)) /\
                   K (recordKey (heap s (fst p))) /\
                   includesOpp (heap s) (fst p) (snd p) = false) M.

(** The teams of [ts] with the record [k], in the order of [ts]. *)
Definition withRecord (h : Heap) (k : Z * Z) (ts : list ref) : list ref :=
  filter (fun t => recordKey (h t) = k) ts.

(** The two heaps differ at most in the round-4 marks. *)
Definition sameButMarks (h h' : Heap) : Prop :=
  forall t, name (h' t) = name (h t) /\ players (h' t) = players (h t) /\
            s_rec (swiss (h' t)) = s_rec (swiss (h t)) /\
            opps (swiss (h' t)) = opps (swiss (h t)) /\
            bracket (h' t) = bracket (h t).

(** An element as [makeMatch] or [makeBo3Match] returns it for a Swiss
    round. *)
Definition freshSwissMatch (m : Match) : Prop :=
  m_isSwiss m = true /\ done m = false /\ lastResult m = None /\
  oppsRecorded m = false /\ submitDisabled m = false.

(** Where the controller stands after some pools of the round that
    follows the state [s]: the elements appended so far are fresh Swiss
    elements, [pending] counts them, their pairs are drawn from the
    records [K], best-of-3 elements are made only for round 3 and the
    records 2-0 and 0-2, and nothing else has changed but marks. *)
Definition roundSoFar (s : World) (K : Z * Z -> Prop) (s1 : World) : Prop :=
  exists new,
    content s1 = content s ++ new /\
    pending s1 = Z.of_nat (length new) /\
    Forall freshSwissMatch new /\
    drawnFrom s K (pairsOf new) /\
    (forall m, m ∈ new -> m_bo3 m = true ->
               swissRound s1 = 3 /\
               (recordKey (heap s (m_a m)) = (2, 0) \/ recordKey (heap s (m_a m)) = (0, 2))) /\
    sameButMarks (heap s) (heap s1) /\
    swissRound s1 = swissRound s + 1 /\
    teams s1 = teams s /\ allPlayers s1 = allPlayers s /\ week s1 = week s /\
    bracketRounds s1 = bracketRounds s /\
    onAllMatchesComplete s1 = onAllMatchesComplete s /\ microtasks s1 = microtasks s.

(** Four teams after two rounds: one at 2-0, two at 1-1, one at 0-2. *)
Definition worldRound2Done : World :=
  mkWorld 1 [0; 1; 2; 3]%nat [] 2 0 []
          (fun r => mkTeam (letter r) []
                           (mkSwiss (match r with
                                     | 0 => mkWld 2 0 9
                                     | 1 => mkWld 1 1 2
                                     | 2 => mkWld 1 1 (-2)
                                     | _ => mkWld 0 2 (-9)
                                     end%nat)
                                    [] false)
                           (mkWld 0 0 0))
          [] [] None [].

(** ** The start of a league *)

(** Whether [startLeague] goes through: the dialog was not needed or was
    confirmed, and every field passed the check. *)
Definition accepted (trim toLowerCase : string -> string) (confirmed : bool)
    (inputs : list Group) (s : World) : bool :=
  (negb (hasTeams s) || confirmed)
  && fst (fold_left (checkInput trim toLowerCase) (inputValues inputs) (true, [])).

(** The names of the teams of the state and of its players. *)
Definition teamNames (s : World) : list string := map (fun t => name (heap s t)) (teams s).
Definition playerNames (s : World) : list string := map p_name (allPlayers s).

(** Eight groups of fields, all different. *)
Definition leagueInputs : list Group :=
  map (fun r => ("T" +:+ letter r, "P" +:+ letter r, "Q" +:+ letter r)) (seq 0 8).

(** The state in which [startLeague] calls [nextSwissRound]: week 1,
    round 0, the new teams and players, an empty page; [pending], the
    bracket rounds, the callback and the queue are those of before. *)
Definition leagueReady (trim : string -> string) (inputs : list Group) (s : World) : World :=
  mkWorld 1 (seq (freshRef s) (length inputs)) (flat_map (newPlayers trim) inputs) 0
          (pending s) (bracketRounds s)
          (allocTeams trim (freshRef s) inputs (heap s)) [] (console s)
          (onAllMatchesComplete s) (microtasks s).

(** The pairs of neighbours of a list. *)
Fixpoint neighbours (ts : list ref) : Pairing :=
  match ts with
  | a :: b :: rest => (a, b) :: neighbours rest
  | _ => []
  end.

(** ** The records and the results on the page *)

(** What the result that an element remembers is worth to team [t]: what
    one application of it adds to the record of [t]. *)
Definition resultNet (m : Match) (t : ref) : Wld :=
  match lastResult m with
  | Some (x, y) => netChange (m_a m) (m_b m) x y None t
  | None => zeroWld
  end.

(** The sum over the elements of a page. *)
Definition pageNet (ms : list Match) (t : ref) : Wld :=
  foldr (fun m acc => plusWld (resultNet m t) acc) zeroWld ms.

(** The elements of the page are of one phase and remember decisive
    results only, and the records of that phase are those of [s0] plus
    what the remembered results are worth. *)
Definition pageConsistent (isSwiss : bool) (s0 : World) (ps : list Match * World) : Prop :=
  (forall m, m ∈ fst ps ->
             m_isSwiss m = isSwiss /\
             forall x y, lastResult m = Some (x, y) -> x <> y) /\
  forall t, phaseBlock isSwiss (heap (snd ps) t)
            = plusWld (phaseBlock isSwiss (heap s0 t)) (pageNet (fst ps) t).

(** What no event on an element changes: week, teams, players, round
    counter, bracket rounds, the elements appended and the console. *)
Definition sameLeague (s s' : World) : Prop :=
  week s' = week s /\ teams s' = teams s /\ allPlayers s' = allPlayers s /\
  swissRound s' = swissRound s /\ bracketRounds s' = bracketRounds s /\
  content s' = content s /\ console s' = console s.

(** A first round of the bracket of [worldStart] and a run that closes
    its four elements, the first after a correction. *)
Definition roundOfFour : Pairing := [(0, 1); (2, 3); (4, 5); (6, 7)]%nat.

Definition eventsOfFour : list (nat * Event) :=
  eventsOfTwo ++ [(2%nat, Submit (Some 11) (Some 0));
                  (3%nat, Admin (Some (Some 12)) (Some (Some 14)))].

(** * Properties *)

(** ** Score validation *)

Lemma Qmax_sub_Qmin (x y : Q) : (Qmax x y - Qmin x y == Qabs (x - y))%Q.
Proof.
  destruct (Qlt_le_dec x y) as [Hlt | Hle].
  - apply Qlt_le_weak in Hlt.
    rewrite (Q.max_r x y Hlt), (Q.min_l x y Hlt).
    rewrite Qabs_neg; [ring | lra].
  - rewrite (Q.max_l x y Hle), (Q.min_r x y Hle).
    rewrite Qabs_pos; [ring | lra].
Qed.

Lemma negb_Qle_bool_false (x y : Q) : negb (Qle_bool x y) = false <-> (x <= y)%Q.
Proof. rewrite negb_false_iff. apply Qle_bool_iff. Qed.

Lemma isValidScore_numbers (x y : Q) :
  isValidScore (JsNumber x) (JsNumber y) = true <->
  ((0 <= x <= 99)%Q /\ (0 <= y <= 99)%Q /\
   (11 <= Qmax x y)%Q /\ (2 <= Qabs (x - y))%Q).
Proof.
  unfold isValidScore; cbn [typeofNumber isNaN negb orb jsLt jsGt].
  destruct (negb (Qle_bool 0 x)) eqn:Hx0; cbn [orb].
  { split; [discriminate |]. intros [[H _] _].
    apply negb_Qle_bool_false in H. congruence. }
  destruct (negb (Qle_bool 0 y)) eqn:Hy0; cbn [orb].
  { split; [discriminate |]. intros (_ & [H _] & _).
    apply negb_Qle_bool_false in H. congruence. }
  destruct (negb (Qle_bool x 99)) eqn:Hx9; cbn [orb].
  { split; [discriminate |]. intros [[_ H] _].
    apply negb_Qle_bool_false in H. congruence. }
  destruct (negb (Qle_bool y 99)) eqn:Hy9; cbn [orb].
  { split; [discriminate |]. intros (_ & [_ H] & _).
    apply negb_Qle_bool_false in H. congruence. }
  apply negb_Qle_bool_false in Hx0, Hy0, Hx9, Hy9.
  rewrite andb_true_iff, !Qle_bool_iff, Qmax_sub_Qmin.
  tauto.
Qed.

Lemma Qmax_inject_Z (m n : Z) : (Qmax (inject_Z m) (inject_Z n) == inject_Z (Z.max m n))%Q.
Proof.
  destruct (Z.le_gt_cases m n) as [H | H].
  - rewrite Z.max_r by lia. apply Q.max_r. now rewrite <- Zle_Qle.
  - rewrite Z.max_l by lia. apply Q.max_l. rewrite <- Zle_Qle. lia.
Qed.

Lemma Qabs_sub_inject_Z (m n : Z) :
  (Qabs (inject_Z m - inject_Z n) == inject_Z (Z.abs (m - n)))%Q.
Proof.
  unfold Qminus. rewrite <- inject_Z_opp, <- inject_Z_plus.
  unfold Qabs, inject_Z. reflexivity.
Qed.

Lemma isValidScore_integers (m n : Z) :
  isValidScore (JsNumber (inject_Z m)) (JsNumber (inject_Z n)) = true <->
  (0 <= m <= 99 /\ 0 <= n <= 99 /\ 11 <= Z.max m n /\ 2 <= Z.abs (m - n)).
Proof.
  rewrite isValidScore_numbers, Qmax_inject_Z, Qabs_sub_inject_Z.
  change 0%Q with (inject_Z 0). change 99%Q with (inject_Z 99).
  change 11%Q with (inject_Z 11). change 2%Q with (inject_Z 2).
  rewrite <- !Zle_Qle. tauto.
Qed.

Lemma isValidScore_true_numbers (a b : JsValue) :
  isValidScore a b = true -> exists x y, a = JsNumber x /\ b = JsNumber y.
Proof.
  destruct a as [x | | [] |], b as [y | | [] |]; try discriminate; eauto.
  all: unfold isValidScore; cbn [typeofNumber isNaN negb orb jsLt jsGt];
    repeat match goal with |- context [if ?c then _ else _] => destruct c end;
    discriminate.
Qed.

(** C6, as the code has it: [isValidScore] is true exactly on two numbers
    (not NaN, not infinite, of type number) between 0 and 99 whose maximum
    is at least 11 and which are at least 2 apart; it does not ask for
    integers. On what [parseInt] hands it (an integer or NaN) that is the
    condition of the specification. *)
Theorem isValidScore_iff (scoreA scoreB : JsValue) :
  (isValidScore scoreA scoreB = true <->
   exists x y : Q,
     scoreA = JsNumber x /\ scoreB = JsNumber y /\
     (0 <= x <= 99)%Q /\ (0 <= y <= 99)%Q /\
     (11 <= Qmax x y)%Q /\ (2 <= Qabs (x - y))%Q) /\
  (forall vA vB : option Z,
     isValidScore (parseIntResult vA) (parseIntResult vB) = true <->
     validScorePair (parseIntResult vA) (parseIntResult vB)).
Proof.
  split.
  - split.
    + intros H. destruct (isValidScore_true_numbers _ _ H) as (x & y & -> & ->).
      exists x, y. apply isValidScore_numbers in H. tauto.
    + intros (x & y & -> & -> & H). apply isValidScore_numbers. exact H.
  - intros vA vB. unfold validScorePair.
    destruct vA as [m |], vB as [n |]; cbn [parseIntResult jsIsInt].
    + rewrite isValidScore_integers. split.
      * intros H. exists m, n. repeat split; try reflexivity; tauto.
      * intros (m' & n' & Hm & Hn & H).
        unfold Qeq in Hm, Hn. cbn in Hm, Hn.
        assert (m = m') by lia. assert (n = n') by lia. subst. tauto.
    + split; [discriminate | intros (? & ? & _ & [] & _)].
    + split; [discriminate | intros (? & ? & [] & _)].
    + split; [discriminate | intros (? & ? & [] & _)].
Qed.

(** C6, the claim as stated fails: 11.5 against 3 is accepted, and 11.5 is
    no integer. *)
Lemma isValidScore_accepts_non_integer :
  isValidScore (JsNumber (23 # 2)) (JsNumber 3) = true /\
  ~ validScorePair (JsNumber (23 # 2)) (JsNumber 3).
Proof.
  split; [reflexivity |].
  intros (m & n & Hm & _). cbn in Hm. unfold Qeq in Hm. cbn in Hm. lia.
Qed.

(** ** Applying and re-applying a score *)

Lemma Team_eq (t u : Team) :
  name t = name u -> players t = players u ->
  s_rec (swiss t) = s_rec (swiss u) -> opps (swiss t) = opps (swiss u) ->
  playR4 (swiss t) = playR4 (swiss u) -> bracket t = bracket u -> t = u.
Proof.
  destruct t as [? ? [] ?], u as [? ? [] ?]; cbn; intros; subst; reflexivity.
Qed.

Lemma Wld_eq (x y : Wld) : w x = w y -> l x = l y -> pd x = pd y -> x = y.
Proof. destruct x, y; cbn; intros; subst; reflexivity. Qed.

Lemma upd_at (h : Heap) (r : ref) (f : Team -> Team) (x : ref) :
  upd h r f x = if Nat.eqb x r then f (h x) else h x.
Proof. reflexivity. Qed.

Lemma bump_zero isSwiss t : bump isSwiss zeroWld t = t.
Proof.
  destruct isSwiss; apply Team_eq; cbn; try reflexivity; apply Wld_eq; cbn; lia.
Qed.

Lemma bump_bump isSwiss d1 d2 t :
  bump isSwiss d2 (bump isSwiss d1 t) = bump isSwiss (plusWld d1 d2) t.
Proof.
  destruct isSwiss; apply Team_eq; cbn; try reflexivity; apply Wld_eq; cbn; lia.
Qed.

Lemma tracks_refl isSwiss h : tracks isSwiss h (fun _ => zeroWld) h.
Proof. intros x. symmetry. apply bump_zero. Qed.

Lemma tracks_upd isSwiss h D hp r f d :
  (forall x, f x = plusWld x d) ->
  tracks isSwiss h D hp ->
  tracks isSwiss h (also r d D) (upd hp r (setPhaseStats isSwiss f)).
Proof.
  intros Hf H x. unfold upd, also. rewrite (H x).
  destruct (Nat.eqb x r).
  - rewrite <- bump_bump. unfold bump at 3.
    destruct isSwiss; cbn [setPhaseStats]; rewrite Hf; reflexivity.
  - replace (plusWld (D x) zeroWld) with (D x); [reflexivity |].
    apply Wld_eq; cbn; lia.
Qed.

Lemma addW_plus d x : addW d x = plusWld x (mkWld d 0 0).
Proof. apply Wld_eq; cbn; lia. Qed.
Lemma addL_plus d x : addL d x = plusWld x (mkWld 0 d 0).
Proof. apply Wld_eq; cbn; lia. Qed.
Lemma addPd_plus d x : addPd d x = plusWld x (mkWld 0 0 d).
Proof. apply Wld_eq; cbn; lia. Qed.

Ltac track_upd :=
  first [ eapply tracks_upd; [intros; apply addW_plus |]
        | eapply tracks_upd; [intros; apply addL_plus |]
        | eapply tracks_upd; [intros; apply addPd_plus |] ].

Ltac case_ltb :=
  repeat match goal with
         | |- context [?x <? ?y] => destruct (Z.ltb_spec x y)
         end.

Lemma applyScore_at h a b scoreA scoreB isSwiss last x :
  fst (applyScore h a b scoreA scoreB isSwiss last) x
  = bump isSwiss (netChange a b scoreA scoreB last x) (h x).
Proof.
  assert (H : exists D, tracks isSwiss h D (fst (applyScore h a b scoreA scoreB isSwiss last))
                        /\ D x = netChange a b scoreA scoreB last x).
  { unfold applyScore; cbn [fst].
    destruct last as [[sa sb] |], (scoreB <? scoreA) eqn:E;
      (eexists; split; [repeat track_upd; apply tracks_refl |]);
      unfold also, netChange, undoneA, undoneB, addedA, addedB; rewrite E;
      destruct (Nat.eqb x a), (Nat.eqb x b); apply Wld_eq; cbn; lia. }
  destruct H as (D & Htr & <-). apply Htr.
Qed.

(** C2: undoing the previous result [(sa1, sb1)], [sa1 <> sb1], and
    applying [(sa2, sb2)] leaves every team object as if [(sa2, sb2)] alone
    had been applied to the state before [(sa1, sb1)] (whatever baseline
    [last0] that first application had, [None] for a first submission),
    and returns the same new baseline. *)
Theorem applyScore_resubmit (h : Heap) (a b : ref) (isSwiss : bool)
    (last0 : option (Z * Z)) (sa1 sb1 sa2 sb2 : Z) :
  sa1 <> sb1 ->
  let first := applyScore h a b sa1 sb1 isSwiss last0 in
  let again := applyScore (fst first) a b sa2 sb2 isSwiss (snd first) in
  let only := applyScore h a b sa2 sb2 isSwiss last0 in
  snd first = Some (sa1, sb1) /\
  snd again = snd only /\
  forall r : ref, fst again r = fst only r.
Proof.
  intros Hne first again only.
  split; [reflexivity |]. split; [reflexivity |].
  intros r. subst first again only.
  change (snd (applyScore h a b sa1 sb1 isSwiss last0)) with (Some (sa1, sb1)).
  rewrite !applyScore_at, bump_bump. f_equal.
  unfold netChange, undoneA, undoneB, addedA, addedB.
  destruct (Nat.eqb r a), (Nat.eqb r b), last0 as [[sa0 sb0] |];
    case_ltb; try lia; apply Wld_eq; cbn; lia.
Qed.

(** The scores of the specification's example: (11, 3) corrected to
    (9, 11). *)
Lemma applyScore_resubmit_witness :
  let h : Heap := fun _ => mkTeam "T" ["p"; "q"] (mkSwiss (mkWld 1 0 4) ["U"] false)
                                  (mkWld 0 0 0) in
  (11 <> 3) /\
  (snd (applyScore h 0%nat 1%nat 11 3 true None) = Some (11, 3) /\
   snd (applyScore (fst (applyScore h 0%nat 1%nat 11 3 true None)) 0%nat 1%nat 9 11 true
                   (snd (applyScore h 0%nat 1%nat 11 3 true None)))
   = snd (applyScore h 0%nat 1%nat 9 11 true None) /\
   forall r : ref,
     fst (applyScore (fst (applyScore h 0%nat 1%nat 11 3 true None)) 0%nat 1%nat 9 11 true
                     (snd (applyScore h 0%nat 1%nat 11 3 true None))) r
     = fst (applyScore h 0%nat 1%nat 9 11 true None) r).
Proof.
  intros h. split; [lia |].
  apply (applyScore_resubmit h 0%nat 1%nat true None 11 3 9 11). lia.
Defined.

(** ** The Swiss round controller *)

(** [createMatches] appends the matches and counts them as pending; the
    rest of the state is as before. *)
Lemma createMatches_frame mk pairs s :
  let s' := createMatches mk pairs s in
  week s' = week s /\ teams s' = teams s /\ allPlayers s' = allPlayers s /\
  swissRound s' = swissRound s /\ bracketRounds s' = bracketRounds s /\
  heap s' = heap s /\ console s' = console s /\
  pending s' = pending s + Z.of_nat (length pairs) /\
  content s' = content s ++ map (fun p => mk (fst p) (snd p) true) pairs.
Proof.
  unfold createMatches. revert s.
  induction pairs as [| [a b] pairs IH]; intros s; cbn [fold_left].
  - cbn. rewrite Z.add_0_r, app_nil_r. repeat split.
  - destruct (IH (incrementPending (appendChild (mk a b true) s)))
      as (-> & -> & -> & -> & -> & -> & -> & -> & ->).
    cbn. rewrite <- app_assoc. repeat split. lia.
Qed.

Lemma createMatches_heap mk pairs s : heap (createMatches mk pairs s) = heap s.
Proof. apply createMatches_frame. Qed.

Lemma createMatches_swissRound mk pairs s :
  swissRound (createMatches mk pairs s) = swissRound s.
Proof. apply createMatches_frame. Qed.

Lemma forEachTeam_playR4 (v : bool) (ts : list ref) (h : Heap) (t : ref) :
  playR4 (swiss (forEachTeam (setPlayR4 v) ts h t)) =
  if decide (t ∈ ts) then v else playR4 (swiss (h t)).
Proof.
  unfold forEachTeam. revert h.
  induction ts as [| x ts IH]; intros h; cbn [fold_left].
  - destruct (decide (t ∈ [])) as [Hin | _]; [inversion Hin | reflexivity].
  - rewrite IH. destruct (decide (t ∈ ts)) as [Hin | Hnin].
    + rewrite decide_True by (right; exact Hin). reflexivity.
    + unfold upd. destruct (Nat.eqb_spec t x) as [-> | Hne].
      * rewrite decide_True by left. reflexivity.
      * rewrite decide_False; [reflexivity |].
        intros Hin. apply elem_of_cons in Hin as [? | ?]; contradiction.
Qed.

(** C9: while a match of the round is pending, [nextSwissRound] returns
    at once; the state it leaves is the state it found, so [swissRound],
    [pending], every team object and the matches on the page are as they
    were. *)
Theorem nextSwissRound_blocked_while_pending (s : World) :
  0 < pending s ->
  nextSwissRound s = s /\
  swissRound (nextSwissRound s) = swissRound s /\
  pending (nextSwissRound s) = pending s /\
  content (nextSwissRound s) = content s /\
  forall t : ref, heap (nextSwissRound s) t = heap s t.
Proof.
  intros Hp.
  assert (E : nextSwissRound s = s).
  { unfold nextSwissRound. destruct (Z.ltb_spec 0 (pending s)); [reflexivity | lia]. }
  rewrite E. repeat split.
Qed.

Lemma nextSwissRound_blocked_witness :
  0 < pending worldPending /\
  (nextSwissRound worldPending = worldPending /\
   swissRound (nextSwissRound worldPending) = swissRound worldPending /\
   pending (nextSwissRound worldPending) = pending worldPending /\
   content (nextSwissRound worldPending) = content worldPending /\
   forall t : ref, heap (nextSwissRound worldPending) t = heap worldPending t).
Proof.
  split; [reflexivity |].
  apply (nextSwissRound_blocked_while_pending worldPending). reflexivity.
Defined.

(** C4, as the code has it: the round-4 advance clears the mark of every
    team when exactly four teams carry it (whether or not matches come of
    it); with any other number it logs the warning, creates no match and
    leaves every team object, marks included, as it was. *)
Theorem nextSwissRound_round4_marks (s : World) :
  pending s <= 0 -> swissRound s = 3 -> teams s <> [] ->
  let s' := nextSwissRound s in
  swissRound s' = 4 /\
  (length (eligible s) = 4%nat ->
   forall t : ref, t ∈ teams s -> playR4 (swiss (heap s' t)) = false) /\
  (length (eligible s) <> 4%nat ->
   heap s' = heap s /\ content s' = content s /\ pending s' = 0 /\
   console s' = console s ++ [WarnRound4 (length (eligible s))]).
Proof.
  intros Hp Hr Hts s'. subst s'. unfold nextSwissRound.
  destruct (Z.ltb_spec 0 (pending s)) as [? | _]; [lia |].
  set (s1 := setPending 0 (incrementSwissRound s)).
  assert (Hs1 : swissRound s1 = 4) by (cbn; lia).
  assert (Hc1 : content s1 = content s) by reflexivity.
  assert (Hl1 : console s1 = console s) by reflexivity.
  assert (Hp1 : pending s1 = 0) by reflexivity.
  change (teams s1) with (teams s). change (heap s1) with (heap s).
  destruct (teams s) as [| t0 ts] eqn:Ets; [contradiction |].
  rewrite <- Ets, Hs1.
  change (4 =? 3) with false. change (4 =? 4) with true. cbv iota.
  change (filter _ (teams s)) with (eligible s).
  destruct (Nat.eqb_spec (length (eligible s)) 4) as [E4 | N4].
  - split; [| split; [| intros; contradiction]].
    + repeat match goal with |- context [if ?c then _ else _] => destruct c end;
        cbn [setHeap swissRound]; rewrite ?createMatches_swissRound; exact Hs1.
    + intros _ t Ht.
      repeat match goal with |- context [if ?c then _ else _] => destruct c end;
        cbn [setHeap heap]; rewrite ?createMatches_heap;
        change (heap s1) with (heap s);
        rewrite forEachTeam_playR4;
        (destruct (decide (t ∈ eligible s)) as [_ | Hn]; [reflexivity |]);
        (destruct (playR4 (swiss (heap s t))) eqn:Em; [| reflexivity]);
        exfalso; apply Hn; apply list_elem_of_filter; split; assumption.
  - split; [exact Hs1 |]. split; [intros; contradiction |].
    intros _. cbn [log heap content pending console]. rewrite Hl1. repeat split.
Qed.

Lemma nextSwissRound_round4_witness :
  pending worldRound4 <= 0 /\ swissRound worldRound4 = 3 /\ teams worldRound4 <> [] /\
  (swissRound (nextSwissRound worldRound4) = 4 /\
   (length (eligible worldRound4) = 4%nat ->
    forall t : ref, t ∈ teams worldRound4 ->
                    playR4 (swiss (heap (nextSwissRound worldRound4) t)) = false) /\
   (length (eligible worldRound4) <> 4%nat ->
    heap (nextSwissRound worldRound4) = heap worldRound4 /\
    content (nextSwissRound worldRound4) = content worldRound4 /\
    pending (nextSwissRound worldRound4) = 0 /\
    console (nextSwissRound worldRound4)
    = console worldRound4 ++ [WarnRound4 (length (eligible worldRound4))])).
Proof.
  split; [cbn; lia |]. split; [reflexivity |]. split; [discriminate |].
  apply (nextSwissRound_round4_marks worldRound4); [cbn; lia | reflexivity | discriminate].
Defined.

(** C4, the claim as stated fails: with two eligible teams the round-4
    advance runs (the round counter is 4, the warning is logged, no match
    is created) and both teams keep their mark. *)
Lemma nextSwissRound_round4_keeps_marks :
  let s' := nextSwissRound worldRound4Short in
  swissRound s' = 4 /\
  console s' = [WarnRound4 2] /\
  content s' = [] /\
  playR4 (swiss (heap s' 0%nat)) = true /\
  playR4 (swiss (heap s' 1%nat)) = true.
Proof. repeat split. Qed.

(** ** Week finalization *)


Lemma findPlayerByName_names n ps ps' :
  map p_name ps = map p_name ps' -> findPlayerByName n ps = findPlayerByName n ps'.
Proof.
  revert ps'. induction ps as [| q ps IH]; intros [| q' ps']; cbn;
    try discriminate; [reflexivity |].
  intros [= E1 E2]. rewrite E1, (IH ps' E2). reflexivity.
Qed.

Lemma alter_addLeague_names points b k ps :
  map p_name (alter (addLeague points b) k ps) = map p_name ps.
Proof.
  revert k. induction ps as [| q ps IH]; intros [| k]; cbn; try reflexivity.
  f_equal. apply IH.
Qed.

Lemma awardPlayer_frame points t s n : awardsOnly s (awardPlayer points t s n).
Proof.
  unfold awardPlayer, awardsOnly.
  destruct (findPlayerByName n (allPlayers s)); cbn; repeat split.
  apply alter_addLeague_names.
Qed.

Lemma awardsOnly_trans s1 s2 s3 : awardsOnly s1 s2 -> awardsOnly s2 s3 -> awardsOnly s1 s3.
Proof.
  unfold awardsOnly. intros (? & ? & ? & ? & ? & ? & ? & ?) (? & ? & ? & ? & ? & ? & ? & ?).
  repeat split; congruence.
Qed.

Lemma fold_giveAward_frame aws s : awardsOnly s (fold_left giveAward aws s).
Proof.
  revert s. induction aws as [| aw aws IH]; intros s; cbn [fold_left].
  - repeat split.
  - apply (awardsOnly_trans _ (giveAward s aw)); [apply awardPlayer_frame | apply IH].
Qed.

Lemma awardTeam_fold points t s :
  awardTeam points t s = fold_left giveAward (teamAwards (heap s) points t) s.
Proof.
  unfold awardTeam, teamAwards. generalize (players (heap s t)) as ns. intros ns.
  revert s. induction ns as [| n ns IH]; intros s; cbn; [reflexivity | apply IH].
Qed.

Lemma awardPairs_fold pairs : forall i s,
  awardPairs i pairs s = (fun aws => fold_left giveAward aws s) <$> pairAwards (heap s) i pairs.
Proof.
  induction pairs as [| [a b] pairs IH]; intros i s; cbn [awardPairs pairAwards];
    [reflexivity |].
  destruct (hiPts i) as [hp |]; cbn [mbind option_bind]; [| reflexivity].
  destruct (loPts i) as [lp |]; cbn [mbind option_bind]; [| reflexivity].
  rewrite IH, !awardTeam_fold.
  set (s1 := fold_left giveAward (teamAwards (heap s) hp (hiTeam (heap s) a b)) s).
  assert (H1 : heap s1 = heap s) by apply fold_giveAward_frame.
  rewrite H1.
  set (s2 := fold_left giveAward (teamAwards (heap s) lp (loTeam (heap s) a b)) s1).
  assert (H2 : heap s2 = heap s) by (unfold s2; rewrite (proj1 (proj2 (proj2 (proj2 (proj2 (proj2 (fold_giveAward_frame _ s1))))))); exact H1).
  rewrite H2.
  destruct (pairAwards (heap s) (S i) pairs) as [tl |]; cbn; [| reflexivity].
  rewrite !fold_left_app. reflexivity.
Qed.

Lemma pairAwards_Some h pairs : forall i,
  (i + length pairs <= 4)%nat -> is_Some (pairAwards h i pairs).
Proof.
  induction pairs as [| [a b] pairs IH]; intros i Hi; cbn [pairAwards]; [eauto |].
  cbn [length] in Hi.
  destruct (IH (S i)) as [tl ->]; [lia |].
  unfold hiPts, loPts, BRACKET_BASE_POINTS.
  destruct i as [| [| [| [| i]]]]; cbn; eauto. lia.
Qed.


Lemma giveAward_find s aw n :
  findPlayerByName n (allPlayers (giveAward s aw)) = findPlayerByName n (allPlayers s).
Proof. apply findPlayerByName_names, awardPlayer_frame. Qed.



Lemma forEachTeam_resetTeam (ts : list ref) (h : Heap) (t : ref) :
  forEachTeam resetTeam ts h t = if decide (t ∈ ts) then resetTeam (h t) else h t.
Proof.
  unfold forEachTeam. revert h.
  induction ts as [| x ts IH]; intros h; cbn [fold_left].
  - destruct (decide (t ∈ [])) as [Hin | _]; [inversion Hin | reflexivity].
  - rewrite IH. unfold upd.
    destruct (decide (t ∈ ts)) as [Hin | Hnin].
    + rewrite decide_True by (right; exact Hin).
      destruct (Nat.eqb t x); reflexivity.
    + destruct (Nat.eqb_spec t x) as [-> | Hne].
      * rewrite decide_True by left. reflexivity.
      * rewrite decide_False; [reflexivity |].
        intros Hin. apply elem_of_cons in Hin as [? | ?]; contradiction.
Qed.

(** With one to four pairs in round 3, [finalizeWeek] is the award loop
    followed by the reset. *)
Lemma finalizeWeek_unfold (s : World) (pairs : Pairing) :
  bracketRounds s !! 2%nat = Some pairs -> pairs <> [] -> (length pairs <= 4)%nat ->
  exists aws,
    pairAwards (heap s) 0 pairs = Some aws /\
    finalizeWeek s =
    Some (setHeap (forEachTeam resetTeam (teams s) (heap s)) (fold_left giveAward aws s)).
Proof.
  intros H3 Hne Hlen.
  destruct (pairAwards_Some (heap s) pairs 0) as [aws Haws]; [lia |].
  exists aws. split; [exact Haws |].
  unfold finalizeWeek. rewrite H3.
  destruct pairs as [| ab pairs]; [contradiction |].
  rewrite awardPairs_fold, Haws. cbn [fmap option_fmap option_map mbind option_bind].
  destruct (fold_giveAward_frame aws s) as (_ & -> & _ & _ & _ & -> & _).
  reflexivity.
Qed.

(** C3, as the code has it: [finalizeWeek] (round 3 holding one to four
    pairs) resets the swiss and bracket blocks of every team of the league
    and leaves [week], [swissRound] and [bracketRounds] as they are; it is
    [nextWeek], run afterwards, that adds one to [week] and sets
    [swissRound] to 0 as long as the season is not over, and it does not
    touch [bracketRounds] either. *)
Theorem finalizeWeek_nextWeek_reset (s : World) (pairs : Pairing) :
  bracketRounds s !! 2%nat = Some pairs -> pairs <> [] -> (length pairs <= 4)%nat ->
  exists s',
    finalizeWeek s = Some s' /\
    (forall t : ref, t ∈ teams s ->
       swiss (heap s' t) = freshSwiss /\ bracket (heap s' t) = freshBracket) /\
    teams s' = teams s /\
    week s' = week s /\ swissRound s' = swissRound s /\
    bracketRounds s' = bracketRounds s /\
    (week s < TOTAL_WEEKS ->
       week (nextWeek s') = week s + 1 /\ swissRound (nextWeek s') = 0 /\
       bracketRounds (nextWeek s') = bracketRounds s /\
       heap (nextWeek s') = heap s') /\
    (TOTAL_WEEKS <= week s -> nextWeek s' = s').
Proof.
  intros H3 Hne Hlen.
  destruct (finalizeWeek_unfold s pairs H3 Hne Hlen) as (aws & _ & ->).
  eexists. split; [reflexivity |].
  destruct (fold_giveAward_frame aws s) as (Hw & Ht & Hr & _ & Hb & _).
  cbn [setHeap heap teams week swissRound bracketRounds].
  split.
  { intros t Hin. rewrite forEachTeam_resetTeam, decide_True by exact Hin.
    split; reflexivity. }
  rewrite Hw, Ht, Hr, Hb. repeat split.
  - unfold nextWeek, isLeagueComplete; cbn [week setHeap]. rewrite Hw.
    destruct (Z.leb_spec TOTAL_WEEKS (week s)); [lia | reflexivity].
  - unfold nextWeek, isLeagueComplete; cbn [week setHeap]. rewrite Hw.
    destruct (Z.leb_spec TOTAL_WEEKS (week s)); [lia | reflexivity].
  - unfold nextWeek, isLeagueComplete; cbn [week setHeap]. rewrite Hw.
    destruct (Z.leb_spec TOTAL_WEEKS (week s)); [lia | cbn; exact Hb].
  - unfold nextWeek, isLeagueComplete; cbn [week setHeap]. rewrite Hw.
    destruct (Z.leb_spec TOTAL_WEEKS (week s)); [lia | reflexivity].
  - intros Hover. unfold nextWeek, isLeagueComplete; cbn [week setHeap]. rewrite Hw.
    destruct (Z.leb_spec TOTAL_WEEKS (week s)); [reflexivity | lia].
Qed.

Lemma hiTeam_loTeam_cases h a b :
  (hiTeam h a b = a /\ loTeam h a b = b) \/ (hiTeam h a b = b /\ loTeam h a b = a).
Proof.
  unfold loTeam, hiTeam. destruct (w (bracket (h b)) <? w (bracket (h a))).
  - rewrite Nat.eqb_refl. left. split; reflexivity.
  - destruct (Nat.eqb_spec b a) as [-> | _]; [left | right]; split; reflexivity.
Qed.

Lemma teamAwards_names h points t : map snd (teamAwards h points t) = players (h t).
Proof. unfold teamAwards. rewrite map_map. apply map_id. Qed.

Lemma pairAwards_names h pairs : forall i aws,
  pairAwards h i pairs = Some aws -> map snd aws ≡ₚ rosterNames h pairs.
Proof.
  induction pairs as [| [a b] pairs IH]; intros i aws; cbn [pairAwards].
  - intros [= <-]. reflexivity.
  - destruct (hiPts i) as [hp |]; cbn [mbind option_bind]; [| discriminate].
    destruct (loPts i) as [lp |]; cbn [mbind option_bind]; [| discriminate].
    destruct (pairAwards h (S i) pairs) as [tl |] eqn:Etl; cbn [mbind option_bind];
      [| discriminate].
    intros [= <-]. rewrite !map_app, !teamAwards_names.
    cbn [rosterNames flat_map fst snd]. rewrite (IH _ _ Etl).
    fold (rosterNames h pairs). rewrite app_assoc.
    apply Permutation_app_tail.
    destruct (hiTeam_loTeam_cases h a b) as [[-> ->] | [-> ->]];
      [reflexivity | apply Permutation_app_comm].
Qed.



(** Whatever the rosters: every league record ends as it was plus the
    awards whose name resolves to it, in the order they were given. *)
Lemma fold_giveAward_total aws : forall s k,
  allPlayers (fold_left giveAward aws s) !! k
  = (fun p => fold_left (addAward (heap s)) (awardsFor (allPlayers s) k aws) p)
      <$> allPlayers s !! k.
Proof.
  induction aws as [| aw aws IH]; intros s k; cbn [fold_left].
  - cbn. destruct (allPlayers s !! k); reflexivity.
  - rewrite IH.
    assert (Hh : heap (giveAward s aw) = heap s) by apply awardPlayer_frame.
    assert (Hf : awardsFor (allPlayers (giveAward s aw)) k aws
                 = awardsFor (allPlayers s) k aws).
    { unfold awardsFor. apply list_filter_iff. intros x.
      rewrite giveAward_find. reflexivity. }
    rewrite Hh, Hf. unfold awardsFor at 2. rewrite filter_cons.
    destruct (decide (findPlayerByName (snd aw) (allPlayers s) = Some k)) as [Hk | Hk].
    + unfold giveAward at 1, awardPlayer. rewrite Hk. cbn [allPlayers setPlayers].
      rewrite list_lookup_alter_eq.
      destruct (allPlayers s !! k); reflexivity.
    + assert (E : allPlayers (giveAward s aw) !! k = allPlayers s !! k).
      { unfold giveAward, awardPlayer.
        destruct (findPlayerByName (snd aw) (allPlayers s)) as [k0 |] eqn:E0; cbn;
          [| reflexivity].
        apply list_lookup_alter_ne. congruence. }
      rewrite E. reflexivity.
Qed.

(** [finalizeWeek] on the league records, with no assumption on the
    rosters. *)
Lemma finalizeWeek_league_records (s : World) (pairs : Pairing) :
  bracketRounds s !! 2%nat = Some pairs -> pairs <> [] -> (length pairs <= 4)%nat ->
  exists s' aws,
    finalizeWeek s = Some s' /\ pairAwards (heap s) 0 pairs = Some aws /\
    forall k, allPlayers s' !! k
              = (fun p => fold_left (addAward (heap s)) (awardsFor (allPlayers s) k aws) p)
                  <$> allPlayers s !! k.
Proof.
  intros H3 Hne Hlen.
  destruct (finalizeWeek_unfold s pairs H3 Hne Hlen) as (aws & Haws & ->).
  eexists _, aws. split; [reflexivity |]. split; [exact Haws |].
  intros k. cbn [setHeap allPlayers]. apply fold_giveAward_total.
Qed.


Lemma finalizeWeek_nextWeek_reset_witness :
  bracketRounds worldBracketDone !! 2%nat = Some round3 /\ round3 <> [] /\
  (length round3 <= 4)%nat /\
  exists s',
    finalizeWeek worldBracketDone = Some s' /\
    (forall t : ref, t ∈ teams worldBracketDone ->
       swiss (heap s' t) = freshSwiss /\ bracket (heap s' t) = freshBracket) /\
    teams s' = teams worldBracketDone /\
    week s' = week worldBracketDone /\ swissRound s' = swissRound worldBracketDone /\
    bracketRounds s' = bracketRounds worldBracketDone /\
    (week worldBracketDone < TOTAL_WEEKS ->
       week (nextWeek s') = week worldBracketDone + 1 /\ swissRound (nextWeek s') = 0 /\
       bracketRounds (nextWeek s') = bracketRounds worldBracketDone /\
       heap (nextWeek s') = heap s') /\
    (TOTAL_WEEKS <= week worldBracketDone -> nextWeek s' = s').
Proof.
  split; [reflexivity |]. split; [discriminate |]. split; [cbn; lia |].
  apply (finalizeWeek_nextWeek_reset worldBracketDone round3);
    [reflexivity | discriminate | cbn; lia].
Defined.

(** C3, the claim as stated fails: after [finalizeWeek] the week is still
    1, the Swiss round still 4 and the three bracket rounds still there;
    [nextWeek] then moves the first two and keeps the bracket rounds. *)
Lemma finalizeWeek_keeps_week_round_bracket :
  exists s',
    finalizeWeek worldBracketDone = Some s' /\
    week s' = 1 /\ swissRound s' = 4 /\
    length (bracketRounds s') = 3%nat /\
    week (nextWeek s') = 2 /\ swissRound (nextWeek s') = 0 /\
    length (bracketRounds (nextWeek s')) = 3%nat.
Proof. eexists. split; [reflexivity |]. repeat split. Qed.


(** The league records the example ends with: 15 and 8 points for the
    first pair, 4 and 2 for the last, each on top of what the player had. *)
Example finalizeWeek_example :
  (fun s' => map (fun p => (p_name p, pts (league p), lw (league p))) (allPlayers s'))
    <$> finalizeWeek worldBracketDone
  = Some [("PA", 35, 8); ("QA", 15, 3); ("PB", 28, 7); ("QB", 8, 2);
          ("PC", 28, 8); ("QC", 8, 3); ("PD", 26, 7); ("QD", 6, 2);
          ("PE", 26, 8); ("QE", 6, 3); ("PF", 24, 7); ("QF", 4, 2);
          ("PG", 24, 8); ("QG", 4, 3); ("PH", 22, 7); ("QH", 2, 2)]%string.
Proof. vm_compute. reflexivity. Qed.

(** ** The league comparator *)

Lemma ascii_compare_lt_trans (x y z : Ascii.ascii) :
  Ascii.compare x y = Lt -> Ascii.compare y z = Lt -> Ascii.compare x z = Lt.
Proof.
  unfold Ascii.compare. rewrite !N.compare_lt_iff. apply N.lt_trans.
Qed.

Lemma string_compare_lt_trans (x : string) : forall y z : string,
  String.compare x y = Lt -> String.compare y z = Lt -> String.compare x z = Lt.
Proof.
  induction x as [| cx x IH]; intros [| cy y] [| cz z]; cbn; try discriminate; try reflexivity.
  destruct (Ascii.compare cx cy) eqn:Exy; try discriminate;
    destruct (Ascii.compare cy cz) eqn:Eyz; try discriminate.
  - apply Ascii.compare_eq_iff in Exy, Eyz. subst.
    assert (E : Ascii.compare cz cz = Eq)
      by (unfold Ascii.compare; apply N.compare_refl).
    rewrite E. apply IH.
  - apply Ascii.compare_eq_iff in Exy. subst. rewrite Eyz. reflexivity.
  - apply Ascii.compare_eq_iff in Eyz. subst. rewrite Exy. reflexivity.
  - rewrite (ascii_compare_lt_trans _ _ _ Exy Eyz). reflexivity.
Qed.

Lemma localeCompare_neg (x y : string) : localeCompare x y < 0 <-> String.ltb x y = true.
Proof.
  unfold localeCompare, String.ltb.
  destruct (String.compare x y); split; intros; try lia; try discriminate; reflexivity.
Qed.

Lemma localeCompare_zero (x y : string) : localeCompare x y = 0 <-> x = y.
Proof.
  unfold localeCompare. split.
  - destruct (String.compare x y) eqn:E; intros; try lia.
    apply String.compare_eq_iff. exact E.
  - intros ->. pose proof (String.compare_antisym y y) as H.
    destruct (String.compare y y); cbn in H; try discriminate H; reflexivity.
Qed.

Lemma localeCompare_flip (x y : string) : localeCompare y x = - localeCompare x y.
Proof.
  unfold localeCompare. rewrite (String.compare_antisym x y).
  destruct (String.compare y x); reflexivity.
Qed.

Ltac case_eqb :=
  repeat match goal with
         | |- context [?x =? ?y] => destruct (Z.eqb_spec x y)
         end.

Lemma ranksBefore_keyBefore (a b : Player) : ranksBefore a b <-> keyBefore a b.
Proof.
  unfold ranksBefore, keyBefore, comparePlayersByLeague.
  case_eqb; cbn [negb]; rewrite ?localeCompare_neg; split; intros; try lia; try tauto.
  - do 3 (right; split; [lia |]). assumption.
  - destruct H as [? | [_ [? | [_ [? | [_ ?]]]]]]; try lia. assumption.
Qed.

Lemma compare_zero_sameKey (a b : Player) : comparePlayersByLeague a b = 0 <-> sameKey a b.
Proof.
  unfold sameKey, comparePlayersByLeague.
  case_eqb; cbn [negb]; rewrite ?localeCompare_zero; split; intros; try lia; try tauto.
  repeat split; try lia. assumption.
Qed.

Lemma compare_flip (a b : Player) :
  Z.sgn (comparePlayersByLeague b a) = - Z.sgn (comparePlayersByLeague a b).
Proof.
  unfold comparePlayersByLeague.
  case_eqb; cbn [negb]; try lia. rewrite localeCompare_flip. lia.
Qed.

(** C8: [comparePlayersByLeague], as [Array.prototype.sort] reads it, is a
    strict total order on players of different names: it puts [a] before
    [b] exactly when [a] has more points, or as many and more wins, or as
    many of both and a larger point differential, or as much of all three
    and the smaller name; it is 0 only on equal keys, it is antisymmetric
    and transitive, and two players of different names are always
    ordered. *)
Theorem comparePlayersByLeague_total_order :
  (forall a b : Player, ranksBefore a b <-> keyBefore a b) /\
  (forall a b : Player, comparePlayersByLeague a b = 0 <-> sameKey a b) /\
  (forall a b : Player,
     Z.sgn (comparePlayersByLeague b a) = - Z.sgn (comparePlayersByLeague a b)) /\
  (forall a : Player, ~ ranksBefore a a) /\
  (forall a b c : Player, ranksBefore a b -> ranksBefore b c -> ranksBefore a c) /\
  (forall a b : Player, p_name a <> p_name b -> ranksBefore a b \/ ranksBefore b a).
Proof.
  split; [exact ranksBefore_keyBefore |].
  split; [exact compare_zero_sameKey |].
  split; [exact compare_flip |].
  split; [| split].
  - intros a. unfold ranksBefore.
    pose proof (proj2 (compare_zero_sameKey a a)) as H.
    rewrite H by (repeat split). lia.
  - intros a b c. rewrite !ranksBefore_keyBefore. unfold keyBefore, String.ltb.
    intros Hab Hbc.
    destruct (String.compare (p_name a) (p_name b)) eqn:Eab;
      destruct (String.compare (p_name b) (p_name c)) eqn:Ebc;
      try rewrite (string_compare_lt_trans _ _ _ Eab Ebc);
      intuition (try discriminate; try lia).
  - intros a b Hne. unfold ranksBefore.
    pose proof (compare_flip a b) as Hflip.
    pose proof (compare_zero_sameKey a b) as Hz.
    destruct (Z.eq_dec (comparePlayersByLeague a b) 0) as [E | NE].
    + exfalso. apply Hne. apply Hz in E. apply E.
    + lia.
Qed.

(** Ties at every level, and the case of the letters: upper case comes
    first. *)
Example comparePlayersByLeague_examples :
  (comparePlayersByLeague (mkPlayer "x" "T" (mkLeague 9 0 0 0))
                          (mkPlayer "a" "T" (mkLeague 8 7 0 7)) < 0) /\
  (comparePlayersByLeague (mkPlayer "x" "T" (mkLeague 9 3 0 (-5)))
                          (mkPlayer "a" "T" (mkLeague 9 2 0 7)) < 0) /\
  (comparePlayersByLeague (mkPlayer "x" "T" (mkLeague 9 3 1 (-5)))
                          (mkPlayer "a" "T" (mkLeague 9 3 0 (-6))) < 0) /\
  (comparePlayersByLeague (mkPlayer "Zed" "T" (mkLeague 9 3 1 2))
                          (mkPlayer "amy" "T" (mkLeague 9 3 0 2)) < 0) /\
  (comparePlayersByLeague (mkPlayer "amy" "T" (mkLeague 9 3 1 2))
                          (mkPlayer "amz" "T" (mkLeague 9 3 0 2)) < 0).
Proof. repeat split. Qed.

(** ** Opponent recording *)

Lemma applyScore_opps h a b sa sb isSwiss last t :
  opps (swiss (fst (applyScore h a b sa sb isSwiss last) t)) = opps (swiss (h t)).
Proof. rewrite applyScore_at. destruct isSwiss; reflexivity. Qed.

Lemma applyScore_name h a b sa sb isSwiss last t :
  name (fst (applyScore h a b sa sb isSwiss last) t) = name (h t).
Proof. rewrite applyScore_at. destruct isSwiss; reflexivity. Qed.

Lemma notifyCompletion_swiss s : notifyCompletion true s = s.
Proof. reflexivity. Qed.

Lemma recordScore_spec m s sa sb :
  let r := recordScore m s sa sb in
  snd r = Some (sa, sb) /\
  pending (fst r) = (if done m then pending s else pending s - 1) /\
  (forall t, oppsOf (fst r) t = oppsOf s t) /\
  (forall t, nameOf (fst r) t = nameOf s t).
Proof.
  unfold recordScore, oppsOf, nameOf.
  destruct (applyScore _ _ _ _ _ _ _) as [h res] eqn:E.
  cbn [fst snd setHeap heap pending].
  assert (Eh : h = fst (applyScore (heap (if done m then s else decrementPending s))
                                   (m_a m) (m_b m) sa sb (m_isSwiss m) (lastResult m)))
    by (rewrite E; reflexivity).
  assert (Er : res = Some (sa, sb)) by (unfold applyScore in E; congruence).
  repeat split.
  - exact Er.
  - destruct (done m); reflexivity.
  - intros t. rewrite Eh, applyScore_opps. destruct (done m); reflexivity.
  - intros t. rewrite Eh, applyScore_name. destruct (done m); reflexivity.
Qed.

(** C1, where the code departs from the claim: when the first successful
    submission of a Swiss match is the admin override (here with 11 to 3),
    the match is done, [pending] has gone down by one, the result is
    stored and the submit button is disabled, yet no opponent has been
    recorded: the opponents list of every team is what it was. *)
Theorem admin_first_records_no_opponent (s : World) (a b : ref) :
  let ms := run [Admin (Some (Some 11)) (Some (Some 3))] (makeMatch a b true, s) in
  done (fst ms) = true /\
  lastResult (fst ms) = Some (11, 3) /\
  pending (snd ms) = pending s - 1 /\
  submitDisabled (fst ms) = true /\
  oppsRecorded (fst ms) = false /\
  forall t : ref, opps (swiss (heap (snd ms) t)) = opps (swiss (heap s t)).
Proof.
  cbn [run fold_left handle fst snd adminOnclick].
  change (isValidScore (parseIntResult (Some 11)) (parseIntResult (Some 3))) with true.
  cbn [negb].
  pose proof (recordScore_spec (makeMatch a b true) s 11 3) as H.
  destruct (recordScore (makeMatch a b true) s 11 3) as [s1 res].
  cbn [fst snd] in *. destruct H as (-> & Hp & Ho & _).
  cbn [makeMatch done] in Hp.
  repeat split; try assumption; intros t; apply (Ho t).
Qed.

(** The same first submission through the submit button records each
    team in the other's list. *)
Lemma submit_first_records_opponents (s : World) (a b : ref) :
  a <> b ->
  let ms := run [Submit (Some 11) (Some 3)] (makeMatch a b true, s) in
  oppsRecorded (fst ms) = true /\
  oppsOf (snd ms) a = oppsOf s a ++ [nameOf s b] /\
  oppsOf (snd ms) b = oppsOf s b ++ [nameOf s a].
Proof.
  intros Hab.
  cbn [run fold_left handle fst snd]. unfold submitOnclick.
  change (isValidScore (parseIntResult (Some 11)) (parseIntResult (Some 3))) with true.
  cbn [negb].
  pose proof (recordScore_spec (makeMatch a b true) s 11 3) as H.
  destruct (recordScore (makeMatch a b true) s 11 3) as [s1 res].
  cbn [fst snd] in *. destruct H as (_ & _ & Ho & Hn).
  cbn [makeMatch m_isSwiss oppsRecorded negb andb m_a m_b fst snd].
  rewrite notifyCompletion_swiss.
  unfold oppsOf, nameOf in *. cbn [heap setHeap]. rewrite !upd_at, !Nat.eqb_refl.
  destruct (Nat.eqb_spec a b) as [? | _]; [contradiction |].
  destruct (Nat.eqb_spec b a) as [? | _]; [congruence |].
  cbn [pushOpp swiss opps name]. rewrite !Ho, !Hn. repeat split.
Qed.

Lemma handle_step (e : Event) (m : Match) (s : World) :
  m_isSwiss m = true -> m_a m <> m_b m ->
  let ms' := handle e (m, s) in
  m_a (fst ms') = m_a m /\ m_b (fst ms') = m_b m /\ m_isSwiss (fst ms') = true /\
  (forall t, nameOf (snd ms') t = nameOf s t) /\
  oppsRecorded (fst ms') = oppsRecorded m || validSubmit e /\
  (forall t, oppsOf (snd ms') t =
             oppsOf s t ++ (if negb (oppsRecorded m) && validSubmit e
                            then entryFor m s t else [])).
Proof.
  intros Hsw Hab.
  assert (Hid : forall t, oppsOf s t = oppsOf s t ++ []) by (intros; now rewrite app_nil_r).
  destruct e as [vA vB | sa sb]; cbn [handle fst snd validSubmit].
  - unfold submitOnclick.
    destruct (isValidScore (parseIntResult vA) (parseIntResult vB)) eqn:Ev; cbn [negb].
    2:{ cbn [fst snd]. rewrite orb_false_r, andb_false_r. repeat split; auto. }
    destruct vA as [scoreA |], vB as [scoreB |]; try discriminate Ev.
    pose proof (recordScore_spec m s scoreA scoreB) as H.
    destruct (recordScore m s scoreA scoreB) as [s1 res].
    cbn [fst snd] in *. destruct H as (_ & _ & Ho & Hn).
    rewrite Hsw, notifyCompletion_swiss. cbn [andb fst snd m_a m_b m_isSwiss oppsRecorded].
    rewrite orb_true_r, andb_true_r.
    destruct (oppsRecorded m); cbn [negb].
    + repeat split; auto. intros t. rewrite Ho. apply Hid.
    + repeat split.
      * intros t. unfold nameOf in *. cbn [heap setHeap]. rewrite !upd_at.
        destruct (Nat.eqb t (m_b m)), (Nat.eqb t (m_a m)); cbn [pushOpp name]; apply Hn.
      * intros t. unfold oppsOf, nameOf, entryFor in *. cbn [heap setHeap].
        rewrite !upd_at, !Nat.eqb_refl.
        destruct (Nat.eqb_spec (m_a m) (m_b m)) as [? | _]; [contradiction |].
        destruct (Nat.eqb_spec t (m_b m)) as [Eb | Hb];
          destruct (Nat.eqb_spec t (m_a m)) as [Ea | Ha];
          try congruence;
          cbn [pushOpp swiss opps name];
          rewrite ?Ho, ?Hn, ?app_nil_r; reflexivity.
  - unfold adminOnclick. rewrite orb_false_r, andb_false_r.
    destruct sa as [vA |], sb as [vB |]; try (cbn [fst snd]; repeat split; auto; fail).
    destruct (isValidScore (parseIntResult vA) (parseIntResult vB)) eqn:Ev; cbn [negb].
    2:{ cbn [fst snd]. repeat split; auto. }
    destruct vA as [parsedA |], vB as [parsedB |]; try discriminate Ev.
    pose proof (recordScore_spec m s parsedA parsedB) as H.
    destruct (recordScore m s parsedA parsedB) as [s1 res].
    cbn [fst snd] in *. destruct H as (_ & _ & Ho & Hn).
    rewrite Hsw, notifyCompletion_swiss. cbn [m_a m_b m_isSwiss oppsRecorded].
    repeat split; auto. intros t. rewrite Ho. apply Hid.
Qed.

(** The part of C1 that holds on every run of events over a Swiss match of
    two different teams: the opponents list of a team grows by at most
    the one entry of this match, and it grows exactly when one of the
    events is a valid submission through the submit button; resubmissions
    and overrides after it add nothing. *)
Lemma run_records_at_most_once (es : list Event) : forall (m : Match) (s : World),
  m_isSwiss m = true -> m_a m <> m_b m ->
  let ms' := run es (m, s) in
  let hit := negb (oppsRecorded m) && existsb validSubmit es in
  oppsRecorded (fst ms') = oppsRecorded m || existsb validSubmit es /\
  forall t, oppsOf (snd ms') t = oppsOf s t ++ (if hit then entryFor m s t else []).
Proof.
  induction es as [| e es IH]; intros m s Hsw Hab; cbn [run fold_left existsb fst snd].
  - rewrite orb_false_r, andb_false_r. split; [reflexivity |].
    intros t. now rewrite app_nil_r.
  - destruct (handle_step e m s Hsw Hab) as (Ha & Hb & Hsw' & Hn & Hrec & Ho).
    destruct (handle e (m, s)) as [m1 s1]. cbn [fst snd] in *.
    assert (Hab1 : m_a m1 <> m_b m1) by congruence.
    destruct (IH m1 s1 Hsw' Hab1) as (Hrec' & Ho').
    fold (run es (m1, s1)). split.
    + rewrite Hrec', Hrec. now rewrite orb_assoc.
    + intros t. rewrite Ho', Ho, Hrec.
      assert (He : entryFor m1 s1 t = entryFor m s t)
        by (unfold entryFor; rewrite Ha, Hb, !Hn; reflexivity).
      rewrite He.
      destruct (oppsRecorded m), (validSubmit e), (existsb validSubmit es);
        cbn [negb andb orb]; rewrite ?app_nil_r; reflexivity.
Qed.

(** ** The pairing engine *)

Lemma flatPairs_app M1 M2 : flatPairs (M1 ++ M2) = flatPairs M1 ++ flatPairs M2.
Proof. unfold flatPairs. apply flat_map_app. Qed.

Lemma flatPairs_length M : length (flatPairs M) = (2 * length M)%nat.
Proof.
  unfold flatPairs. induction M as [| p M IH]; cbn [flat_map length app]; [reflexivity |].
  rewrite IH. lia.
Qed.

Section Backtrack.

Variable h : Heap.
Variable pool : list ref.

Local Abbreviation poolSet := (list_to_set (C := gset nat) pool).

Lemma tryPartners_restores rec a bs : restores rec ->
  forall used result u r,
    tryPartners h rec a bs used result = Some (false, u, r) ->
    u = used ∖ {[a]} /\ r = result.
Proof.
  intros Hrec. induction bs as [| b bs IH]; intros used result u r; cbn [tryPartners].
  - intros [= <- <-]. split; reflexivity.
  - destruct (bool_decide (b ∈ used)) eqn:Eb; cbn [orb]; [apply IH |].
    destruct (includesOpp h a b); [apply IH |].
    apply bool_decide_eq_false in Eb.
    destruct (rec ({[b]} ∪ used) (result ++ [(a, b)])) as [[[[] u1] r1] |] eqn:E;
      try discriminate.
    destruct (Hrec _ _ _ _ E) as [-> ->].
    rewrite removelast_last.
    replace (({[b]} ∪ used) ∖ {[b]}) with used by set_solver.
    apply IH.
Qed.

Lemma find_unused_Some (used : gset ref) (a : ref) :
  List.find (fun t => negb (bool_decide (t ∈ used))) pool = Some a ->
  a ∈ pool /\ a ∉ used.
Proof.
  intros H. apply find_some in H as [Hin Hb]. split.
  - apply list_elem_of_In. exact Hin.
  - apply negb_true_iff, bool_decide_eq_false in Hb. exact Hb.
Qed.

Lemma find_unused_None (used : gset ref) :
  List.find (fun t => negb (bool_decide (t ∈ used))) pool = None ->
  poolSet ⊆ used.
Proof.
  intros H x Hx. apply elem_of_list_to_set, list_elem_of_In in Hx.
  pose proof (find_none _ _ H x Hx) as Hb. cbn in Hb.
  apply negb_false_iff, bool_decide_eq_true in Hb. exact Hb.
Qed.

Lemma backtrack_restores fuel : restores (backtrack h pool fuel).
Proof.
  induction fuel as [| fuel IH]; intros used result u r; cbn [backtrack];
    [discriminate |].
  destruct (bool_decide (size used = length pool)); [discriminate |].
  destruct (List.find _ pool) as [a |] eqn:Ef.
  - intros H. apply (tryPartners_restores _ _ _ IH) in H as [-> ->].
    apply find_unused_Some in Ef as [_ Ha]. split; [set_solver | reflexivity].
  - intros [= <- <-]. split; reflexivity.
Qed.

Lemma tryPartners_true rec a bs : restores rec ->
  forall used result u r,
    tryPartners h rec a bs used result = Some (true, u, r) ->
    exists b, (b ∈ bs) /\ (b ∉ used) /\ includesOpp h a b = false /\
              rec ({[b]} ∪ used) (result ++ [(a, b)]) = Some (true, u, r).
Proof.
  intros Hrec. induction bs as [| b bs IH]; intros used result u r; cbn [tryPartners];
    [discriminate |].
  assert (Hnext : tryPartners h rec a bs used result = Some (true, u, r) ->
                  exists b0, (b0 ∈ b :: bs) /\ (b0 ∉ used) /\ includesOpp h a b0 = false /\
                             rec ({[b0]} ∪ used) (result ++ [(a, b0)]) = Some (true, u, r)).
  { intros H. destruct (IH _ _ _ _ H) as (b0 & ? & ?). exists b0. split; [by right | done]. }
  destruct (bool_decide (b ∈ used)) eqn:Eb; cbn [orb]; [exact Hnext |].
  destruct (includesOpp h a b) eqn:Ei; [exact Hnext |].
  apply bool_decide_eq_false in Eb.
  destruct (rec ({[b]} ∪ used) (result ++ [(a, b)])) as [[[[] u1] r1] |] eqn:E;
    try discriminate.
  - intros [= <- <-]. exists b. split; [by left | done].
  - destruct (Hrec _ _ _ _ E) as [-> ->].
    rewrite removelast_last.
    replace (({[b]} ∪ used) ∖ {[b]}) with used by set_solver.
    exact Hnext.
Qed.

Lemma backtrack_true fuel : forall used result u r,
  backtrack h pool fuel used result = Some (true, u, r) -> extends h pool used result u r.
Proof.
  induction fuel as [| fuel IH]; intros used result u r; cbn [backtrack];
    [discriminate |].
  destruct (bool_decide (size used = length pool)) eqn:Es.
  - intros [= <- <-]. apply bool_decide_eq_true in Es.
    exists []. unfold flatPairs; cbn [flat_map]. rewrite app_nil_r.
    split; [reflexivity |]. split; [set_solver |]. split; [constructor |].
    split; [intros x Hx; inversion Hx |]. split; [constructor | exact Es].
  - destruct (List.find _ pool) as [a |] eqn:Ef; [| discriminate].
    apply find_unused_Some in Ef as [Hap Hau].
    intros H.
    apply (tryPartners_true _ _ _ (backtrack_restores fuel)) in H
      as (b & Hbp & Hbu & Hchk & H).
    apply IH in H as (new & -> & -> & Hnd & Hin & Hall & Hsz).
    exists ((a, b) :: new).
    change (flatPairs ((a, b) :: new)) with (a :: b :: flatPairs new).
    split; [rewrite <- app_assoc; reflexivity |].
    split; [set_solver |].
    split.
    { apply NoDup_cons. split.
      - intros Hx. apply elem_of_cons in Hx as [-> | Hx]; [set_solver |].
        apply Hin in Hx. set_solver.
      - apply NoDup_cons. split; [| exact Hnd].
        intros Hx. apply Hin in Hx. set_solver. }
    split.
    { intros x Hx. apply elem_of_cons in Hx as [-> | Hx].
      { split; assumption. }
      apply elem_of_cons in Hx as [-> | Hx].
      { split; [assumption |].
        intros Hc. apply Hbu, elem_of_union. right. exact Hc. }
      apply Hin in Hx as [Hxp Hxu]. split; [assumption |].
      intros Hc. apply Hxu. apply elem_of_union. right. apply elem_of_union. right. exact Hc. }
    split.
    { apply Forall_cons. split; [exact Hchk | exact Hall]. }
    rewrite <- Hsz. f_equal; set_solver.
Qed.

End Backtrack.

Lemma size_list_to_set_le (xs : list ref) :
  (size (list_to_set (C := gset nat) xs) <= length xs)%nat.
Proof.
  induction xs as [| x xs IH]; cbn [list_to_set length].
  - rewrite size_empty. lia.
  - rewrite size_union_alt, size_singleton.
    assert (Hsub : list_to_set (C := gset nat) xs ∖ {[x]} ⊆ list_to_set xs) by set_solver.
    pose proof (subseteq_size _ _ Hsub). lia.
Qed.

Section Search.

Variable h : Heap.
Variable pool : list ref.

Local Abbreviation poolSet := (list_to_set (C := gset nat) pool).

(** Taking two unused teams of the pool leaves two fewer. *)
Lemma unused_after_pair (used : gset ref) (a b : ref) (n : nat) :
  a ∈ pool -> b ∈ pool -> a ∉ used -> b ∉ used -> a <> b ->
  (size (poolSet ∖ used) < 2 * S n)%nat ->
  (size (poolSet ∖ ({[b]} ∪ ({[a]} ∪ used))) < 2 * n)%nat.
Proof.
  intros Ha Hb Hau Hbu Hab Hsz.
  replace (poolSet ∖ ({[b]} ∪ ({[a]} ∪ used)))
    with ((poolSet ∖ used) ∖ ({[a]} ∪ {[b]})) by set_solver.
  assert (E : size ({[a]} ∪ {[b]} : gset ref) = 2%nat).
  { rewrite size_union by set_solver. rewrite !size_singleton. reflexivity. }
  assert (Hsub : ({[a]} ∪ {[b]} : gset ref) ⊆ poolSet ∖ used) by set_solver.
  pose proof (subseteq_size _ _ Hsub) as Hle. rewrite E in Hle.
  rewrite size_difference by exact Hsub. rewrite E. lia.
Qed.

(** The fuel is enough: a call with fewer than [2 * fuel] unused teams
    returns. *)
Lemma backtrack_total fuel : forall used result,
  (size (poolSet ∖ used) < 2 * fuel)%nat ->
  is_Some (backtrack h pool fuel used result).
Proof.
  induction fuel as [| fuel IH]; intros used result Hsz; [lia |].
  cbn [backtrack].
  destruct (bool_decide (size used = length pool)); [eauto |].
  destruct (List.find _ pool) as [a |] eqn:Ef; [| eauto].
  apply find_unused_Some in Ef as [Hap Hau].
  assert (Hloop : forall bs, (forall b, b ∈ bs -> b ∈ pool) ->
            is_Some (tryPartners h (backtrack h pool fuel) a bs ({[a]} ∪ used) result)).
  { induction bs as [| b bs IHbs]; intros Hbs; cbn [tryPartners]; [eauto |].
    assert (Hbs' : forall b0, b0 ∈ bs -> b0 ∈ pool) by (intros; apply Hbs; by right).
    destruct (bool_decide (b ∈ {[a]} ∪ used)) eqn:Eb; cbn [orb]; [auto |].
    destruct (includesOpp h a b); [auto |].
    apply bool_decide_eq_false in Eb.
    destruct (IH ({[b]} ∪ ({[a]} ∪ used)) (result ++ [(a, b)])) as [[[ok u] r] E].
    { apply unused_after_pair; try assumption; [apply Hbs; by left | set_solver..]. }
    rewrite E. destruct ok; [eauto |].
    destruct (backtrack_restores h pool fuel _ _ _ _ E) as [-> ->].
    rewrite removelast_last.
    replace (({[b]} ∪ ({[a]} ∪ used)) ∖ {[b]}) with ({[a]} ∪ used) by set_solver.
    auto. }
  apply Hloop. auto.
Qed.

Lemma backtrack_enough_fuel :
  is_Some (backtrack h pool (S (length pool)) ∅ []).
Proof.
  apply backtrack_total.
  replace (poolSet ∖ ∅) with poolSet by set_solver.
  pose proof (size_list_to_set_le pool). lia.
Qed.

Lemma matchesUnused_partner used M a :
  matchesUnused h pool used M -> a ∈ pool -> a ∉ used ->
  exists c M',
    (c ∈ pool) /\ (c ∉ used) /\ c <> a /\
    includesOpp h a c = false /\
    matchesUnused h pool ({[c]} ∪ ({[a]} ∪ used)) M' /\
    length M = S (length M').
Proof.
  intros (Hnd & Hset & Hall) Hap Hau.
  assert (Ha : a ∈ flatPairs M).
  { apply (elem_of_list_to_set (C := gset ref)). rewrite Hset. set_solver. }
  unfold flatPairs in Ha. apply list_elem_of_In, in_flat_map in Ha as ([x y] & Hp & Hxy).
  apply list_elem_of_In, list_elem_of_split in Hp as (M1 & M2 & ->).
  rewrite flatPairs_app in Hnd, Hset. cbn [flatPairs flat_map fst snd app] in Hnd, Hset.
  fold (flatPairs M2) in Hnd, Hset.
  apply NoDup_app in Hnd as (Hnd1 & Hdisj & Hnd2).
  apply NoDup_cons in Hnd2 as (Hx & Hnd2). apply NoDup_cons in Hnd2 as (Hy & Hnd2).
  apply Forall_app in Hall as (Hall1 & Hall2).
  apply Forall_cons in Hall2 as ((Hxy1 & Hyx1) & Hall2). cbn [fst snd] in Hxy1, Hyx1.
  assert (Hx1 : x ∉ flatPairs M1) by (intros Hc; apply (Hdisj _ Hc); by left).
  assert (Hy1 : y ∉ flatPairs M1) by (intros Hc; apply (Hdisj _ Hc); right; by left).
  assert (Hneq : x <> y) by (intros ->; apply Hx; by left).
  assert (Hy2 : y ∉ flatPairs M2) by exact Hy.
  assert (Hx2 : x ∉ flatPairs M2) by (intros Hc; apply Hx; by right).
  assert (Hrest : matchesUnused h pool ({[x]} ∪ ({[y]} ∪ used)) (M1 ++ M2)).
  { repeat split.
    - rewrite flatPairs_app. apply NoDup_app. repeat split; try assumption.
      intros z Hz1 Hz2. apply (Hdisj _ Hz1). right. by right.
    - rewrite flatPairs_app. apply set_eq. intros z.
      assert (Hz : z ∈ (list_to_set (flatPairs M1 ++ x :: y :: flatPairs M2) : gset ref)
                   <-> z ∈ poolSet ∖ used) by (rewrite Hset; reflexivity).
      rewrite list_to_set_app, elem_of_union, !elem_of_list_to_set in Hz.
      rewrite list_to_set_app, elem_of_union, !elem_of_list_to_set.
      rewrite !elem_of_cons in Hz.
      rewrite elem_of_difference, !elem_of_union, !elem_of_singleton.
      rewrite elem_of_difference in Hz.
      split.
      + intros Hz'. split; [apply Hz; tauto |].
        intros [-> | [-> | Hu]]; [tauto | tauto |].
        assert (z ∈ poolSet /\ z ∉ used) by (apply Hz; tauto). tauto.
      + intros [Hzp Hzn]. destruct (proj2 Hz) as [? | [-> | [-> | ?]]]; try tauto.
    - apply Forall_app. split; assumption. }
  assert (Hlen : length (M1 ++ (x, y) :: M2) = S (length (M1 ++ M2)))
    by (rewrite !length_app; cbn; lia).
  assert (Hin : forall z, z = x \/ z = y -> z ∈ pool /\ z ∉ used).
  { intros z Hz.
    assert (Hz' : z ∈ poolSet ∖ used).
    { rewrite <- Hset, list_to_set_app, elem_of_union, !elem_of_list_to_set.
      right. destruct Hz as [-> | ->]; [by left | right; by left]. }
    apply elem_of_difference in Hz' as [Hz1 Hz2].
    apply elem_of_list_to_set in Hz1. tauto. }
  cbn [fst snd] in Hxy. destruct Hxy as [<- | [<- | []]].
  - exists y, (M1 ++ M2). destruct (Hin y) as [? ?]; [tauto |].
    repeat split; try assumption; try apply Hrest; [congruence |].
    replace ({[y]} ∪ ({[x]} ∪ used)) with ({[x]} ∪ ({[y]} ∪ used) : gset ref)
      by set_solver.
    apply Hrest.
  - exists x, (M1 ++ M2). destruct (Hin x) as [? ?]; [tauto |].
    repeat split; try assumption; apply Hrest.
Qed.

(** Where the unused teams can be matched without a rematch, the search
    succeeds. *)
Lemma backtrack_complete fuel : forall M used result,
  NoDup pool -> used ⊆ poolSet -> matchesUnused h pool used M ->
  (length M < fuel)%nat ->
  exists u r, backtrack h pool fuel used result = Some (true, u, r).
Proof.
  induction fuel as [| fuel IH]; intros M used result Hpool Hsub HM Hlen; [lia |].
  cbn [backtrack].
  destruct (bool_decide (size used = length pool)) eqn:Es; [eauto |].
  apply bool_decide_eq_false in Es.
  destruct (List.find _ pool) as [a |] eqn:Ef.
  2:{ exfalso. apply Es. apply find_unused_None in Ef.
      assert (E : used = poolSet) by set_solver.
      rewrite E. apply size_list_to_set. exact Hpool. }
  apply find_unused_Some in Ef as [Hap Hau].
  destruct (matchesUnused_partner used M a HM Hap Hau)
    as (c & M' & Hcp & Hcu & Hca & Hchk & HM' & HlenM).
  assert (Hsz : (size (poolSet ∖ used) < 2 * S fuel)%nat).
  { destruct HM as (Hnd & Hset & _). rewrite <- Hset.
    rewrite size_list_to_set by exact Hnd. rewrite flatPairs_length. lia. }
  assert (Hloop : forall bs, c ∈ bs -> (forall b, b ∈ bs -> b ∈ pool) ->
            exists u r, tryPartners h (backtrack h pool fuel) a bs ({[a]} ∪ used) result
                        = Some (true, u, r)).
  { induction bs as [| b bs IHbs]; intros Hc Hbs; [inversion Hc |].
    assert (Hbs' : forall b0, b0 ∈ bs -> b0 ∈ pool) by (intros; apply Hbs; by right).
    cbn [tryPartners].
    destruct (bool_decide (b ∈ {[a]} ∪ used)) eqn:Eb; cbn [orb].
    { apply bool_decide_eq_true in Eb.
      apply elem_of_cons in Hc as [-> | Hc]; [set_solver | auto]. }
    apply bool_decide_eq_false in Eb.
    destruct (includesOpp h a b) eqn:Ei.
    { apply elem_of_cons in Hc as [-> | Hc]; [congruence | auto]. }
    destruct (decide (b = c)) as [-> | Hbc].
    - destruct (IH M' ({[c]} ∪ ({[a]} ∪ used)) (result ++ [(a, c)])) as (u & r & E);
        [exact Hpool | | exact HM' | lia |].
      + intros z Hz. apply elem_of_list_to_set.
        apply elem_of_union in Hz as [Hz | Hz];
          [apply elem_of_singleton in Hz as ->; exact Hcp |].
        apply elem_of_union in Hz as [Hz | Hz];
          [apply elem_of_singleton in Hz as ->; exact Hap |].
        apply (proj1 (elem_of_list_to_set (C := gset nat) z pool)). apply Hsub. exact Hz.
      + rewrite E. eauto.
    - destruct (backtrack_total fuel ({[b]} ∪ ({[a]} ∪ used)) (result ++ [(a, b)]))
        as [[[ok u] r] E].
      { apply unused_after_pair; try assumption; [apply Hbs; by left | set_solver..]. }
      rewrite E. destruct ok; [eauto |].
      destruct (backtrack_restores h pool fuel _ _ _ _ E) as [-> ->].
      rewrite removelast_last.
      replace (({[b]} ∪ ({[a]} ∪ used)) ∖ {[b]}) with ({[a]} ∪ used) by set_solver.
      apply elem_of_cons in Hc as [-> | Hc]; [contradiction | auto]. }
  apply Hloop; auto.
Qed.

End Search.

Lemma extends_perfect h pool u r :
  extends h pool ∅ [] u r -> perfectMatching pool r /\ Forall (passesCheck h) r.
Proof.
  intros (new & Hr & Hu & Hnd & Hin & Hall & Hsz). cbn [app] in Hr. subst r.
  split; [| exact Hall]. split; [exact Hnd |].
  apply submseteq_length_Permutation.
  - apply NoDup_submseteq; [exact Hnd |]. intros x Hx. apply (Hin x Hx).
  - rewrite <- Hsz, Hu.
    replace (list_to_set (flatPairs new) ∪ ∅) with (list_to_set (C := gset nat) (flatPairs new))
      by set_solver.
    rewrite size_list_to_set by exact Hnd. lia.
Qed.

(** What [swissPair] returns: nothing, or a perfect matching of the pool
    whose pairs pass the check of the search. *)
Lemma swissPair_cases (h : Heap) (pool : list ref) :
  swissPair h pool = [] \/
  (perfectMatching pool (swissPair h pool) /\ Forall (passesCheck h) (swissPair h pool)).
Proof.
  unfold swissPair. destruct (length pool <? 2)%nat; [left; reflexivity |].
  destruct (backtrack_enough_fuel h pool) as [[[ok u] r] E]. rewrite E.
  destruct ok.
  - right. apply (extends_perfect h pool u r). apply (backtrack_true _ _ _ _ _ _ _ E).
  - left. apply (backtrack_restores _ _ _ _ _ _ _ E).
Qed.

Lemma perfectMatching_even pool M : perfectMatching pool M -> length pool = (2 * length M)%nat.
Proof. intros [_ Hp]. rewrite <- (Permutation_length Hp). apply flatPairs_length. Qed.

Lemma swissPair_complete (h : Heap) (pool : list ref) (M : Pairing) :
  perfectMatching pool M -> Forall (neverMet h) M ->
  perfectMatching pool (swissPair h pool) /\ Forall (passesCheck h) (swissPair h pool).
Proof.
  intros HM Hall. pose proof (perfectMatching_even _ _ HM) as Hlen.
  destruct HM as [Hnd Hperm].
  assert (Hpool : NoDup pool) by (rewrite <- Hperm; exact Hnd).
  unfold swissPair. destruct (Nat.ltb_spec (length pool) 2) as [Hlt | Hge].
  - destruct M as [| p M]; [| cbn [length] in Hlen; lia].
    cbn in Hperm. apply Permutation_nil in Hperm. subst pool.
    split; [split; [constructor | reflexivity] | constructor].
  - destruct (backtrack_complete h pool (S (length pool)) M ∅ []) as (u & r & E).
    + exact Hpool.
    + set_solver.
    + split; [exact Hnd |]. split; [| exact Hall].
      replace (list_to_set pool ∖ ∅) with (list_to_set (C := gset nat) pool) by set_solver.
      apply list_to_set_perm_L. exact Hperm.
    + lia.
    + rewrite E. apply (extends_perfect h pool u r).
      apply (backtrack_true _ _ _ _ _ _ _ E).
Qed.

Lemma passesCheck_not_both h p : passesCheck h p -> ~ inEachOthersOpps h p.
Proof.
  unfold passesCheck, inEachOthersOpps, includesOpp. intros Hc [Hin _].
  apply bool_decide_eq_false in Hc. contradiction.
Qed.

(** C5: when the pool has a perfect matching in which no two paired teams
    have met (neither is in the other's opponents list), [swissPair]
    returns disjoint pairs that cover the pool, and of no returned pair
    are the two teams in each other's opponents lists: the second is not
    in the list of the first. *)
Theorem swissPair_finds_rematch_free_matching (h : Heap) (pool : list ref) (M : Pairing) :
  perfectMatching pool M -> Forall (neverMet h) M ->
  perfectMatching pool (swissPair h pool) /\
  Forall (fun p => ~ inEachOthersOpps h p) (swissPair h pool) /\
  Forall (passesCheck h) (swissPair h pool).
Proof.
  intros HM Hall. destruct (swissPair_complete h pool M HM Hall) as [Hp Hc].
  split; [exact Hp |]. split; [| exact Hc].
  eapply Forall_impl; [exact Hc |]. intros p. apply passesCheck_not_both.
Qed.

(** C10: [swissPair] returns the empty list or a perfect matching of the
    whole pool whose pairs pass the check of the search, never a part of
    one: the search returns within its fuel, and a failed search has popped
    every pair it pushed. In particular the result is empty when no
    perfect matching passes the check (with opponents lists that agree:
    when no perfect matching is free of rematches), when the pool has an
    odd number of teams, and when it has fewer than two. *)
Theorem swissPair_all_or_nothing (h : Heap) (pool : list ref) :
  is_Some (backtrack h pool (S (length pool)) ∅ []) /\
  (forall fuel used result u r,
     backtrack h pool fuel used result = Some (false, u, r) -> u = used /\ r = result) /\
  (swissPair h pool = [] \/
   (perfectMatching pool (swissPair h pool) /\ Forall (passesCheck h) (swissPair h pool))) /\
  ((forall M, perfectMatching pool M -> ~ Forall (passesCheck h) M) ->
   swissPair h pool = []) /\
  (oppsSymmetric h pool ->
   (forall M, perfectMatching pool M -> ~ Forall (neverMet h) M) ->
   swissPair h pool = []) /\
  (Nat.Odd (length pool) -> swissPair h pool = []) /\
  ((length pool < 2)%nat -> swissPair h pool = []).
Proof.
  pose proof (swissPair_cases h pool) as Hcases.
  split; [apply backtrack_enough_fuel |].
  split; [intros fuel; apply backtrack_restores |]. split; [exact Hcases |].
  split; [| split; [| split]].
  - intros Hno. destruct Hcases as [E | [Hp Hc]]; [exact E |].
    exfalso. exact (Hno _ Hp Hc).
  - intros Hsym Hno. destruct Hcases as [E | [Hp Hc]]; [exact E |].
    exfalso. apply (Hno _ Hp).
    apply Forall_forall. intros [x y] Hxy. split; [| rewrite <- Hsym].
    + apply (proj1 (Forall_forall _ _) Hc _ Hxy).
    + apply (proj1 (Forall_forall _ _) Hc _ Hxy).
    + destruct Hp as [_ Hperm]. rewrite <- Hperm.
      apply list_elem_of_In, in_flat_map. exists (x, y).
      split; [apply list_elem_of_In; exact Hxy | left; reflexivity].
    + destruct Hp as [_ Hperm]. rewrite <- Hperm.
      apply list_elem_of_In, in_flat_map. exists (x, y).
      split; [apply list_elem_of_In; exact Hxy | right; left; reflexivity].
  - intros [k Hk]. destruct Hcases as [E | [Hp _]]; [exact E |].
    apply perfectMatching_even in Hp. lia.
  - intros Hlt. unfold swissPair.
    destruct (Nat.ltb_spec (length pool) 2); [reflexivity | lia].
Qed.

Example swissPair_backtracks :
  swissPair poolHeap [0; 1; 2; 3]%nat = [(0, 3); (1, 2)]%nat.
Proof. vm_compute. reflexivity. Qed.

(** Pools without a matching that passes the check: three teams, two teams
    that have met, the same team twice. *)
Example swissPair_gives_up :
  swissPair poolHeap [0; 1; 3]%nat = [] /\
  swissPair poolHeap [2; 3]%nat = [] /\
  swissPair poolHeap [1; 1]%nat = [].
Proof. vm_compute. repeat split. Qed.

Lemma poolHeap_matching :
  perfectMatching [0; 1; 2; 3]%nat [(0, 3); (1, 2)]%nat /\
  Forall (neverMet poolHeap) [(0, 3); (1, 2)]%nat.
Proof.
  split; [split |].
  - apply (bool_decide_unpack _). vm_compute. exact I.
  - unfold flatPairs. cbn [flat_map fst snd app].
    constructor. apply (Permutation_cons_append [1; 2]%nat 3%nat).
  - repeat constructor.
Qed.

Lemma swissPair_finds_witness :
  perfectMatching [0; 1; 2; 3]%nat [(0, 3); (1, 2)]%nat /\
  Forall (neverMet poolHeap) [(0, 3); (1, 2)]%nat /\
  (perfectMatching [0; 1; 2; 3]%nat (swissPair poolHeap [0; 1; 2; 3]%nat) /\
   Forall (fun p => ~ inEachOthersOpps poolHeap p) (swissPair poolHeap [0; 1; 2; 3]%nat) /\
   Forall (passesCheck poolHeap) (swissPair poolHeap [0; 1; 2; 3]%nat)).
Proof.
  split; [apply poolHeap_matching |]. split; [apply poolHeap_matching |].
  apply (swissPair_finds_rematch_free_matching poolHeap [0; 1; 2; 3]%nat
                                               [(0, 3); (1, 2)]%nat);
    apply poolHeap_matching.
Defined.

(** ** A week from its start *)

(** Round 1 pairs the single pool of eight into four single games. *)
Example nextSwissRound_round1 :
  let s := nextSwissRound worldStart in
  swissRound s = 1 /\ pending s = 4 /\
  content s = [makeMatch 0 1 true; makeMatch 2 3 true;
               makeMatch 4 5 true; makeMatch 6 7 true]%nat.
Proof. vm_compute. repeat split. Qed.

(** The first match is submitted as 11-3, then corrected to 9-11 by the
    admin override: [pending] went down once, the records are those of
    9-11 alone and each team is in the other's list once. *)
Example submit_then_correct :
  let s := nextSwissRound worldStart in
  let ms := run [Submit (Some 11) (Some 3); Admin (Some (Some 9)) (Some (Some 11))]
                (makeMatch 0 1 true, s) in
  pending (snd ms) = 3 /\
  swiss (heap (snd ms) 0%nat) = mkSwiss (mkWld 0 1 (-2)) ["TB"] false /\
  swiss (heap (snd ms) 1%nat) = mkSwiss (mkWld 1 0 2) ["TA"] false /\
  lastResult (fst ms) = Some (9, 11).
Proof. vm_compute. repeat split. Qed.

(** Round 2 after four decided games: the 1-0 pool and the 0-1 pool are
    paired apart, in the order the pools were first met. *)
Example nextSwissRound_round2 :
  let play ab s := snd (run [Submit (Some 11) (Some 5)] (makeMatch (fst ab) (snd ab) true, s)) in
  let s1 := fold_right play (nextSwissRound worldStart) [(0, 1); (2, 3); (4, 5); (6, 7)]%nat in
  let s2 := nextSwissRound s1 in
  pending s1 = 0 /\ swissRound s2 = 2 /\ pending s2 = 4 /\
  skipn 4 (content s2) = [makeMatch 0 2 true; makeMatch 4 6 true;
                          makeMatch 1 3 true; makeMatch 5 7 true]%nat.
Proof. vm_compute. repeat split. Qed.

(** * Further properties of the code *)

(** ** Score validation *)

Lemma isValidScore_numbers_sym (x y : Q) :
  isValidScore (JsNumber x) (JsNumber y) = true ->
  isValidScore (JsNumber y) (JsNumber x) = true.
Proof.
  rewrite !isValidScore_numbers. intros (Hx & Hy & Hm & Hd).
  repeat split; try tauto.
  - now rewrite Q.max_comm.
  - rewrite Qabs_Qminus. exact Hd.
Qed.

(** X1: [isValidScore] does not depend on the order of its two arguments,
    and a pair it accepts has a winner: one score is at least 11 and at
    least 2 above the other, so the two are never equal. *)
Theorem isValidScore_symmetric_decisive :
  (forall a b : JsValue, isValidScore a b = isValidScore b a) /\
  (forall x y : Q,
     isValidScore (JsNumber x) (JsNumber y) = true ->
     ((11 <= x)%Q /\ (y + 2 <= x)%Q) \/ ((11 <= y)%Q /\ (x + 2 <= y)%Q)).
Proof.
  split.
  - intros a b.
    destruct (isValidScore a b) eqn:E1, (isValidScore b a) eqn:E2; try reflexivity.
    + destruct (isValidScore_true_numbers _ _ E1) as (x & y & -> & ->).
      apply isValidScore_numbers_sym in E1. congruence.
    + destruct (isValidScore_true_numbers _ _ E2) as (x & y & -> & ->).
      apply isValidScore_numbers_sym in E2. congruence.
  - intros x y H. apply isValidScore_numbers in H.
    destruct H as (Hx & Hy & Hm & Hd).
    destruct (Qlt_le_dec x y) as [Hlt | Hle].
    + right. rewrite Q.max_r in Hm by lra. rewrite Qabs_neg in Hd by lra. lra.
    + left. rewrite Q.max_l in Hm by lra. rewrite Qabs_pos in Hd by lra. lra.
Qed.

Lemma validScores_differ (e : Event) (x y : Z) :
  validScores e = Some (x, y) -> x <> y.
Proof.
  assert (H : forall a b, isValidScore (parseIntResult (Some a)) (parseIntResult (Some b)) = true
                          -> a <> b).
  { intros a b Hv. cbn [parseIntResult] in Hv. apply isValidScore_integers in Hv. lia. }
  destruct e as [[a |] [b |] | [[a |] |] [[b |] |]]; cbn [validScores]; try discriminate.
  all: destruct (isValidScore _ _) eqn:Ev; [| discriminate];
    intros [= <- <-]; now apply H.
Qed.

(** ** Runs of submissions and corrections on one element *)

Lemma phaseBlock_bump isSwiss d t :
  phaseBlock isSwiss (bump isSwiss d t) = plusWld (phaseBlock isSwiss t) d.
Proof. destruct isSwiss; reflexivity. Qed.

Lemma restOf_bump isSwiss d t : restOf isSwiss (bump isSwiss d t) = restOf isSwiss t.
Proof. destruct isSwiss; reflexivity. Qed.

Lemma phaseBlock_pushOpp isSwiss n t :
  phaseBlock isSwiss (pushOpp n t) = phaseBlock isSwiss t.
Proof. destruct isSwiss; reflexivity. Qed.

Lemma restOf_pushOpp isSwiss n t : restOf isSwiss (pushOpp n t) = restOf isSwiss t.
Proof. destruct isSwiss; reflexivity. Qed.

Lemma notifyCompletion_heap isSwiss s : heap (notifyCompletion isSwiss s) = heap s.
Proof.
  unfold notifyCompletion.
  destruct (negb isSwiss && (pending s =? 0)); [| reflexivity].
  destruct (onAllMatchesComplete s); reflexivity.
Qed.

Lemma notifyCompletion_pending isSwiss s : pending (notifyCompletion isSwiss s) = pending s.
Proof.
  unfold notifyCompletion.
  destruct (negb isSwiss && (pending s =? 0)); [| reflexivity].
  destruct (onAllMatchesComplete s); reflexivity.
Qed.

Lemma recordScore_heap m s x y t :
  heap (fst (recordScore m s x y)) t
  = bump (m_isSwiss m) (netChange (m_a m) (m_b m) x y (lastResult m) t) (heap s t).
Proof.
  unfold recordScore.
  destruct (applyScore _ _ _ _ _ _ _) as [h res] eqn:E.
  cbn [fst setHeap heap].
  replace h with (fst (applyScore (heap (if done m then s else decrementPending s))
                                  (m_a m) (m_b m) x y (m_isSwiss m) (lastResult m)))
    by (rewrite E; reflexivity).
  rewrite applyScore_at. destruct (done m); reflexivity.
Qed.

(** The two pushes of the submit handler touch neither the block of the
    phase nor the rest of a team. *)
Lemma pushes_phaseBlock isSwiss (h : Heap) (a b t : ref) :
  let h1 := upd h a (pushOpp (name (h b))) in
  let h2 := upd h1 b (pushOpp (name (h1 a))) in
  phaseBlock isSwiss (h2 t) = phaseBlock isSwiss (h t) /\
  restOf isSwiss (h2 t) = restOf isSwiss (h t).
Proof.
  cbn zeta. rewrite !upd_at.
  destruct (Nat.eqb t b), (Nat.eqb t a);
    rewrite ?phaseBlock_pushOpp, ?restOf_pushOpp; split; reflexivity.
Qed.

Lemma handle_stats (e : Event) (m : Match) (s : World) :
  let ms' := handle e (m, s) in
  m_a (fst ms') = m_a m /\ m_b (fst ms') = m_b m /\ m_isSwiss (fst ms') = m_isSwiss m /\
  (forall t, restOf (m_isSwiss m) (heap (snd ms') t) = restOf (m_isSwiss m) (heap s t)) /\
  match validScores e with
  | Some (x, y) =>
      done (fst ms') = true /\
      lastResult (fst ms') = Some (x, y) /\
      pending (snd ms') = (if done m then pending s else pending s - 1) /\
      forall t, phaseBlock (m_isSwiss m) (heap (snd ms') t)
                = plusWld (phaseBlock (m_isSwiss m) (heap s t))
                          (netChange (m_a m) (m_b m) x y (lastResult m) t)
  | None => ms' = (m, s)
  end.
Proof.
  assert (Hnone : m_a m = m_a m /\ m_b m = m_b m /\ m_isSwiss m = m_isSwiss m /\
                  (forall t, restOf (m_isSwiss m) (heap s t) = restOf (m_isSwiss m) (heap s t)) /\
                  (m, s) = (m, s)) by (repeat split).
  destruct e as [vA vB | sa sb]; cbn [handle fst snd].
  - unfold submitOnclick.
    destruct vA as [x |], vB as [y |]; cbn [validScores];
      try (destruct (isValidScore _ _); exact Hnone).
    destruct (isValidScore _ _); cbn [negb]; [| exact Hnone].
    pose proof (recordScore_spec m s x y) as H.
    pose proof (recordScore_heap m s x y) as Hh.
    destruct (recordScore m s x y) as [s1 res].
    cbn [fst snd] in *. destruct H as (-> & Hp & _ & _).
    cbn [m_a m_b m_isSwiss done lastResult].
    rewrite notifyCompletion_heap, notifyCompletion_pending.
    destruct (m_isSwiss m && negb (oppsRecorded m)); cbn [heap setHeap pending].
    + repeat split; try assumption; intros t;
        pose proof (pushes_phaseBlock (m_isSwiss m) (heap s1) (m_a m) (m_b m) t) as [H1 H2];
        cbn zeta in H1, H2.
      * rewrite H2, Hh. apply restOf_bump.
      * rewrite H1, Hh. apply phaseBlock_bump.
    + repeat split; try assumption; intros t; rewrite Hh.
      * apply restOf_bump.
      * apply phaseBlock_bump.
  - unfold adminOnclick.
    destruct sa as [[x |] |], sb as [[y |] |]; cbn [validScores];
      try (try destruct (isValidScore _ _); exact Hnone).
    destruct (isValidScore _ _); cbn [negb]; [| exact Hnone].
    pose proof (recordScore_spec m s x y) as H.
    pose proof (recordScore_heap m s x y) as Hh.
    destruct (recordScore m s x y) as [s1 res].
    cbn [fst snd] in *. destruct H as (-> & Hp & _ & _).
    cbn [m_a m_b m_isSwiss done lastResult].
    rewrite notifyCompletion_heap, notifyCompletion_pending.
    repeat split; try assumption; intros t; rewrite Hh.
    + apply restOf_bump.
    + apply phaseBlock_bump.
Qed.

Lemma lastValid_cons (e : Event) (es : list Event) :
  lastValid (e :: es)
  = match lastValid es with Some r => Some r | None => validScores e end.
Proof.
  unfold lastValid. cbn.
  destruct (validScores e) as [r |].
  - rewrite last_cons. reflexivity.
  - now destruct (last _).
Qed.

Lemma plusWld_zero_r (x : Wld) : plusWld x zeroWld = x.
Proof. apply Wld_eq; cbn; lia. Qed.

Lemma plusWld_assoc (x d e : Wld) : plusWld (plusWld x d) e = plusWld x (plusWld d e).
Proof. apply Wld_eq; cbn; lia. Qed.

(** A correction after a decisive result: the undo of the old result
    cancels what the old result added. *)
Lemma netChange_chain (a b : ref) (x y x' y' : Z) (last : option (Z * Z)) (t : ref) :
  x <> y ->
  plusWld (netChange a b x y last t) (netChange a b x' y' (Some (x, y)) t)
  = netChange a b x' y' last t.
Proof.
  intros Hxy. unfold netChange, undoneA, undoneB, addedA, addedB.
  destruct last as [[sa sb] |], (Nat.eqb t a), (Nat.eqb t b);
    apply Wld_eq; cbn [plusWld zeroWld w l pd b2z negb];
    case_ltb; cbn [b2z negb]; lia.
Qed.

Lemma run_stats (es : list Event) : forall (m : Match) (s : World),
  let ms' := run es (m, s) in
  lastResult (fst ms') = match lastValid es with Some r => Some r | None => lastResult m end /\
  done (fst ms') = done m || anyValid es /\
  pending (snd ms') = pending s - b2z (negb (done m) && anyValid es) /\
  (forall t, restOf (m_isSwiss m) (heap (snd ms') t) = restOf (m_isSwiss m) (heap s t)) /\
  (forall t, phaseBlock (m_isSwiss m) (heap (snd ms') t)
             = plusWld (phaseBlock (m_isSwiss m) (heap s t))
                       match lastValid es with
                       | Some (x, y) => netChange (m_a m) (m_b m) x y (lastResult m) t
                       | None => zeroWld
                       end).
Proof.
  induction es as [| e es IH]; intros m s; cbn [run fold_left fst snd].
  - unfold anyValid; cbn. rewrite orb_false_r, andb_false_r. cbn [b2z].
    repeat split; try lia; intros t; now rewrite ?plusWld_zero_r.
  - fold (run es (handle e (m, s))).
    pose proof (handle_stats e m s) as H. cbn zeta in H.
    destruct (handle e (m, s)) as [m1 s1]. cbn [fst snd] in H.
    destruct H as (Ha & Hb & Hsw & Hrest & H).
    specialize (IH m1 s1). cbn zeta in IH.
    destruct IH as (Hlr & Hd & Hp & Hrest' & Hph).
    rewrite Ha, Hb, Hsw in *.
    unfold anyValid in *. rewrite lastValid_cons.
    destruct (validScores e) as [[x y] |] eqn:Ev.
    + destruct H as (Hd1 & Hl1 & Hp1 & Hph1).
      pose proof (validScores_differ e x y Ev) as Hxy.
      rewrite Hd1 in *. rewrite Hl1 in *. cbn [negb andb orb b2z] in *.
      assert (Hany : match lastValid es with Some r => Some r | None => Some (x, y) end
                     = Some (match lastValid es with Some r => r | None => (x, y) end))
        by (now destruct (lastValid es)).
      repeat split.
      * rewrite Hlr. now destruct (lastValid es).
      * rewrite Hd. destruct (lastValid es); now rewrite orb_true_r.
      * rewrite Hp, Hp1. destruct (lastValid es), (done m); cbn [negb andb orb b2z]; lia.
      * intros t. now rewrite Hrest', Hrest.
      * intros t. rewrite Hph, Hph1, plusWld_assoc. f_equal.
        destruct (lastValid es) as [[x' y'] |].
        -- now apply netChange_chain.
        -- apply plusWld_zero_r.
    + injection H as -> ->.
      repeat split.
      * rewrite Hlr. now destruct (lastValid es).
      * rewrite Hd. now destruct (lastValid es).
      * rewrite Hp. now destruct (lastValid es).
      * exact Hrest'.
      * intros t. rewrite Hph. now destruct (lastValid es) as [[x' y'] |].
Qed.

(** X2: over any run of submissions and admin overrides on one element of
    [makeMatch], [pending] goes down by exactly one if some event of the
    run passes validation and stays as it was otherwise; the element is
    then done, and the result it remembers is the last valid one. *)
Theorem run_decrements_pending_once (es : list Event) (a b : ref) (isSwiss : bool)
    (s : World) :
  let ms' := run es (makeMatch a b isSwiss, s) in
  pending (snd ms') = pending s - b2z (anyValid es) /\
  done (fst ms') = anyValid es /\
  lastResult (fst ms') = lastValid es.
Proof.
  destruct (run_stats es (makeMatch a b isSwiss) s) as (Hlr & Hd & Hp & _).
  cbn [makeMatch done lastResult negb andb orb] in *.
  repeat split; try assumption.
  rewrite Hlr. now destruct (lastValid es).
Qed.

(** X3: after any run of submissions and admin overrides on one element
    of [makeMatch], the record of every team in the phase of the match is
    what one application of the last valid score pair to the records at
    the start gives, whatever was submitted before it; with no valid event
    it is the record at the start. The name, the roster, the round-4 mark
    and the record of the other phase are never changed. *)
Theorem run_stats_of_last_valid (es : list Event) (a b : ref) (isSwiss : bool)
    (s : World) (t : ref) :
  let ms' := run es (makeMatch a b isSwiss, s) in
  phaseBlock isSwiss (heap (snd ms') t)
  = phaseBlock isSwiss
      match lastValid es with
      | Some (x, y) => fst (applyScore (heap s) a b x y isSwiss None) t
      | None => heap s t
      end /\
  restOf isSwiss (heap (snd ms') t) = restOf isSwiss (heap s t).
Proof.
  destruct (run_stats es (makeMatch a b isSwiss) s) as (_ & _ & _ & Hrest & Hph).
  cbn [makeMatch m_a m_b m_isSwiss lastResult] in *.
  split; [| apply Hrest].
  rewrite Hph. destruct (lastValid es) as [[x y] |].
  - now rewrite applyScore_at, phaseBlock_bump.
  - apply plusWld_zero_r.
Qed.

(** X4: a match of two different teams is zero-sum however often it is
    corrected: after any run of events with a valid one among them, each
    team has one game more in its record (a win or a loss), the win of one
    is the loss of the other, and the point differentials added to the two
    are opposite; with no valid event nothing is added. *)
Theorem run_zero_sum (es : list Event) (a b : ref) (isSwiss : bool) (s : World) :
  a <> b ->
  let ms' := run es (makeMatch a b isSwiss, s) in
  let before r := phaseBlock isSwiss (heap s r) in
  let after r := phaseBlock isSwiss (heap (snd ms') r) in
  w (after a) + l (after a) = w (before a) + l (before a) + b2z (anyValid es) /\
  w (after b) + l (after b) = w (before b) + l (before b) + b2z (anyValid es) /\
  w (after a) - w (before a) = l (after b) - l (before b) /\
  l (after a) - l (before a) = w (after b) - w (before b) /\
  pd (after a) - pd (before a) = - (pd (after b) - pd (before b)).
Proof.
  intros Hab.
  destruct (run_stats es (makeMatch a b isSwiss) s) as (_ & _ & _ & _ & Hph).
  cbn [makeMatch m_a m_b m_isSwiss lastResult] in *. cbn zeta.
  rewrite (Hph a), (Hph b). unfold anyValid.
  destruct (lastValid es) as [[x y] |]; cbn [b2z].
  - unfold netChange, undoneA, undoneB, addedA, addedB.
    rewrite !Nat.eqb_refl.
    destruct (Nat.eqb_spec a b) as [? | _]; [contradiction |].
    destruct (Nat.eqb_spec b a) as [? | _]; [congruence |].
    cbn [plusWld zeroWld w l pd]. case_ltb; cbn [b2z negb]; lia.
  - cbn [plusWld zeroWld w l pd]. lia.
Qed.

Lemma run_zero_sum_witness :
  (0 <> 1)%nat /\
  let s := worldPending in
  let ms' := run [Submit (Some 11) (Some 3); Admin (Some (Some 7)) (Some (Some 11))]
                 (makeMatch 0%nat 1%nat true, s) in
  pd (phaseBlock true (heap (snd ms') 0%nat)) - pd (phaseBlock true (heap s 0%nat))
  = - (pd (phaseBlock true (heap (snd ms') 1%nat)) - pd (phaseBlock true (heap s 1%nat))).
Proof.
  split; [lia |].
  apply (run_zero_sum [Submit (Some 11) (Some 3); Admin (Some (Some 7)) (Some (Some 11))]
                      0%nat 1%nat true worldPending).
  lia.
Defined.

(** ** The best-of-3 handler *)

Lemma bo3Stats_at isSwiss a b pdA pdB aWins bWins h x :
  bo3Stats isSwiss a b pdA pdB aWins bWins h x
  = bump isSwiss
         (plusWld (if Nat.eqb x a
                   then mkWld (b2z (bWins <? aWins)) (b2z (negb (bWins <? aWins))) pdA
                   else zeroWld)
                  (if Nat.eqb x b
                   then mkWld (b2z (negb (bWins <? aWins))) (b2z (bWins <? aWins)) pdB
                   else zeroWld))
         (h x).
Proof.
  assert (H : exists D, tracks isSwiss h D (bo3Stats isSwiss a b pdA pdB aWins bWins h)
                        /\ D x = plusWld
                             (if Nat.eqb x a
                              then mkWld (b2z (bWins <? aWins)) (b2z (negb (bWins <? aWins))) pdA
                              else zeroWld)
                             (if Nat.eqb x b
                              then mkWld (b2z (negb (bWins <? aWins))) (b2z (bWins <? aWins)) pdB
                              else zeroWld)).
  { unfold bo3Stats. destruct (bWins <? aWins);
      (eexists; split; [repeat track_upd; apply tracks_refl |]);
      unfold also; destruct (Nat.eqb x a), (Nat.eqb x b);
      apply Wld_eq; cbn [plusWld zeroWld w l pd b2z negb]; lia. }
  destruct H as (D & Ht & HD). rewrite (Ht x), HD. reflexivity.
Qed.

Lemma valid_parsed (vA vB : option Z) :
  isValidScore (parseIntResult vA) (parseIntResult vB) = true ->
  exists x y, vA = Some x /\ vB = Some y /\ x <> y.
Proof.
  destruct vA as [x |], vB as [y |]; try discriminate.
  intros H. cbn [parseIntResult] in H. apply isValidScore_integers in H.
  exists x, y. repeat split. lia.
Qed.

(** What the handler does, case by case. *)
Lemma bo3Onclick_cases (g1a g1b g2a g2b g3a g3b : option Z) (m : Match) (s : World) :
  bo3Onclick g1a g1b g2a g2b g3a g3b m s = Some (m, s, Bo3Games12Required) \/
  bo3Onclick g1a g1b g2a g2b g3a g3b m s = Some (m, s, Bo3Game3Required) \/
  exists a1 b1 a2 b2,
    g1a = Some a1 /\ g1b = Some b1 /\ g2a = Some a2 /\ g2b = Some b2 /\
    let toA := seriesToA a1 b1 a2 b2 g3a g3b in
    let s1 := if done m then s else decrementPending s in
    let h := bo3Stats (m_isSwiss m) (m_a m) (m_b m)
                      ((a1 - b1) + (a2 - b2)) ((b1 - a1) + (b2 - a2))
                      (b2z toA) (b2z (negb toA)) (heap s1) in
    let record := m_isSwiss m && negb (oppsRecorded m) in
    let h' := if record
              then
                let h1 := upd h (m_a m) (pushOpp (name (h (m_b m)))) in
                upd h1 (m_b m) (pushOpp (name (h1 (m_a m))))
              else h in
    bo3Onclick g1a g1b g2a g2b g3a g3b m s
    = Some (mkMatch (m_a m) (m_b m) (m_isSwiss m) (m_bo3 m) true (lastResult m)
                    (if record then true else oppsRecorded m) true,
            notifyCompletion (m_isSwiss m) (setHeap h' s1),
            Bo3Submitted).
Proof.
  unfold bo3Onclick.
  destruct (isValidScore (parseIntResult g1a) (parseIntResult g1b)) eqn:E1;
    cbn [negb orb]; [| now left].
  destruct (isValidScore (parseIntResult g2a) (parseIntResult g2b)) eqn:E2;
    cbn [negb orb]; [| now left].
  destruct (valid_parsed _ _ E1) as (a1 & b1 & -> & -> & H1).
  destruct (valid_parsed _ _ E2) as (a2 & b2 & -> & -> & H2).
  cbn [jsGtInt].
  destruct (b1 <? a1) eqn:C1, (b2 <? a2) eqn:C2; cbn [b2z negb Bool.eqb];
    change (1 + 1 =? 1) with false; change (0 + 0 =? 1) with false;
    change (1 + 0 =? 1) with true; change (0 + 1 =? 1) with true;
    cbn [andb].
  - right; right. exists a1, b1, a2, b2. repeat split; try reflexivity.
    unfold seriesToA. rewrite C1, C2. reflexivity.
  - destruct (isValidScore (parseIntResult g3a) (parseIntResult g3b)) eqn:E3;
      cbn [negb]; [| now (right; left)].
    destruct (valid_parsed _ _ E3) as (a3 & b3 & -> & -> & H3).
    right; right. exists a1, b1, a2, b2. repeat split; try reflexivity.
    unfold seriesToA. rewrite C1, C2.
    cbn [jsGtInt Bool.eqb]. destruct (b3 <? a3); reflexivity.
  - destruct (isValidScore (parseIntResult g3a) (parseIntResult g3b)) eqn:E3;
      cbn [negb]; [| now (right; left)].
    destruct (valid_parsed _ _ E3) as (a3 & b3 & -> & -> & H3).
    right; right. exists a1, b1, a2, b2. repeat split; try reflexivity.
    unfold seriesToA. rewrite C1, C2.
    cbn [jsGtInt Bool.eqb]. destruct (b3 <? a3); reflexivity.
  - right; right. exists a1, b1, a2, b2. repeat split; try reflexivity.
    unfold seriesToA. rewrite C1, C2. reflexivity.
Qed.

(** X5: the best-of-3 handler always ends with one of the two
    required-games messages or with the submission, never with its third
    message (match not decided): once games 1 and 2 are valid, and game 3
    as well when they are split, one team has two wins. After a message
    the element and the state are what they were. *)
Theorem bo3Onclick_never_undecided (g1a g1b g2a g2b g3a g3b : option Z) (m : Match)
    (s : World) :
  exists m' s' out,
    bo3Onclick g1a g1b g2a g2b g3a g3b m s = Some (m', s', out) /\
    out <> Bo3NotDecided /\
    (out <> Bo3Submitted -> m' = m /\ s' = s).
Proof.
  destruct (bo3Onclick_cases g1a g1b g2a g2b g3a g3b m s)
    as [-> | [-> | (a1 & b1 & a2 & b2 & _ & _ & _ & _ & ->)]];
    do 3 eexists; (split; [reflexivity |]); split; try discriminate;
    try (intros _; split; reflexivity).
  intros H. now contradiction H.
Qed.

(** X6: a submitted best-of-3 series between two different teams gives
    the team that takes the series one win and the other one loss, and
    adds to the point differentials the margins of games 1 and 2 only:
    the margin of a third game is never added, also when the third game
    decided the series. [pending] goes down by one unless the element was
    done, the button is disabled, and no other team is touched. *)
Theorem bo3Onclick_counts_two_games (a1 b1 a2 b2 : Z) (g3a g3b : option Z)
    (m m' : Match) (s s' : World) :
  m_a m <> m_b m ->
  bo3Onclick (Some a1) (Some b1) (Some a2) (Some b2) g3a g3b m s
  = Some (m', s', Bo3Submitted) ->
  let toA := seriesToA a1 b1 a2 b2 g3a g3b in
  let before r := phaseBlock (m_isSwiss m) (heap s r) in
  let after r := phaseBlock (m_isSwiss m) (heap s' r) in
  after (m_a m)
  = plusWld (before (m_a m)) (mkWld (b2z toA) (b2z (negb toA)) ((a1 - b1) + (a2 - b2))) /\
  after (m_b m)
  = plusWld (before (m_b m)) (mkWld (b2z (negb toA)) (b2z toA) ((b1 - a1) + (b2 - a2))) /\
  (forall t, t <> m_a m -> t <> m_b m -> heap s' t = heap s t) /\
  pending s' = (if done m then pending s else pending s - 1) /\
  done m' = true /\ submitDisabled m' = true.
Proof.
  intros Hab Hrun.
  destruct (bo3Onclick_cases (Some a1) (Some b1) (Some a2) (Some b2) g3a g3b m s)
    as [H | [H | (a1' & b1' & a2' & b2' & [= <-] & [= <-] & [= <-] & [= <-] & H)]];
    rewrite H in Hrun; try discriminate.
  cbn zeta in Hrun. injection Hrun as <- <-. cbn zeta.
  set (toA := seriesToA a1 b1 a2 b2 g3a g3b).
  set (s1 := if done m then s else decrementPending s).
  assert (Hs1 : heap s1 = heap s) by (subst s1; now destruct (done m)).
  assert (Hp1 : pending s1 = if done m then pending s else pending s - 1)
    by (subst s1; now destruct (done m)).
  set (h := bo3Stats _ _ _ _ _ _ _ _).
  assert (Hlt : (b2z (negb toA) <? b2z toA) = toA) by (now destruct toA).
  assert (Hh : forall x, h x = bump (m_isSwiss m)
                 (plusWld (if Nat.eqb x (m_a m)
                           then mkWld (b2z toA) (b2z (negb toA)) ((a1 - b1) + (a2 - b2))
                           else zeroWld)
                          (if Nat.eqb x (m_b m)
                           then mkWld (b2z (negb toA)) (b2z toA) ((b1 - a1) + (b2 - a2))
                           else zeroWld))
                 (heap s x)).
  { intros x. subst h. rewrite bo3Stats_at, Hlt, Hs1. reflexivity. }
  rewrite notifyCompletion_heap, notifyCompletion_pending.
  cbn [heap setHeap pending done submitDisabled].
  assert (Hba : m_b m <> m_a m) by congruence.
  assert (Hph : forall t, phaseBlock (m_isSwiss m)
                   ((if m_isSwiss m && negb (oppsRecorded m)
                     then upd (upd h (m_a m) (pushOpp (name (h (m_b m))))) (m_b m)
                              (pushOpp (name (upd h (m_a m) (pushOpp (name (h (m_b m))))
                                                  (m_a m))))
                     else h) t)
                 = phaseBlock (m_isSwiss m) (h t)).
  { intros t. destruct (m_isSwiss m && negb (oppsRecorded m)); [| reflexivity].
    apply (pushes_phaseBlock (m_isSwiss m) h (m_a m) (m_b m) t). }
  repeat split; try assumption.
  - rewrite Hph, Hh, phaseBlock_bump, Nat.eqb_refl.
    destruct (Nat.eqb_spec (m_a m) (m_b m)) as [? | _]; [contradiction |].
    now rewrite plusWld_zero_r.
  - rewrite Hph, Hh, phaseBlock_bump, Nat.eqb_refl.
    destruct (Nat.eqb_spec (m_b m) (m_a m)) as [? | _]; [contradiction |].
    f_equal; apply Wld_eq; cbn; lia.
  - intros t Ha Hb.
    assert (Ht : h t = heap s t).
    { rewrite Hh.
      destruct (Nat.eqb_spec t (m_a m)) as [? | _]; [contradiction |].
      destruct (Nat.eqb_spec t (m_b m)) as [? | _]; [contradiction |].
      rewrite plusWld_zero_r. apply bump_zero. }
    destruct (m_isSwiss m && negb (oppsRecorded m)); [| exact Ht].
    rewrite !upd_at.
    destruct (Nat.eqb_spec t (m_a m)) as [? | _]; [contradiction |].
    destruct (Nat.eqb_spec t (m_b m)) as [? | _]; [contradiction |].
    exact Ht.
Qed.

Lemma bo3Onclick_counts_two_games_witness :
  (0 <> 1)%nat /\
  exists m' s',
    seriesOfThree = Some (m', s', Bo3Submitted) /\
    seriesToA 11 3 5 11 (Some 11) (Some 9) = true /\
    phaseBlock true (heap worldPending 0%nat) = mkWld 1 0 3 /\
    phaseBlock true (heap s' 0%nat) = mkWld 2 0 5 /\
    phaseBlock true (heap s' 1%nat) = mkWld 1 1 1.
Proof.
  split; [lia |].
  assert (Hout : option_map snd seriesOfThree = Some Bo3Submitted) by reflexivity.
  destruct seriesOfThree as [[[m' s'] out] |] eqn:E; [| discriminate Hout].
  injection Hout as ->. exists m', s'. split; [reflexivity |].
  split; [reflexivity |]. split; [reflexivity |].
  destruct (bo3Onclick_counts_two_games 11 3 5 11 (Some 11) (Some 9)
              (makeBo3Match 0%nat 1%nat true) m' worldPending s')
    as (Ha & Hb & _); [cbn; lia | exact E |].
  cbn [makeBo3Match m_a m_b m_isSwiss] in Ha, Hb.
  split; [rewrite Ha | rewrite Hb]; reflexivity.
Defined.

(** ** The Swiss standings *)

Lemma seedsBefore_teamKeyBefore bf h a b : seedsBefore bf h a b <-> teamKeyBefore bf h a b.
Proof.
  unfold seedsBefore, teamKeyBefore, compareTeamsBySwiss.
  case_eqb; cbn [negb]; rewrite ?localeCompare_neg; split; intros; try lia; try tauto.
  - do 3 (right; split; [lia |]). assumption.
  - destruct H as [? | [_ [? | [_ [? | [_ ?]]]]]]; try lia. assumption.
Qed.

Lemma compareTeams_zero bf h a b :
  compareTeamsBySwiss bf h a b = 0 ->
  w (s_rec (swiss (h a))) = w (s_rec (swiss (h b))) /\ bf a = bf b /\
  pd (s_rec (swiss (h a))) = pd (s_rec (swiss (h b))) /\ name (h a) = name (h b).
Proof.
  unfold compareTeamsBySwiss.
  case_eqb; cbn [negb]; rewrite ?localeCompare_zero; intros; try lia.
  repeat split; try lia. assumption.
Qed.

Lemma compareTeams_flip bf h a b :
  Z.sgn (compareTeamsBySwiss bf h b a) = - Z.sgn (compareTeamsBySwiss bf h a b).
Proof.
  unfold compareTeamsBySwiss.
  case_eqb; cbn [negb]; try lia. rewrite localeCompare_flip. lia.
Qed.

(** X7: the comparator of the Swiss standings, with any tiebreak function
    in the place of [buchholzFn], puts [a] before [b] exactly when [a] has
    more Swiss wins, or as many and the larger tiebreak, or as much of
    both and the larger Swiss point differential, or as much of all three
    and the smaller name. It changes sign when its arguments are swapped,
    it is irreflexive and transitive, and two teams of different names are
    always ordered. (Names are compared as [localeCompare] is modelled.) *)
Theorem compareTeamsBySwiss_total_order (buchholzFn : ref -> Z) (h : Heap) :
  (forall a b, seedsBefore buchholzFn h a b <-> teamKeyBefore buchholzFn h a b) /\
  (forall a b, Z.sgn (compareTeamsBySwiss buchholzFn h b a)
               = - Z.sgn (compareTeamsBySwiss buchholzFn h a b)) /\
  (forall a, ~ seedsBefore buchholzFn h a a) /\
  (forall a b c, seedsBefore buchholzFn h a b -> seedsBefore buchholzFn h b c ->
                 seedsBefore buchholzFn h a c) /\
  (forall a b, name (h a) <> name (h b) ->
               seedsBefore buchholzFn h a b \/ seedsBefore buchholzFn h b a).
Proof.
  split; [apply seedsBefore_teamKeyBefore |].
  split; [apply compareTeams_flip |].
  split; [| split].
  - intros a. unfold seedsBefore.
    pose proof (compareTeams_flip buchholzFn h a a). lia.
  - intros a b c. rewrite !seedsBefore_teamKeyBefore. unfold teamKeyBefore, String.ltb.
    intros Hab Hbc.
    destruct (String.compare (name (h a)) (name (h b))) eqn:Eab;
      destruct (String.compare (name (h b)) (name (h c))) eqn:Ebc;
      try rewrite (string_compare_lt_trans _ _ _ Eab Ebc);
      intuition (try discriminate; try lia).
  - intros a b Hne. unfold seedsBefore.
    pose proof (compareTeams_flip buchholzFn h a b) as Hflip.
    destruct (Z.eq_dec (compareTeamsBySwiss buchholzFn h a b) 0) as [E | NE].
    + exfalso. apply Hne. now apply compareTeams_zero in E.
    + lia.
Qed.

Lemma fold_left_add_shift {A} (f : A -> Z) (xs : list A) (acc : Z) :
  fold_left (fun sum x => sum + f x) xs acc
  = acc + fold_left (fun sum x => sum + f x) xs 0.
Proof.
  revert acc. induction xs as [| x xs IH]; intros acc; cbn [fold_left]; [lia |].
  rewrite (IH (acc + f x)), (IH (0 + f x)). lia.
Qed.

Lemma buchholz_sum (h : Heap) (ts : list ref) (t : ref) :
  buchholz h ts t = foldr Z.add 0 (map (oppWins h ts) (opps (swiss (h t)))).
Proof.
  unfold buchholz. induction (opps (swiss (h t))) as [| n ns IH]; [reflexivity |].
  cbn [map foldr]. rewrite <- IH. unfold oppWins. cbn.
  destruct (List.find _ ts) as [opp |]; cbn [fold_left].
  - rewrite fold_left_add_shift. lia.
  - lia.
Qed.

Lemma find_ext' {A} (f g : A -> bool) (xs : list A) :
  (forall x, f x = g x) -> List.find f xs = List.find g xs.
Proof.
  intros H. induction xs as [| x xs IH]; [reflexivity |].
  cbn [List.find]. now rewrite H, IH.
Qed.

Lemma foldr_add_app (xs ys : list Z) :
  foldr Z.add 0 (xs ++ ys) = foldr Z.add 0 xs + foldr Z.add 0 ys.
Proof. induction xs as [| x xs IH]; cbn [app foldr]; lia. Qed.

(** X8: [buchholz] is the sum, entry by entry of the opponents list, of
    the Swiss wins of the first team of the state that bears the name; a
    name that no team bears adds nothing and a name listed twice counts
    twice. So a team without opponents has 0, and recording one more
    opponent adds the wins of that opponent and nothing else. *)
Theorem buchholz_entrywise (h : Heap) (ts : list ref) (t : ref) :
  buchholz h ts t = foldr Z.add 0 (map (oppWins h ts) (opps (swiss (h t)))) /\
  (opps (swiss (h t)) = [] -> buchholz h ts t = 0) /\
  (forall n, buchholz (upd h t (pushOpp n)) ts t = buchholz h ts t + oppWins h ts n) /\
  (forall n, List.find (fun x => String.eqb (name (h x)) n) ts = None ->
             buchholz (upd h t (pushOpp n)) ts t = buchholz h ts t).
Proof.
  assert (Hpush : forall n, buchholz (upd h t (pushOpp n)) ts t
                            = buchholz h ts t + oppWins h ts n).
  { intros n. rewrite !buchholz_sum.
    assert (Hn : forall x, name (upd h t (pushOpp n) x) = name (h x))
      by (intros x; rewrite upd_at; now destruct (Nat.eqb x t)).
    assert (Hw : forall x, w (s_rec (swiss (upd h t (pushOpp n) x))) = w (s_rec (swiss (h x))))
      by (intros x; rewrite upd_at; now destruct (Nat.eqb x t)).
    assert (Hf : forall m, oppWins (upd h t (pushOpp n)) ts m = oppWins h ts m).
    { intros m. unfold oppWins.
      rewrite (find_ext' (fun x => String.eqb (name (upd h t (pushOpp n) x)) m)
                        (fun x => String.eqb (name (h x)) m))
        by (intros x; now rewrite Hn).
      destruct (List.find _ ts); [apply Hw | reflexivity]. }
    rewrite (map_ext _ _ Hf).
    rewrite upd_at, Nat.eqb_refl. cbn [pushOpp swiss opps].
    rewrite map_app, foldr_add_app. cbn [map foldr]. lia. }
  split; [apply buchholz_sum |]. split; [| split].
  - intros E. rewrite buchholz_sum, E. reflexivity.
  - exact Hpush.
  - intros n Hnone. rewrite Hpush. unfold oppWins. rewrite Hnone. lia.
Qed.

(** ** The rounds of the bracket *)

Lemma createMatches_callback mk pairs s :
  onAllMatchesComplete (createMatches mk pairs s) = onAllMatchesComplete s /\
  microtasks (createMatches mk pairs s) = microtasks s.
Proof.
  unfold createMatches. revert s.
  induction pairs as [| [a b] pairs IH]; intros s; cbn [fold_left]; [split; reflexivity |].
  destruct (IH (incrementPending (appendChild (mk a b true) s))) as [-> ->].
  split; reflexivity.
Qed.

(** What a round that is there and not empty starts as. *)
Lemma runBracketRound_ran (roundNum : Z) (s : World) (pairs : Pairing) :
  roundAt roundNum (bracketRounds s) = Some pairs -> pairs <> [] ->
  exists s',
    runBracketRound roundNum s = Ran s' /\
    pending s' = Z.of_nat (length pairs) /\
    onAllMatchesComplete s' = Some roundNum /\
    microtasks s' = microtasks s /\
    content s' = content s ++ bracketMatches pairs /\
    heap s' = heap s /\ bracketRounds s' = bracketRounds s /\
    teams s' = teams s /\ allPlayers s' = allPlayers s /\
    week s' = week s /\ swissRound s' = swissRound s /\ console s' = console s.
Proof.
  intros Hr Hne. unfold runBracketRound. rewrite Hr.
  destruct pairs as [| p pairs]; [contradiction |].
  eexists. split; [reflexivity |].
  set (s0 := setCallback (Some roundNum) (microtasks (setPending 0 s)) (setPending 0 s)).
  destruct (createMatches_frame makeBracketMatch (p :: pairs) s0)
    as (-> & -> & -> & -> & -> & -> & -> & -> & ->).
  destruct (createMatches_callback makeBracketMatch (p :: pairs) s0) as [-> ->].
  repeat split.
Qed.

(** X9: [runBracketRound] on a round that is missing or empty logs its
    error and leaves the state as it is: [pending] is not reset and no
    callback is registered. On a round of [n] pairs it sets [pending] to
    [n] whatever it was, registers the callback of the round in the place
    of any other, and appends one fresh bracket element per pair, in
    order; teams, players, rounds and queue are untouched. *)
Theorem runBracketRound_cases (roundNum : Z) (s : World) :
  match roundAt roundNum (bracketRounds s) with
  | None | Some [] => runBracketRound roundNum s = Refused (ErrRoundNoMatches roundNum) s
  | Some pairs =>
      exists s',
        runBracketRound roundNum s = Ran s' /\
        pending s' = Z.of_nat (length pairs) /\
        onAllMatchesComplete s' = Some roundNum /\
        microtasks s' = microtasks s /\
        content s' = content s ++ bracketMatches pairs /\
        heap s' = heap s /\ bracketRounds s' = bracketRounds s /\
        teams s' = teams s /\ allPlayers s' = allPlayers s /\
        week s' = week s /\ swissRound s' = swissRound s /\ console s' = console s
  end.
Proof.
  destruct (roundAt roundNum (bracketRounds s)) as [[| p pairs] |] eqn:Hr.
  - unfold runBracketRound. now rewrite Hr.
  - apply (runBracketRound_ran roundNum s (p :: pairs) Hr). discriminate.
  - unfold runBracketRound. now rewrite Hr.
Qed.

Lemma insertSorted_perm cmp x l : insertSorted cmp x l ≡ₚ x :: l.
Proof.
  induction l as [| y l IH]; cbn [insertSorted]; [reflexivity |].
  destruct (cmp x y <? 0); [reflexivity |].
  rewrite IH. apply perm_swap.
Qed.

Lemma insertionSort_perm cmp l : insertionSort cmp l ≡ₚ l.
Proof.
  unfold insertionSort. induction l as [| x l IH]; cbn [foldr]; [reflexivity |].
  rewrite insertSorted_perm, IH. reflexivity.
Qed.

(** X10: [startBracket] with fewer than eight teams logs its error and
    changes nothing. With eight or more it draws round 1 from the first
    eight of the standings, first against eighth, fourth against fifth,
    second against seventh and third against sixth, leaves rounds 2 and 3
    empty, and starts round 1: four fresh bracket elements, [pending] 4,
    the callback of round 1 registered. The eight are teams of the state,
    each once if the state lists no team twice; with exactly eight teams
    the round pairs all of them. Of the host's sort only this is used:
    what it returns is a rearrangement of what it is given. *)
Theorem startBracket_cases (sort : (ref -> ref -> Z) -> list ref -> list ref) (s : World) :
  (forall cmp l, sort cmp l ≡ₚ l) ->
  if (length (teams s) <? 8)%nat
  then startBracket sort s = Some (Refused ErrNeed8Teams s)
  else
    exists s' s0 s1 s2 s3 s4 s5 s6 s7 rest,
      sortTeamsBySwiss sort s (teams s) = s0 :: s1 :: s2 :: s3 :: s4 :: s5 :: s6 :: s7 :: rest /\
      let round1 := [(s0, s7); (s3, s4); (s1, s6); (s2, s5)] in
      startBracket sort s = Some (Ran s') /\
      bracketRounds s' = [round1; []; []] /\
      flatPairs round1 ⊆+ teams s /\
      (length (teams s) = 8%nat -> flatPairs round1 ≡ₚ teams s) /\
      pending s' = 4 /\
      onAllMatchesComplete s' = Some 1 /\
      content s' = content s ++ bracketMatches round1 /\
      heap s' = heap s /\ teams s' = teams s /\ swissRound s' = swissRound s.
Proof.
  intros Hsort. unfold startBracket.
  destruct (Nat.ltb_spec (length (teams s)) 8) as [Hlt | Hge]; [reflexivity |].
  assert (Hperm : sortTeamsBySwiss sort s (teams s) ≡ₚ teams s).
  { unfold sortTeamsBySwiss. destruct (teams s); [reflexivity | apply Hsort]. }
  pose proof (Permutation_length Hperm) as Hlen.
  destruct (sortTeamsBySwiss sort s (teams s))
    as [| s0 [| s1 [| s2 [| s3 [| s4 [| s5 [| s6 [| s7 rest]]]]]]]];
    cbn [length] in Hlen; try lia.
  set (round1 := [(s0, s7); (s3, s4); (s1, s6); (s2, s5)]).
  destruct (runBracketRound_ran 1 (setBracketRounds [round1; []; []] s) round1)
    as (s' & Hrun & Hp & Hcb & _ & Hc & Hh & Hb & Ht & _ & _ & Hsr & _);
    [reflexivity | discriminate |].
  exists s', s0, s1, s2, s3, s4, s5, s6, s7, rest.
  split; [reflexivity |]. cbn zeta. fold round1.
  split; [now rewrite Hrun |].
  repeat split; try assumption.
  - rewrite <- Hperm. cbn. solve_submseteq.
  - intros H8. rewrite <- Hperm.
    destruct rest; [| cbn [length] in Hlen; lia]. cbn. solve_Permutation.
Qed.

Lemma startBracket_cases_witness :
  (forall cmp l, insertionSort cmp l ≡ₚ l) /\
  if (length (teams worldSwissDone) <? 8)%nat
  then startBracket insertionSort worldSwissDone = Some (Refused ErrNeed8Teams worldSwissDone)
  else
    exists s' s0 s1 s2 s3 s4 s5 s6 s7 rest,
      sortTeamsBySwiss insertionSort worldSwissDone (teams worldSwissDone)
      = s0 :: s1 :: s2 :: s3 :: s4 :: s5 :: s6 :: s7 :: rest /\
      let round1 := [(s0, s7); (s3, s4); (s1, s6); (s2, s5)] in
      startBracket insertionSort worldSwissDone = Some (Ran s') /\
      bracketRounds s' = [round1; []; []] /\
      flatPairs round1 ⊆+ teams worldSwissDone /\
      (length (teams worldSwissDone) = 8%nat -> flatPairs round1 ≡ₚ teams worldSwissDone) /\
      pending s' = 4 /\
      onAllMatchesComplete s' = Some 1 /\
      content s' = content worldSwissDone ++ bracketMatches round1 /\
      heap s' = heap worldSwissDone /\ teams s' = teams worldSwissDone /\
      swissRound s' = swissRound worldSwissDone.
Proof.
  split; [apply insertionSort_perm |].
  apply (startBracket_cases insertionSort worldSwissDone). apply insertionSort_perm.
Defined.

(** The standings of [worldSwissDone] under the insertion sort, and the
    round drawn from them. *)
Example startBracket_example :
  sortTeamsBySwiss insertionSort worldSwissDone (teams worldSwissDone)
  = [7; 6; 5; 4; 3; 2; 1; 0]%nat /\
  (exists s', startBracket insertionSort worldSwissDone = Some (Ran s') /\
              bracketRounds s' = [[(7, 0); (4, 3); (6, 1); (5, 2)]%nat; []; []]).
Proof.
  split; [vm_compute; reflexivity |].
  eexists. split; [vm_compute; reflexivity | reflexivity].
Qed.

Lemma assignRound_lookup (i : nat) (v : Pairing) (rounds : list Pairing) :
  (i <= length rounds)%nat ->
  assignRound i v rounds !! i = Some v /\
  forall j, (j < i)%nat -> assignRound i v rounds !! j = rounds !! j.
Proof.
  intros Hi. unfold assignRound.
  destruct (Nat.ltb_spec i (length rounds)) as [Hlt | Hge].
  - split.
    + apply list_lookup_insert_eq. exact Hlt.
    + intros j Hj. apply list_lookup_insert_ne. lia.
  - assert (i = length rounds) by lia. subst i. split.
    + rewrite lookup_app_r by lia. now rewrite Nat.sub_diag.
    + intros j Hj. now rewrite lookup_app_l by lia.
Qed.

Lemma winner_loser_perm (h : Heap) (p : ref * ref) :
  [bracketWinner h p; bracketLoser h p] ≡ₚ [fst p; snd p].
Proof.
  unfold bracketWinner, bracketLoser.
  destruct (w (bracket (h (snd p))) <? w (bracket (h (fst p)))); [reflexivity | apply perm_swap].
Qed.

Lemma generateNextBracketRound_ran (roundNum : Z) (s : World) (p0 p1 p2 p3 : ref * ref)
    (more : Pairing) :
  roundNum = 1 \/ roundNum = 2 ->
  roundAt roundNum (bracketRounds s) = Some (p0 :: p1 :: p2 :: p3 :: more) ->
  let W := bracketWinner (heap s) in
  let L := bracketLoser (heap s) in
  let next := if roundNum =? 1
              then [(W p0, W p1); (W p2, W p3); (L p0, L p1); (L p2, L p3)]
              else [(W p0, W p1); (L p0, L p1); (W p2, W p3); (L p2, L p3)] in
  exists s',
    generateNextBracketRound roundNum s = Some (Ran s') /\
    roundAt (roundNum + 1) (bracketRounds s') = Some next /\
    (forall k, 1 <= k <= roundNum ->
               roundAt k (bracketRounds s') = roundAt k (bracketRounds s)) /\
    pending s' = 4 /\
    onAllMatchesComplete s' = Some (roundNum + 1) /\
    microtasks s' = microtasks s /\
    content s' = content s ++ bracketMatches next /\
    heap s' = heap s /\ teams s' = teams s.
Proof.
  intros Hround Hr. cbn zeta.
  set (W := bracketWinner (heap s)). set (L := bracketLoser (heap s)).
  set (next := if roundNum =? 1 then _ else _).
  assert (Hlen : (Z.to_nat roundNum <= length (bracketRounds s))%nat).
  { unfold roundAt in Hr. destruct (roundNum <? 1) eqn:E; [discriminate |].
    apply lookup_lt_Some in Hr. lia. }
  set (i := Z.to_nat roundNum) in *.
  set (s1 := setBracketRounds (assignRound i next (bracketRounds s)) s).
  destruct (assignRound_lookup i next (bracketRounds s) Hlen) as [Hat Hbelow].
  assert (Hnext : roundAt (roundNum + 1) (bracketRounds s1) = Some next).
  { unfold roundAt. destruct (Z.ltb_spec (roundNum + 1) 1); [lia |].
    replace (Z.to_nat (roundNum + 1 - 1)) with i by (subst i; lia). exact Hat. }
  destruct (runBracketRound_ran (roundNum + 1) s1 next Hnext)
    as (s' & Hrun & Hp & Hcb & Hq & Hc & Hh & Hb & Ht & _);
    [subst next; destruct (roundNum =? 1); discriminate |].
  exists s'.
  assert (Hgen : generateNextBracketRound roundNum s = Some (runBracketRound (roundNum + 1) s1)).
  { unfold generateNextBracketRound. rewrite Hr. cbn [mbind option_bind map].
    fold W L. subst s1 next i.
    destruct Hround as [-> | ->]; reflexivity. }
  rewrite Hgen, Hrun, Hb.
  repeat split; try assumption.
  - intros k Hk. unfold roundAt. destruct (Z.ltb_spec k 1); [reflexivity |].
    cbn [s1 bracketRounds setBracketRounds]. apply Hbelow. subst i. lia.
  - rewrite Hp. subst next. now destruct (roundNum =? 1).
Qed.

(** X11: [generateNextBracketRound] for round 1 or 2, on a round of four
    pairs (pairs beyond the fourth are ignored), writes the next round
    and starts it: the winners of the first two pairs meet, and so do the
    winners of the last two, the losers of the first two and the losers
    of the last two, so the next round pairs the same eight teams, each
    once if the round did. The winner of a pair is the first team only if
    it has more bracket wins than the second: on equal wins the second
    team advances. The rounds up to the one read are kept; [pending] is
    4 and the callback is that of the next round. On a round that is
    missing or has fewer than four pairs the call fails. *)
Theorem generateNextBracketRound_cases (roundNum : Z) (s : World) :
  roundNum = 1 \/ roundNum = 2 ->
  match roundAt roundNum (bracketRounds s) with
  | Some (p0 :: p1 :: p2 :: p3 :: _) =>
      let W := bracketWinner (heap s) in
      let L := bracketLoser (heap s) in
      let next := if roundNum =? 1
                  then [(W p0, W p1); (W p2, W p3); (L p0, L p1); (L p2, L p3)]
                  else [(W p0, W p1); (L p0, L p1); (W p2, W p3); (L p2, L p3)] in
      (forall p, w (bracket (heap s (fst p))) <= w (bracket (heap s (snd p))) ->
                 W p = snd p /\ L p = fst p) /\
      flatPairs next ≡ₚ flatPairs [p0; p1; p2; p3] /\
      exists s',
        generateNextBracketRound roundNum s = Some (Ran s') /\
        roundAt (roundNum + 1) (bracketRounds s') = Some next /\
        (forall k, 1 <= k <= roundNum ->
                   roundAt k (bracketRounds s') = roundAt k (bracketRounds s)) /\
        pending s' = 4 /\
        onAllMatchesComplete s' = Some (roundNum + 1) /\
        content s' = content s ++ bracketMatches next /\
        heap s' = heap s /\ teams s' = teams s
  | _ => generateNextBracketRound roundNum s = None
  end.
Proof.
  intros Hround.
  destruct (roundAt roundNum (bracketRounds s)) as [pairs |] eqn:Hr;
    [| unfold generateNextBracketRound; now rewrite Hr].
  destruct pairs as [| p0 [| p1 [| p2 [| p3 more]]]];
    try (unfold generateNextBracketRound; now rewrite Hr).
  cbn zeta.
  split; [| split].
  - intros p Hle. unfold bracketWinner, bracketLoser.
    destruct (Z.ltb_spec (w (bracket (heap s (snd p)))) (w (bracket (heap s (fst p)))));
      [lia | split; reflexivity].
  - pose proof (winner_loser_perm (heap s) p0) as H0.
    pose proof (winner_loser_perm (heap s) p1) as H1.
    pose proof (winner_loser_perm (heap s) p2) as H2.
    pose proof (winner_loser_perm (heap s) p3) as H3.
    set (W := bracketWinner (heap s)) in *. set (L := bracketLoser (heap s)) in *.
    transitivity ([W p0; L p0] ++ [W p1; L p1] ++ [W p2; L p2] ++ [W p3; L p3]).
    + destruct (roundNum =? 1); cbn; solve_Permutation.
    + rewrite H0, H1, H2, H3. reflexivity.
  - destruct (generateNextBracketRound_ran roundNum s p0 p1 p2 p3 more Hround Hr)
      as (s' & Hgen & Hnext & Hkeep & Hp & Hcb & _ & Hc & Hh & Ht).
    exists s'. repeat split; assumption.
Qed.

Lemma generateNextBracketRound_cases_witness :
  (1 = 1 \/ 1 = 2) /\
  exists s',
    generateNextBracketRound 1 worldBracketDone = Some (Ran s') /\
    roundAt 2 (bracketRounds s') = Some [(0, 4); (6, 2); (7, 3); (1, 5)]%nat /\
    pending s' = 4 /\ onAllMatchesComplete s' = Some 2.
Proof.
  split; [now left |].
  pose proof (generateNextBracketRound_cases 1 worldBracketDone (or_introl eq_refl)) as H.
  cbn [roundAt worldBracketDone bracketRounds Z.ltb Z.compare Z.sub Z.to_nat
       Z.add Z.opp Z.pos_sub lookup list_lookup] in H.
  destruct H as (_ & _ & s' & Hrun & Hnext & _ & Hp & Hcb & _).
  exists s'. repeat split; assumption.
Defined.

(** ** The completion of a round of the bracket *)

Lemma recordScore_callback m s x y :
  onAllMatchesComplete (fst (recordScore m s x y)) = onAllMatchesComplete s /\
  microtasks (fst (recordScore m s x y)) = microtasks s.
Proof.
  unfold recordScore. destruct (applyScore _ _ _ _ _ _ _) as [h res].
  cbn [fst]. destruct (done m); split; reflexivity.
Qed.

(** A valid event ends with [notifyCompletion] on a state whose callback
    and queue are those before the event. *)
Lemma handle_valid (e : Event) (m : Match) (s : World) (x y : Z) :
  validScores e = Some (x, y) ->
  exists s2,
    snd (handle e (m, s)) = notifyCompletion (m_isSwiss m) s2 /\
    pending s2 = (if done m then pending s else pending s - 1) /\
    onAllMatchesComplete s2 = onAllMatchesComplete s /\
    microtasks s2 = microtasks s.
Proof.
  intros Hv.
  destruct e as [vA vB | sa sb]; cbn [handle fst snd].
  - unfold submitOnclick.
    destruct vA as [a |], vB as [b |]; cbn [validScores] in Hv; try discriminate.
    destruct (isValidScore _ _); [| discriminate]. cbn [negb].
    pose proof (recordScore_spec m s a b) as H.
    pose proof (recordScore_callback m s a b) as Hc.
    destruct (recordScore m s a b) as [s1 res].
    cbn [fst snd] in *. destruct H as (_ & Hp & _ & _). destruct Hc as [Hc1 Hc2].
    eexists. split; [reflexivity |].
    destruct (m_isSwiss m && negb (oppsRecorded m)); cbn [pending setHeap
      onAllMatchesComplete microtasks]; repeat split; assumption.
  - unfold adminOnclick.
    destruct sa as [[a |] |], sb as [[b |] |]; cbn [validScores] in Hv; try discriminate.
    destruct (isValidScore _ _); [| discriminate]. cbn [negb].
    pose proof (recordScore_spec m s a b) as H.
    pose proof (recordScore_callback m s a b) as Hc.
    destruct (recordScore m s a b) as [s1 res].
    cbn [fst snd] in *. destruct H as (_ & Hp & _ & _). destruct Hc as [Hc1 Hc2].
    eexists. split; [reflexivity |]. repeat split; assumption.
Qed.

Lemma notDone_insert (ms : list Match) : forall (i : nat) (m m' : Match),
  ms !! i = Some m -> done m' = true ->
  (length (notDone ms)
   = length (notDone (<[i := m']> ms)) + (if done m then 0 else 1))%nat.
Proof.
  unfold notDone.
  induction ms as [| m0 ms IH]; intros i m m' Hi Hd; [discriminate |].
  destruct i as [| i]; cbn [lookup list_lookup] in Hi.
  - injection Hi as ->. cbn [insert list_insert].
    rewrite (filter_cons_False _ m') by (rewrite Hd; discriminate).
    destruct (done m) eqn:E.
    + rewrite filter_cons_False by (rewrite E; discriminate). lia.
    + rewrite filter_cons_True by exact E. cbn [length]. lia.
  - cbn [insert list_insert].
    specialize (IH i m m' Hi Hd).
    destruct (done m0) eqn:E.
    + rewrite !filter_cons_False by (rewrite E; discriminate). exact IH.
    + rewrite !filter_cons_True by exact E. cbn [length]. rewrite IH. reflexivity.
Qed.

Lemma handleAt_roundOnPage (r : Z) (q0 : list Z) (ie : nat * Event)
    (ps : list Match * World) :
  roundOnPage r q0 ps -> roundOnPage r q0 (handleAt ie ps).
Proof.
  destruct ps as [ms s], ie as [i e]. intros (Hbr & Hp & Hcb).
  unfold handleAt; cbn [fst snd] in *.
  destruct (ms !! i) as [m |] eqn:Hi; [| repeat split; assumption].
  pose proof (handle_stats e m s) as Hst. cbn zeta in Hst.
  destruct Hst as (_ & _ & Hsw & _ & Hst).
  destruct (validScores e) as [[x y] |] eqn:Ev.
  2:{ rewrite Hst. cbn [fst snd]. rewrite list_insert_id by exact Hi.
      repeat split; assumption. }
  destruct Hst as (Hd & _ & _ & _).
  destruct (handle_valid e m s x y Ev) as (s2 & Hs2 & Hp2 & Hc2 & Hq2).
  destruct (handle e (m, s)) as [m' s']. cbn [fst snd] in *. subst s'.
  pose proof (notDone_insert ms i m m' Hi Hd) as Hcount.
  assert (Hbr' : forall m0, m0 ∈ <[i := m']> ms -> done m0 = false -> m_isSwiss m0 = false).
  { intros m0 Hin Hnd. apply list_elem_of_lookup in Hin as [j Hj].
    apply list_lookup_insert_Some in Hj as [(_ & <- & _) | (_ & Hj)]; [congruence |].
    apply (Hbr m0); [apply (list_elem_of_lookup_2 _ j); exact Hj | exact Hnd]. }
  split; [exact Hbr' |]. cbn [fst snd].
  rewrite notifyCompletion_pending.
  destruct (done m) eqn:Edone.
  - (* a correction: nothing is counted, nothing is queued *)
    assert (Hsame : notifyCompletion (m_isSwiss m) s2 = s2
                    \/ (onAllMatchesComplete s2 = None /\ (pending s2 =? 0) = true)).
    { unfold notifyCompletion.
      destruct (negb (m_isSwiss m) && (pending s2 =? 0)) eqn:E; [| now left].
      apply andb_true_iff in E as [_ E]. right. split; [| exact E].
      rewrite Hp2 in E. rewrite E in Hcb. rewrite Hc2. apply Hcb. }
    assert (Hn : notifyCompletion (m_isSwiss m) s2 = s2).
    { destruct Hsame as [? | [Hnone _]]; [assumption |].
      unfold notifyCompletion. rewrite Hnone. now destruct (negb _ && _). }
    rewrite Hn, Hp2, Hc2, Hq2. split; [lia | exact Hcb].
  - (* the first submission of an open element *)
    assert (Hm : m_isSwiss m = false)
      by (apply Hbr; [apply (list_elem_of_lookup_2 _ i); exact Hi | exact Edone]).
    assert (Hpos : (pending s =? 0) = false) by (apply Z.eqb_neq; lia).
    rewrite Hpos in Hcb. destruct Hcb as [Hcb Hq].
    split; [lia |].
    unfold notifyCompletion. rewrite Hm. cbn [negb andb].
    destruct (pending s2 =? 0) eqn:E0.
    + rewrite Hc2, Hcb. cbn [onAllMatchesComplete microtasks setCallback].
      rewrite Hq2, Hq. split; reflexivity.
    + rewrite Hc2, Hq2. split; assumption.
Qed.

Lemma runPage_roundOnPage (r : Z) (q0 : list Z) (ies : list (nat * Event)) :
  forall ps, roundOnPage r q0 ps -> roundOnPage r q0 (runPage ies ps).
Proof.
  induction ies as [| ie ies IH]; intros ps H; [exact H |].
  cbn [runPage fold_left]. apply IH. now apply handleAt_roundOnPage.
Qed.

Lemma handleAt_done (ie : nat * Event) (ps : list Match * World) (i : nat) :
  (done <$> fst (handleAt ie ps) !! i)
  = ((fun m => done m || validAt i [ie]) <$> fst ps !! i).
Proof.
  destruct ps as [ms s], ie as [j e]. unfold handleAt, validAt; cbn [fst snd existsb].
  rewrite orb_false_r.
  destruct (ms !! j) as [m |] eqn:Hj; cbn [fst].
  - pose proof (handle_stats e m s) as Hst. cbn zeta in Hst.
    destruct Hst as (_ & _ & _ & _ & Hst).
    destruct (Nat.eqb_spec j i) as [-> | Hne].
    + rewrite list_lookup_insert_eq by (now apply lookup_lt_Some in Hj).
      rewrite Hj. cbn [fmap option_fmap option_map andb].
      destruct (validScores e) as [[x y] |].
      * destruct Hst as (-> & _). now rewrite orb_true_r.
      * rewrite Hst. cbn [fst]. now rewrite orb_false_r.
    + rewrite list_lookup_insert_ne by exact Hne.
      destruct (ms !! i); cbn; [now rewrite orb_false_r | reflexivity].
  - destruct (Nat.eqb_spec j i) as [-> | Hne].
    + now rewrite Hj.
    + destruct (ms !! i); cbn; [now rewrite orb_false_r | reflexivity].
Qed.

Lemma runPage_done (ies : list (nat * Event)) : forall (ps : list Match * World) (i : nat),
  (done <$> fst (runPage ies ps) !! i)
  = ((fun m => done m || validAt i ies) <$> fst ps !! i).
Proof.
  induction ies as [| ie ies IH]; intros ps i.
  - cbn. destruct (fst ps !! i); cbn; [now rewrite orb_false_r | reflexivity].
  - cbn [runPage fold_left]. fold (runPage ies (handleAt ie ps)).
    rewrite IH. pose proof (handleAt_done ie ps i) as H.
    destruct (fst (handleAt ie ps) !! i) as [m1 |], (fst ps !! i) as [m0 |];
      cbn in H |- *; try discriminate; [| reflexivity].
    injection H as ->. f_equal. unfold validAt. cbn [existsb].
    rewrite orb_false_r, orb_assoc. reflexivity.
Qed.

(** X12: on a page of single-game elements whose open elements are
    bracket elements counted by [pending], with the callback of a round
    registered, any run of submissions and overrides on any elements
    keeps [pending] equal to the number of open elements; an element is
    done from its first valid event on. The callback is queued exactly
    once, by the event that closes the last open element: until then it
    stays registered and the queue is as it was, after that corrections
    queue nothing. *)
Theorem runPage_completes_once (r : Z) (ies : list (nat * Event)) (ms : list Match)
    (s : World) :
  (forall m, m ∈ ms -> m_bo3 m = false) ->
  (forall m, m ∈ ms -> done m = false -> m_isSwiss m = false) ->
  pending s = Z.of_nat (length (notDone ms)) ->
  0 < pending s ->
  onAllMatchesComplete s = Some r ->
  let ps' := runPage ies (ms, s) in
  pending (snd ps') = Z.of_nat (length (notDone (fst ps'))) /\
  (forall i, (done <$> fst ps' !! i) = ((fun m => done m || validAt i ies) <$> ms !! i)) /\
  match notDone (fst ps') with
  | [] => onAllMatchesComplete (snd ps') = None /\
          microtasks (snd ps') = microtasks s ++ [r]
  | _ :: _ => onAllMatchesComplete (snd ps') = Some r /\
              microtasks (snd ps') = microtasks s
  end.
Proof.
  intros _ Hbr Hp Hpos Hcb.
  assert (H0 : roundOnPage r (microtasks s) (ms, s)).
  { split; [exact Hbr |]. split; [exact Hp |]. cbn [snd].
    destruct (Z.eqb_spec (pending s) 0); [lia | split; [exact Hcb | reflexivity]]. }
  pose proof (runPage_roundOnPage r (microtasks s) ies (ms, s) H0) as (_ & Hp' & Hcb').
  cbn zeta. split; [exact Hp' |]. split; [intros i; apply (runPage_done ies (ms, s)) |].
  rewrite Hp' in Hcb'.
  destruct (notDone (fst (runPage ies (ms, s)))); cbn [length] in Hcb'; exact Hcb'.
Qed.

Lemma runPage_completes_once_witness :
  (forall m, m ∈ pageOfTwo -> m_bo3 m = false) /\
  (forall m, m ∈ pageOfTwo -> done m = false -> m_isSwiss m = false) /\
  pending worldRoundOpen = Z.of_nat (length (notDone pageOfTwo)) /\
  0 < pending worldRoundOpen /\
  onAllMatchesComplete worldRoundOpen = Some 3 /\
  let ps' := runPage eventsOfTwo (pageOfTwo, worldRoundOpen) in
  pending (snd ps') = Z.of_nat (length (notDone (fst ps'))) /\
  (forall i, (done <$> fst ps' !! i)
             = ((fun m => done m || validAt i eventsOfTwo) <$> pageOfTwo !! i)) /\
  match notDone (fst ps') with
  | [] => onAllMatchesComplete (snd ps') = None /\
          microtasks (snd ps') = microtasks worldRoundOpen ++ [3]
  | _ :: _ => onAllMatchesComplete (snd ps') = Some 3 /\
              microtasks (snd ps') = microtasks worldRoundOpen
  end.
Proof.
  assert (H : forall m, m ∈ pageOfTwo -> done m = false -> m_isSwiss m = false).
  { intros m Hin _. unfold pageOfTwo, bracketMatches in Hin. cbn [map] in Hin.
    repeat (apply elem_of_cons in Hin as [-> | Hin]; [reflexivity |]).
    inversion Hin. }
  assert (H3 : forall m, m ∈ pageOfTwo -> m_bo3 m = false).
  { intros m Hin. unfold pageOfTwo, bracketMatches in Hin. cbn [map] in Hin.
    repeat (apply elem_of_cons in Hin as [-> | Hin]; [reflexivity |]).
    inversion Hin. }
  split; [exact H3 |].
  split; [exact H |]. split; [reflexivity |]. split; [reflexivity |].
  split; [reflexivity |].
  apply (runPage_completes_once 3 eventsOfTwo pageOfTwo worldRoundOpen);
    [exact H3 | exact H | reflexivity | reflexivity | reflexivity].
Defined.

(** The run of [eventsOfTwo]: the callback is queued by the third event,
    and the correction of the first element has not touched [pending]. *)
Example runPage_example :
  let after n := runPage (take n eventsOfTwo) (pageOfTwo, worldRoundOpen) in
  map (fun n => (pending (snd (after n)), onAllMatchesComplete (snd (after n)),
                 microtasks (snd (after n))))
      [0; 1; 2; 3]%nat
  = [(2, Some 3, []); (1, Some 3, []); (1, Some 3, []); (0, None, [3])].
Proof. vm_compute. reflexivity. Qed.

(** ** What a Swiss round draws *)

Lemma poolPush_keys (key : Z * Z) (t : ref) (pools : Pools) :
  map fst (poolPush key t pools)
  = if decide (key ∈ map fst pools) then map fst pools else map fst pools ++ [key].
Proof.
  induction pools as [| [k ts] pools IH]; cbn [poolPush map fst app].
  - rewrite decide_False by (apply not_elem_of_nil). reflexivity.
  - destruct (bool_decide_reflect (k = key)) as [-> | Hne]; cbn [map fst].
    + rewrite decide_True by left. reflexivity.
    + rewrite IH. destruct (decide (key ∈ map fst pools)) as [Hin | Hnin].
      * rewrite decide_True by (right; exact Hin). reflexivity.
      * rewrite decide_False; [reflexivity |].
        intros Hin. apply elem_of_cons in Hin as [? | ?]; [congruence | contradiction].
Qed.

Lemma poolGet_poolPush (key : Z * Z) (t : ref) (pools : Pools) (k : Z * Z) :
  poolGet k (poolPush key t pools)
  = if decide (k = key) then Some (default [] (poolGet key pools) ++ [t])
    else poolGet k pools.
Proof.
  induction pools as [| [k0 ts] pools IH]; cbn [poolPush poolGet].
  - destruct (decide (k = key)) as [-> | Hne].
    + rewrite bool_decide_eq_true_2 by reflexivity. reflexivity.
    + rewrite bool_decide_eq_false_2 by congruence. reflexivity.
  - destruct (bool_decide_reflect (k0 = key)) as [-> | Hne0]; cbn [poolGet].
    + destruct (decide (k = key)) as [-> | Hne].
      * rewrite bool_decide_eq_true_2 by reflexivity. reflexivity.
      * rewrite bool_decide_eq_false_2 by congruence. reflexivity.
    + rewrite IH. destruct (bool_decide_reflect (k0 = k)) as [-> | Hne1].
      * rewrite decide_False by congruence. reflexivity.
      * reflexivity.
Qed.

Lemma groupPools_snoc (h : Heap) (ts : list ref) (t : ref) :
  groupPools h (ts ++ [t]) = poolPush (recordKey (h t)) t (groupPools h ts).
Proof. unfold groupPools. rewrite fold_left_app. reflexivity. Qed.

Lemma withRecord_snoc (h : Heap) (k : Z * Z) (ts : list ref) (t : ref) :
  withRecord h k (ts ++ [t])
  = withRecord h k ts ++ (if decide (k = recordKey (h t)) then [t] else []).
Proof.
  unfold withRecord. rewrite filter_app. f_equal.
  destruct (decide (k = recordKey (h t))) as [E | NE].
  - now rewrite filter_cons_True.
  - rewrite filter_cons_False; [reflexivity | congruence].
Qed.

(** The pool of a record is the teams of that record, in the order of the
    state; a record that no team has owns no pool. *)
Lemma poolGet_groupPools (h : Heap) (ts : list ref) (k : Z * Z) :
  poolGet k (groupPools h ts)
  = match withRecord h k ts with [] => None | p => Some p end.
Proof.
  induction ts as [| t ts IH] using rev_ind; [reflexivity |].
  rewrite groupPools_snoc, poolGet_poolPush, withRecord_snoc.
  destruct (decide (k = recordKey (h t))) as [E | NE].
  - rewrite <- E, IH.
    destruct (withRecord h k ts) as [| x xs]; reflexivity.
  - rewrite app_nil_r. exact IH.
Qed.

Lemma groupPools_keys (h : Heap) (ts : list ref) : NoDup (map fst (groupPools h ts)).
Proof.
  induction ts as [| t ts IH] using rev_ind; [constructor |].
  rewrite groupPools_snoc, poolPush_keys.
  destruct (decide (recordKey (h t) ∈ map fst (groupPools h ts))) as [Hin | Hnin];
    [exact IH |].
  apply NoDup_app. split; [exact IH |]. split.
  - intros x Hx Hx'. apply list_elem_of_singleton in Hx'. congruence.
  - apply NoDup_singleton.
Qed.

Lemma poolGet_elem (pools : Pools) (k : Z * Z) (p : list ref) :
  NoDup (map fst pools) -> (k, p) ∈ pools -> poolGet k pools = Some p.
Proof.
  induction pools as [| [k0 p0] pools IH]; intros Hnd Hin; [inversion Hin |].
  cbn [map fst] in Hnd. apply NoDup_cons in Hnd as [Hfresh Hnd].
  cbn [poolGet]. apply elem_of_cons in Hin as [Hin | Hin].
  - injection Hin as -> ->. now rewrite bool_decide_eq_true_2.
  - destruct (bool_decide_reflect (k0 = k)) as [-> | Hne]; [| now apply IH].
    exfalso. apply Hfresh. apply list_elem_of_fmap. exists (k, p). split; [reflexivity | exact Hin].
Qed.

Lemma groupPools_entry (h : Heap) (ts : list ref) (k : Z * Z) (p : list ref) :
  (k, p) ∈ groupPools h ts -> p = withRecord h k ts.
Proof.
  intros Hin. pose proof (poolGet_elem _ k p (groupPools_keys h ts) Hin) as H.
  rewrite poolGet_groupPools in H. destruct (withRecord h k ts); congruence.
Qed.

Lemma includesOpp_sameButMarks (h h' : Heap) (a b : ref) :
  sameButMarks h h' -> includesOpp h' a b = includesOpp h a b.
Proof.
  intros H. unfold includesOpp.
  destruct (H a) as (_ & _ & _ & -> & _). destruct (H b) as (-> & _). reflexivity.
Qed.

Lemma sameButMarks_refl (h : Heap) : sameButMarks h h.
Proof. intros t. repeat split. Qed.

Lemma sameButMarks_marks (h h' : Heap) (v : bool) (ts : list ref) :
  sameButMarks h h' -> sameButMarks h (forEachTeam (setPlayR4 v) ts h').
Proof.
  unfold forEachTeam. revert h'.
  induction ts as [| x ts IH]; intros h' H; cbn [fold_left]; [exact H |].
  apply IH. intros t. rewrite upd_at. destruct (H t) as (? & ? & ? & ? & ?).
  destruct (Nat.eqb t x); cbn [setPlayR4 name players swiss s_rec opps bracket];
    repeat split; assumption.
Qed.

Lemma pair_in_flatPairs (M : Pairing) (p : ref * ref) :
  p ∈ M -> fst p ∈ flatPairs M /\ snd p ∈ flatPairs M.
Proof.
  intros Hin. unfold flatPairs.
  split; apply list_elem_of_In, in_flat_map; exists p;
    (split; [apply list_elem_of_In; exact Hin | cbn; auto]).
Qed.

Lemma flatPairs_elem (M : Pairing) (x : ref) :
  x ∈ flatPairs M -> exists p, p ∈ M /\ (x = fst p \/ x = snd p).
Proof.
  unfold flatPairs. intros Hin. apply list_elem_of_In, in_flat_map in Hin as (p & Hp & Hx).
  exists p. split; [apply list_elem_of_In; exact Hp |].
  cbn in Hx. destruct Hx as [<- | [<- | []]]; auto.
Qed.

Lemma drawnFrom_member (s : World) (K : Z * Z -> Prop) (M : Pairing) (x : ref) :
  drawnFrom s K M -> x ∈ flatPairs M -> x ∈ teams s /\ K (recordKey (heap s x)).
Proof.
  intros [_ Hall] Hx. apply flatPairs_elem in Hx as (p & Hp & Hx).
  rewrite Forall_forall in Hall. destruct (Hall p Hp) as (Ha & Hb & Hk & HK & _).
  destruct Hx as [-> | ->]; [split; assumption |].
  split; [assumption | now rewrite <- Hk].
Qed.

Lemma drawnFrom_nil (s : World) (K : Z * Z -> Prop) : drawnFrom s K [].
Proof. split; constructor. Qed.

Lemma drawnFrom_weaken (s : World) (K K' : Z * Z -> Prop) (M : Pairing) :
  (forall k, K k -> K' k) -> drawnFrom s K M -> drawnFrom s K' M.
Proof.
  intros HK [Hnd Hall]. split; [exact Hnd |].
  eapply Forall_impl; [exact Hall |]. cbn. intros p (? & ? & ? & ? & ?).
  repeat split; auto.
Qed.

Lemma drawnFrom_app (s : World) (K1 K2 : Z * Z -> Prop) (M1 M2 : Pairing) :
  drawnFrom s K1 M1 -> drawnFrom s K2 M2 -> (forall k, K1 k -> K2 k -> False) ->
  drawnFrom s (fun k => K1 k \/ K2 k) (M1 ++ M2).
Proof.
  intros H1 H2 Hdisj. split.
  - rewrite flatPairs_app. apply NoDup_app. split; [apply H1 |]. split; [| apply H2].
    intros x Hx1 Hx2.
    destruct (drawnFrom_member s K1 M1 x H1 Hx1) as [_ Hk1].
    destruct (drawnFrom_member s K2 M2 x H2 Hx2) as [_ Hk2].
    exact (Hdisj _ Hk1 Hk2).
  - apply Forall_app. split.
    + apply (drawnFrom_weaken s K1 (fun k => K1 k \/ K2 k) M1); [auto | exact H1].
    + apply (drawnFrom_weaken s K2 (fun k => K1 k \/ K2 k) M2); [auto | exact H2].
Qed.

(** The pairs that the search returns for a pool of teams of one record,
    on a heap that differs from the one of [s] in marks only. *)
Lemma swissPair_drawn (s : World) (h' : Heap) (k : Z * Z) (p : list ref) :
  sameButMarks (heap s) h' ->
  (forall x, x ∈ p -> x ∈ teams s /\ recordKey (heap s x) = k) ->
  drawnFrom s (fun k' => k' = k) (swissPair h' p).
Proof.
  intros Hsame Hp.
  destruct (swissPair_cases h' p) as [-> | [[Hnd Hperm] Hall]]; [apply drawnFrom_nil |].
  split; [exact Hnd |].
  rewrite Forall_forall in Hall |- *. intros q Hq.
  destruct (pair_in_flatPairs _ q Hq) as [Ha Hb].
  rewrite Hperm in Ha, Hb.
  destruct (Hp _ Ha) as [Hta Hka]. destruct (Hp _ Hb) as [Htb Hkb].
  repeat split; try assumption; [congruence |].
  rewrite <- (includesOpp_sameButMarks (heap s) h') by exact Hsame.
  apply (Hall q Hq).
Qed.

Lemma withRecord_member (h : Heap) (k : Z * Z) (ts : list ref) (x : ref) :
  x ∈ withRecord h k ts -> x ∈ ts /\ recordKey (h x) = k.
Proof. unfold withRecord. intros H. apply list_elem_of_filter in H. tauto. Qed.

Lemma roundSoFar_weaken (s : World) (K K' : Z * Z -> Prop) (s1 : World) :
  (forall k, K k -> K' k) -> roundSoFar s K s1 -> roundSoFar s K' s1.
Proof.
  intros HK (new & Hc & Hp & Hf & Hd & Hrest). exists new.
  split; [exact Hc |]. split; [exact Hp |]. split; [exact Hf |].
  split; [apply (drawnFrom_weaken s K K' _ HK Hd) | exact Hrest].
Qed.

Lemma roundSoFar_init (s : World) :
  roundSoFar s (fun _ => False) (setPending 0 (incrementSwissRound s)).
Proof.
  exists []. cbn. rewrite app_nil_r.
  split; [reflexivity |]. split; [reflexivity |]. split; [constructor |].
  split; [apply drawnFrom_nil |].
  split; [intros m Hm; inversion Hm |].
  repeat split.
Qed.

Lemma roundSoFar_marks (s : World) (K : Z * Z -> Prop) (s1 : World) (v : bool)
    (ts : list ref) :
  roundSoFar s K s1 ->
  roundSoFar s K (setHeap (forEachTeam (setPlayR4 v) ts (heap s1)) s1).
Proof.
  intros (new & Hc & Hp & Hf & Hd & Hb & Hs & Hrest). exists new.
  cbn [setHeap content pending heap swissRound teams allPlayers week bracketRounds
       onAllMatchesComplete microtasks].
  split; [exact Hc |]. split; [exact Hp |]. split; [exact Hf |]. split; [exact Hd |].
  split; [exact Hb |].
  split; [apply (sameButMarks_marks (heap s) (heap s1) v ts Hs) | exact Hrest].
Qed.

Lemma pairsOf_made (mk : ref -> ref -> bool -> Match) (M : Pairing) :
  mk = makeMatch \/ mk = makeBo3Match ->
  pairsOf (map (fun p => mk (fst p) (snd p) true) M) = M /\
  Forall freshSwissMatch (map (fun p => mk (fst p) (snd p) true) M).
Proof.
  intros Hmk. split.
  - unfold pairsOf. rewrite map_map. rewrite <- (map_id M) at 2.
    apply map_ext. intros [a b]. destruct Hmk as [-> | ->]; reflexivity.
  - apply Forall_forall. intros m Hm. apply list_elem_of_fmap in Hm as (p & -> & _).
    destruct Hmk as [-> | ->]; repeat split.
Qed.

Lemma pairsOf_app (ms1 ms2 : list Match) : pairsOf (ms1 ++ ms2) = pairsOf ms1 ++ pairsOf ms2.
Proof. unfold pairsOf. apply map_app. Qed.

Lemma roundSoFar_step (s : World) (K : Z * Z -> Prop) (k : Z * Z)
    (mk : ref -> ref -> bool -> Match) (p : list ref) (s1 : World) :
  roundSoFar s K s1 ->
  (forall x, x ∈ p -> x ∈ teams s /\ recordKey (heap s x) = k) ->
  ~ K k ->
  (mk = makeMatch \/
   (mk = makeBo3Match /\ swissRound s1 = 3 /\ (k = (2, 0) \/ k = (0, 2)))) ->
  roundSoFar s (fun k' => K k' \/ k' = k) (createMatches mk (swissPair (heap s1) p) s1).
Proof.
  intros (new & Hc & Hp & Hf & Hd & Hb & Hs & Hr & Ht & Hpl & Hw & Hbr & Hcb & Hq)
         Hpool HK Hmk.
  set (M := swissPair (heap s1) p).
  pose proof (swissPair_drawn s (heap s1) k p Hs Hpool) as HM. fold M in HM.
  assert (Hmk' : mk = makeMatch \/ mk = makeBo3Match) by tauto.
  destruct (pairsOf_made mk M Hmk') as [Hpairs Hfresh].
  destruct (createMatches_frame mk M s1)
    as (Hw' & Ht' & Hpl' & Hr' & Hbr' & Hh' & _ & Hp' & Hc').
  destruct (createMatches_callback mk M s1) as [Hcb' Hq'].
  exists (new ++ map (fun q => mk (fst q) (snd q) true) M).
  split; [rewrite Hc', Hc; now rewrite app_assoc |].
  split; [rewrite Hp', Hp, length_app, length_map; lia |].
  split; [apply Forall_app; split; assumption |].
  split.
  { rewrite pairsOf_app, Hpairs. apply (drawnFrom_app s K (fun k' => k' = k)); try assumption.
    intros k0 HK0 ->. exact (HK HK0). }
  split.
  { intros m Hm Hbo. rewrite Hr'. apply elem_of_app in Hm as [Hm | Hm]; [now apply Hb |].
    apply list_elem_of_fmap in Hm as (q & -> & Hq0).
    destruct Hmk as [-> | (-> & Hr3 & Hk)]; [discriminate Hbo |].
    split; [exact Hr3 |]. cbn [makeBo3Match m_a].
    destruct (pair_in_flatPairs M q Hq0) as [Ha _].
    destruct (drawnFrom_member s _ M _ HM Ha) as [_ ->]. exact Hk. }
  rewrite Hh', Hr', Ht', Hpl', Hw', Hbr', Hcb', Hq'.
  split; [exact Hs |]. repeat split; assumption.
Qed.

Lemma roundSoFar_pairPool (s : World) (K : Z * Z -> Prop) (k : Z * Z)
    (mk : ref -> ref -> bool -> Match) (s1 : World) :
  roundSoFar s K s1 -> ~ K k ->
  (mk = makeMatch \/
   (mk = makeBo3Match /\ swissRound s1 = 3 /\ (k = (2, 0) \/ k = (0, 2)))) ->
  roundSoFar s (fun k' => K k' \/ k' = k)
             (pairPool mk (poolGet k (groupPools (heap s) (teams s))) s1).
Proof.
  intros H HK Hmk. rewrite poolGet_groupPools.
  destruct (withRecord (heap s) k (teams s)) as [| x xs] eqn:E; cbn [pairPool].
  - apply (roundSoFar_weaken s K); [auto | exact H].
  - apply roundSoFar_step; try assumption.
    intros y Hy. rewrite <- E in Hy. now apply withRecord_member.
Qed.

Lemma roundSoFar_pools (s : World) (pools : Pools) : forall (K : Z * Z -> Prop) (s1 : World),
  roundSoFar s K s1 ->
  NoDup (map fst pools) ->
  (forall k p, (k, p) ∈ pools -> ~ K k /\ p = withRecord (heap s) k (teams s)) ->
  roundSoFar s (fun _ => True)
    (fold_left (fun acc '(_, p) => createMatches makeMatch (swissPair (heap acc) p) acc)
               pools s1).
Proof.
  induction pools as [| [k p] pools IH]; intros K s1 H Hnd Hent; cbn [fold_left].
  - apply (roundSoFar_weaken s K); [auto | exact H].
  - cbn [map fst] in Hnd. apply NoDup_cons in Hnd as [Hfresh Hnd].
    destruct (Hent k p) as [HK ->]; [left |].
    apply (IH (fun k' => K k' \/ k' = k)).
    + apply roundSoFar_step; try assumption; [| now left].
      intros y Hy. now apply withRecord_member.
    + exact Hnd.
    + intros k' p' Hin. destruct (Hent k' p') as [HK' ->]; [right; exact Hin |].
      split; [| reflexivity]. intros [HKk | ->]; [exact (HK' HKk) |].
      apply Hfresh. apply list_elem_of_fmap. exists (k, withRecord (heap s) k (teams s)).
      split; [reflexivity | exact Hin].
Qed.

Lemma hasRecord_key (h : Heap) (rw rl : Z) (t : ref) :
  hasRecord h rw rl t = true -> recordKey (h t) = (rw, rl).
Proof.
  unfold hasRecord, recordKey. intros H. apply andb_true_iff in H as [Hw Hl].
  apply Z.eqb_eq in Hw, Hl. congruence.
Qed.

Lemma roundSoFar_round (s s1 : World) (K : Z * Z -> Prop) :
  roundSoFar s K s1 -> swissRound s1 = swissRound s + 1.
Proof. intros (new & _ & _ & _ & _ & _ & _ & Hr & _). exact Hr. Qed.

Lemma nextSwissRound_roundSoFar (s : World) :
  pending s <= 0 -> roundSoFar s (fun _ => True) (nextSwissRound s).
Proof.
  intros Hp. unfold nextSwissRound.
  destruct (Z.ltb_spec 0 (pending s)) as [? | _]; [lia |].
  pose proof (roundSoFar_init s) as H1.
  set (s1 := setPending 0 (incrementSwissRound s)) in *.
  change (teams s1) with (teams s). change (heap s1) with (heap s).
  assert (Hr1 : swissRound s1 = swissRound s + 1) by reflexivity.
  destruct (teams s) as [| t0 ts0] eqn:Ets.
  { apply (roundSoFar_weaken s (fun _ => False)); [tauto | exact H1]. }
  rewrite <- Ets.
  destruct (Z.eqb_spec (swissRound s1) 3) as [E3 | N3].
  - (* round 3 *)
    pose proof (roundSoFar_pairPool s _ (2, 0) makeBo3Match s1 H1 (fun F => F)
                  (or_intror (conj eq_refl (conj E3 (or_introl eq_refl))))) as H2.
    set (s2 := pairPool makeBo3Match _ s1) in *.
    set (K2 := fun k' : Z * Z => False \/ k' = (2, 0)) in *.
    assert (H3 : roundSoFar s (fun k' => K2 k' \/ k' = (1, 1))
                   match poolGet (1, 1) (groupPools (heap s) (teams s)) with
                   | Some ts =>
                       createMatches makeMatch
                         (swissPair (heap (setHeap (forEachTeam (setPlayR4 true) ts (heap s2)) s2))
                                    ts)
                         (setHeap (forEachTeam (setPlayR4 true) ts (heap s2)) s2)
                   | None => s2
                   end).
    { rewrite poolGet_groupPools.
      destruct (withRecord (heap s) (1, 1) (teams s)) as [| x xs] eqn:E.
      - apply (roundSoFar_weaken s K2); [auto | exact H2].
      - apply roundSoFar_step.
        + apply roundSoFar_marks. exact H2.
        + intros y Hy. rewrite <- E in Hy. now apply withRecord_member.
        + unfold K2. intros [[] | [=]].
        + now left. }
    set (s3 := match poolGet (1, 1) _ with Some _ => _ | None => _ end) in *.
    apply (roundSoFar_weaken s (fun k' => (K2 k' \/ k' = (1, 1)) \/ k' = (0, 2))); [auto |].
    apply roundSoFar_pairPool.
    + exact H3.
    + unfold K2. intros [[[] | [=]] | [=]].
    + right. split; [reflexivity |]. split; [| now right].
      rewrite (roundSoFar_round s s3 _ H3). lia.
  - destruct (Z.eqb_spec (swissRound s1) 4) as [E4 | N4].
    + (* round 4 *)
      set (r4teams := filter _ (teams s)).
      destruct (length r4teams =? 4)%nat.
      2:{ apply (roundSoFar_weaken s (fun _ => False)); [tauto | exact H1]. }
      set (winners := filter (fun t => hasRecord (heap s) 2 1 t = true) r4teams).
      set (losers := filter (fun t => hasRecord (heap s) 1 2 t = true) r4teams).
      assert (Hw : forall x, x ∈ winners -> x ∈ teams s /\ recordKey (heap s x) = (2, 1)).
      { intros x Hx. apply list_elem_of_filter in Hx as [Hrec Hx].
        apply list_elem_of_filter in Hx as [_ Hx]. split; [exact Hx |].
        now apply hasRecord_key. }
      assert (Hl : forall x, x ∈ losers -> x ∈ teams s /\ recordKey (heap s x) = (1, 2)).
      { intros x Hx. apply list_elem_of_filter in Hx as [Hrec Hx].
        apply list_elem_of_filter in Hx as [_ Hx]. split; [exact Hx |].
        now apply hasRecord_key. }
      set (K1 := fun k' : Z * Z => False \/ k' = (2, 1)).
      assert (H2 : roundSoFar s K1
                     (if (length winners =? 2)%nat
                      then createMatches makeMatch (swissPair (heap s1) winners) s1
                      else s1)).
      { destruct (length winners =? 2)%nat.
        - apply roundSoFar_step; [exact H1 | exact Hw | tauto | now left].
        - apply (roundSoFar_weaken s (fun _ => False)); [tauto | exact H1]. }
      set (s2 := if (length winners =? 2)%nat then _ else _) in *.
      assert (H3 : roundSoFar s (fun k' => K1 k' \/ k' = (1, 2))
                     (if (length losers =? 2)%nat
                      then createMatches makeMatch (swissPair (heap s2) losers) s2
                      else s2)).
      { destruct (length losers =? 2)%nat.
        - apply roundSoFar_step; [exact H2 | exact Hl | | now left].
          unfold K1. intros [[] | [=]].
        - apply (roundSoFar_weaken s K1); [auto | exact H2]. }
      apply (roundSoFar_weaken s (fun k' => K1 k' \/ k' = (1, 2))); [auto |].
      apply roundSoFar_marks. exact H3.
    + (* rounds 1 and 2, and any round after the fourth *)
      apply (roundSoFar_pools s _ (fun _ => False)); [exact H1 | apply groupPools_keys |].
      intros k p Hin. split; [tauto |]. now apply groupPools_entry.
Qed.

(** X13: an advance that is not blocked ([pending] at most 0) moves the
    round counter up by one, whatever the round, and leaves [pending] at
    the number of elements it has appended. The elements are fresh Swiss
    elements; no team is in two of them; the two teams of an element are
    teams of the state with the same win-loss record, and the second has
    not been recorded as an opponent of the first. A best-of-3 element
    is made only in round 3 and only for teams at 2-0 or 0-2. Of the team
    objects nothing changes but round-4 marks; teams, players, week,
    bracket rounds, callback and queue are untouched. *)
Theorem nextSwissRound_draws (s : World) :
  pending s <= 0 ->
  let s' := nextSwissRound s in
  exists new,
    content s' = content s ++ new /\
    pending s' = Z.of_nat (length new) /\
    swissRound s' = swissRound s + 1 /\
    Forall freshSwissMatch new /\
    NoDup (flatPairs (pairsOf new)) /\
    (forall m, m ∈ new ->
       m_a m ∈ teams s /\ m_b m ∈ teams s /\
       recordKey (heap s (m_a m)) = recordKey (heap s (m_b m)) /\
       includesOpp (heap s) (m_a m) (m_b m) = false /\
       (m_bo3 m = true ->
        swissRound s' = 3 /\
        (recordKey (heap s (m_a m)) = (2, 0) \/ recordKey (heap s (m_a m)) = (0, 2)))) /\
    sameButMarks (heap s) (heap s') /\
    teams s' = teams s /\ allPlayers s' = allPlayers s /\ week s' = week s /\
    bracketRounds s' = bracketRounds s /\
    onAllMatchesComplete s' = onAllMatchesComplete s /\ microtasks s' = microtasks s.
Proof.
  intros Hp.
  destruct (nextSwissRound_roundSoFar s Hp)
    as (new & Hc & Hpn & Hf & [Hnd Hall] & Hb & Hs & Hr & Hrest).
  exists new. cbn zeta.
  split; [exact Hc |]. split; [exact Hpn |]. split; [exact Hr |]. split; [exact Hf |].
  split; [exact Hnd |]. split; [| split; [exact Hs | exact Hrest]].
  intros m Hm. rewrite Forall_forall in Hall.
  destruct (Hall (m_a m, m_b m)) as (Ha & Hb' & Hk & _ & Hi).
  { unfold pairsOf. apply list_elem_of_fmap. exists m. split; [reflexivity | exact Hm]. }
  cbn [fst snd] in *.
  split; [exact Ha |]. split; [exact Hb' |]. split; [exact Hk |]. split; [exact Hi |].
  intros Hbo. exact (Hb m Hm Hbo).
Qed.

Lemma nextSwissRound_draws_witness :
  pending worldStart <= 0 /\
  exists new,
    content (nextSwissRound worldStart) = content worldStart ++ new /\
    pending (nextSwissRound worldStart) = Z.of_nat (length new) /\
    swissRound (nextSwissRound worldStart) = 1 /\
    NoDup (flatPairs (pairsOf new)) /\
    length new = 4%nat.
Proof.
  split; [cbn; lia |].
  destruct (nextSwissRound_draws worldStart) as (new & Hc & Hp & Hr & _ & Hnd & _);
    [cbn; lia |].
  exists new. repeat split; try assumption.
  assert (E : pending (nextSwissRound worldStart) = 4) by (vm_compute; reflexivity).
  lia.
Defined.

Lemma pairPool_heap mk p s : heap (pairPool mk p s) = heap s.
Proof. destruct p; cbn [pairPool]; [apply createMatches_heap | reflexivity]. Qed.

(** X14: the round-3 advance marks for round 4 exactly the teams of the
    state that stand at 1-1 when it runs, whether or not they could be
    paired; the mark of any other team is what it was. *)
Theorem nextSwissRound_round3_marks (s : World) (t : ref) :
  pending s <= 0 -> swissRound s = 2 -> teams s <> [] ->
  playR4 (swiss (heap (nextSwissRound s) t))
  = if decide (t ∈ withRecord (heap s) (1, 1) (teams s)) then true
    else playR4 (swiss (heap s t)).
Proof.
  intros Hp Hr Hts. unfold nextSwissRound.
  destruct (Z.ltb_spec 0 (pending s)) as [? | _]; [lia |].
  set (s1 := setPending 0 (incrementSwissRound s)).
  assert (Hs1 : swissRound s1 = 3) by (cbn; lia).
  change (teams s1) with (teams s). change (heap s1) with (heap s).
  destruct (teams s) as [| t0 ts0] eqn:Ets; [contradiction |].
  rewrite <- Ets, Hs1. change (3 =? 3) with true. cbv iota.
  rewrite pairPool_heap, poolGet_groupPools.
  destruct (withRecord (heap s) (1, 1) (teams s)) as [| x xs] eqn:E.
  - rewrite pairPool_heap. rewrite decide_False by apply not_elem_of_nil. reflexivity.
  - rewrite createMatches_heap. cbn [heap setHeap].
    rewrite forEachTeam_playR4, pairPool_heap. reflexivity.
Qed.

Lemma nextSwissRound_round3_marks_witness :
  pending worldRound2Done <= 0 /\ swissRound worldRound2Done = 2 /\
  teams worldRound2Done <> [] /\
  map (fun t => playR4 (swiss (heap (nextSwissRound worldRound2Done) t))) [0; 1; 2; 3]%nat
  = [false; true; true; false].
Proof.
  split; [cbn; lia |]. split; [reflexivity |]. split; [discriminate |].
  cbn [map].
  rewrite !(nextSwissRound_round3_marks worldRound2Done)
    by (cbn; first [lia | reflexivity | discriminate]).
  reflexivity.
Defined.

(** X25: there is no bye. A pool that [swissPair] pairs at all names no
    team twice and has an even number of teams, twice the number of
    pairs returned; so a pool of odd size, or one that names a team
    twice, gets no pair, and its teams have no element in the round. *)
Theorem swissPair_no_bye (h : Heap) (pool : list ref) :
  (swissPair h pool = [] \/
   (NoDup pool /\ length pool = (2 * length (swissPair h pool))%nat)) /\
  (Nat.odd (length pool) = true -> swissPair h pool = []) /\
  (~ NoDup pool -> swissPair h pool = []).
Proof.
  assert (H : swissPair h pool = [] \/
              (NoDup pool /\ length pool = (2 * length (swissPair h pool))%nat)).
  { destruct (swissPair_cases h pool) as [E | [HM _]]; [now left | right].
    split; [| now apply perfectMatching_even].
    destruct HM as [Hnd Hperm]. now rewrite <- Hperm. }
  split; [exact H |]. split.
  - intros Hodd. destruct H as [E | [_ Hlen]]; [exact E |].
    rewrite Hlen, Nat.odd_mul in Hodd. discriminate Hodd.
  - intros Hdup. destruct H as [E | [Hnd _]]; [exact E | contradiction].
Qed.

(** ** Week finalization and the weeks of the league *)

Lemma pairAwards_positive (h : Heap) (pairs : Pairing) : forall i aws,
  pairAwards h i pairs = Some aws ->
  forall aw, aw ∈ aws -> 0 < fst (fst aw).
Proof.
  induction pairs as [| [a b] pairs IH]; intros i aws; cbn [pairAwards].
  - intros [= <-] aw Hin. inversion Hin.
  - destruct (hiPts i) as [hp |] eqn:Ehp; cbn [mbind option_bind]; [| discriminate].
    destruct (loPts i) as [lp |] eqn:Elp; cbn [mbind option_bind]; [| discriminate].
    destruct (pairAwards h (S i) pairs) as [tl |] eqn:Etl; cbn [mbind option_bind];
      [| discriminate].
    intros [= <-] aw Hin.
    assert (Hpos : 0 < hp /\ 0 < lp).
    { unfold hiPts, loPts, BRACKET_BASE_POINTS, FIRST_PLACE_BONUS, LOSER_POINT_PENALTY in *.
      destruct i as [| [| [| [| i]]]]; cbn in Ehp, Elp; try discriminate;
        injection Ehp as <-; injection Elp as <-; lia. }
    apply elem_of_app in Hin as [Hin | Hin];
      [| apply elem_of_app in Hin as [Hin | Hin]].
    + unfold teamAwards in Hin. apply list_elem_of_fmap in Hin as (n & -> & _). apply Hpos.
    + unfold teamAwards in Hin. apply list_elem_of_fmap in Hin as (n & -> & _). apply Hpos.
    + apply (IH _ _ Etl aw Hin).
Qed.

Lemma fold_addAward_keeps (h : Heap) (aws : list Award) : forall p,
  (forall aw, aw ∈ aws -> 0 < fst (fst aw)) ->
  let p' := fold_left (addAward h) aws p in
  p_name p' = p_name p /\ p_team p' = p_team p /\ pts (league p) <= pts (league p').
Proof.
  induction aws as [| aw aws IH]; intros p Hpos; cbn [fold_left].
  - repeat split. lia.
  - destruct (IH (addAward h p aw)) as (Hn & Ht & Hp).
    { intros aw' Hin. apply Hpos. now right. }
    cbn zeta. rewrite Hn, Ht. repeat split.
    pose proof (Hpos aw (list_elem_of_here _ _)) as H0.
    cbn [addAward addLeague league pts] in Hp. lia.
Qed.

Lemma filter_none {A} (P : A -> Prop) `{forall x, Decision (P x)} (l : list A) :
  (forall x, x ∈ l -> ~ P x) -> filter P l = [].
Proof.
  induction l as [| x l IH]; intros Hnot; [reflexivity |].
  rewrite filter_cons_False by (apply Hnot; left).
  apply IH. intros y Hy. apply Hnot. now right.
Qed.

(** X15: [finalizeWeek] on a round 3 of one to four pairs keeps the list
    of players position by position: every player keeps name and team,
    and no league total goes down. A player whose name is on no roster of
    round 3, or is there but resolves to an earlier player of the same
    name, keeps the whole record. *)
Theorem finalizeWeek_keeps_players (s : World) (pairs : Pairing) :
  bracketRounds s !! 2%nat = Some pairs -> pairs <> [] -> (length pairs <= 4)%nat ->
  exists s',
    finalizeWeek s = Some s' /\
    length (allPlayers s') = length (allPlayers s) /\
    forall (k : nat) (p : Player),
      allPlayers s !! k = Some p ->
      exists p',
        allPlayers s' !! k = Some p' /\
        p_name p' = p_name p /\ p_team p' = p_team p /\
        pts (league p) <= pts (league p') /\
        ((forall n, n ∈ rosterNames (heap s) pairs ->
                    findPlayerByName n (allPlayers s) <> Some k) ->
         p' = p).
Proof.
  intros H3 Hne Hlen.
  destruct (finalizeWeek_league_records s pairs H3 Hne Hlen) as (s' & aws & Hfin & Haws & Hrec).
  exists s'. split; [exact Hfin |].
  assert (Hnames : map p_name (allPlayers s') = map p_name (allPlayers s)).
  { destruct (finalizeWeek_unfold s pairs H3 Hne Hlen) as (aws' & _ & E).
    rewrite E in Hfin. injection Hfin as <-. cbn [setHeap allPlayers].
    apply fold_giveAward_frame. }
  split; [rewrite <- (length_map p_name), Hnames; apply length_map |].
  intros k p Hk. rewrite Hrec, Hk. cbn [fmap option_fmap option_map].
  eexists. split; [reflexivity |].
  pose proof (pairAwards_positive (heap s) pairs 0 aws Haws) as Hpos.
  destruct (fold_addAward_keeps (heap s) (awardsFor (allPlayers s) k aws) p) as (Hn & Ht & Hp).
  { intros aw Hin. apply Hpos. unfold awardsFor in Hin.
    apply list_elem_of_filter in Hin. tauto. }
  repeat split; try assumption.
  intros Hnot.
  assert (E : awardsFor (allPlayers s) k aws = []).
  { unfold awardsFor. apply filter_none. intros aw Hin Hfind.
    apply (Hnot (snd aw)); [| exact Hfind].
    rewrite <- (pairAwards_names (heap s) pairs 0 aws Haws).
    apply list_elem_of_fmap. exists aw. split; [reflexivity | exact Hin]. }
  rewrite E. reflexivity.
Qed.

Lemma finalizeWeek_keeps_players_witness :
  bracketRounds worldBracketDone !! 2%nat = Some round3 /\ round3 <> [] /\
  (length round3 <= 4)%nat /\
  exists s',
    finalizeWeek worldBracketDone = Some s' /\
    length (allPlayers s') = length (allPlayers worldBracketDone) /\
    forall (k : nat) (p : Player),
      allPlayers worldBracketDone !! k = Some p ->
      exists p',
        allPlayers s' !! k = Some p' /\
        p_name p' = p_name p /\ p_team p' = p_team p /\
        pts (league p) <= pts (league p') /\
        ((forall n, n ∈ rosterNames (heap worldBracketDone) round3 ->
                    findPlayerByName n (allPlayers worldBracketDone) <> Some k) ->
         p' = p).
Proof.
  split; [reflexivity |]. split; [discriminate |]. split; [cbn; lia |].
  apply (finalizeWeek_keeps_players worldBracketDone round3);
    [reflexivity | discriminate | cbn; lia].
Defined.

Lemma nextWeek_week (s : World) :
  week s <= TOTAL_WEEKS -> week (nextWeek s) = Z.min TOTAL_WEEKS (week s + 1).
Proof.
  intros H. unfold nextWeek, isLeagueComplete.
  destruct (Z.leb_spec TOTAL_WEEKS (week s)); cbn [week clearContent setSwissRound setWeek]; lia.
Qed.

Lemma nextWeek_frame (s : World) :
  pending (nextWeek s) = pending s /\ teams (nextWeek s) = teams s /\
  allPlayers (nextWeek s) = allPlayers s /\ heap (nextWeek s) = heap s /\
  bracketRounds (nextWeek s) = bracketRounds s /\
  onAllMatchesComplete (nextWeek s) = onAllMatchesComplete s.
Proof. unfold nextWeek. destruct (isLeagueComplete s); repeat split. Qed.

(** X16: the week counter saturates at [TOTAL_WEEKS]: from a week of at
    most 15, [n] calls of [nextWeek] lead to week [min 15 (week + n)],
    and from week 15 on a call changes nothing at all. No call touches
    [pending], the teams and their records, the players, the bracket
    rounds or the callback. *)
Theorem nextWeek_saturates (s : World) (n : nat) :
  week s <= TOTAL_WEEKS ->
  let s' := Nat.iter n nextWeek s in
  week s' = Z.min TOTAL_WEEKS (week s + Z.of_nat n) /\
  (TOTAL_WEEKS <= week s -> s' = s) /\
  pending s' = pending s /\ teams s' = teams s /\ allPlayers s' = allPlayers s /\
  heap s' = heap s /\ bracketRounds s' = bracketRounds s /\
  onAllMatchesComplete s' = onAllMatchesComplete s.
Proof.
  intros Hw. cbn zeta. induction n as [| n IH].
  - change (Nat.iter 0 nextWeek s) with s. repeat split. lia.
  - change (Nat.iter (S n) nextWeek s) with (nextWeek (Nat.iter n nextWeek s)).
    destruct IH as (Hweek & Hfix & Hp & Ht & Hpl & Hh & Hb & Hc).
    destruct (nextWeek_frame (Nat.iter n nextWeek s)) as (-> & -> & -> & -> & -> & ->).
    split; [| split]; [| | repeat split; assumption].
    + rewrite nextWeek_week by lia. lia.
    + intros Hge. rewrite (Hfix Hge). unfold nextWeek, isLeagueComplete.
      destruct (Z.leb_spec TOTAL_WEEKS (week s)); [reflexivity | lia].
Qed.

Lemma nextWeek_saturates_witness :
  week worldBracketDone <= TOTAL_WEEKS /\
  week (Nat.iter 20 nextWeek worldBracketDone) = 15 /\
  week (Nat.iter 3 nextWeek worldBracketDone) = 4.
Proof.
  assert (H : week worldBracketDone <= TOTAL_WEEKS) by (unfold TOTAL_WEEKS; cbn; lia).
  split; [exact H |].
  split.
  - destruct (nextWeek_saturates worldBracketDone 20 H) as [-> _]. reflexivity.
  - destruct (nextWeek_saturates worldBracketDone 3 H) as [-> _]. reflexivity.
Defined.

(** ** The phase label *)

Lemma finalizeWeek_swissRound (s s' : World) :
  finalizeWeek s = Some s' -> swissRound s' = swissRound s.
Proof.
  unfold finalizeWeek.
  destruct (bracketRounds s !! 2%nat) as [[| ab pairs] |]; try (intros [= <-]; reflexivity).
  rewrite awardPairs_fold.
  destruct (pairAwards (heap s) 0 (ab :: pairs)) as [aws |];
    cbn [fmap option_fmap option_map mbind option_bind]; [| discriminate].
  intros [= <-]. cbn [setHeap swissRound]. apply fold_giveAward_frame.
Qed.

Lemma runBracketRound_swissRound (roundNum : Z) (s s' : World) :
  runBracketRound roundNum s = Ran s' -> swissRound s' = swissRound s.
Proof.
  destruct (roundAt roundNum (bracketRounds s)) as [[| p pairs] |] eqn:Hr;
    try (unfold runBracketRound; rewrite Hr; discriminate).
  destruct (runBracketRound_ran roundNum s (p :: pairs) Hr) as (s1 & -> & H);
    [discriminate |].
  intros [= <-]. apply H.
Qed.

Lemma generateNextBracketRound_swissRound (roundNum : Z) (s s' : World) :
  generateNextBracketRound roundNum s = Some (Ran s') -> swissRound s' = swissRound s.
Proof.
  unfold generateNextBracketRound.
  destruct (roundAt roundNum (bracketRounds s)) as [pairs |];
    cbn [mbind option_bind]; [| discriminate].
  destruct (map (bracketWinner (heap s)) pairs) as [| w0 [| w1 [| w2 [| w3 ws]]]];
    try discriminate.
  destruct (map (bracketLoser (heap s)) pairs) as [| l0 [| l1 [| l2 [| l3 ls]]]];
    try discriminate.
  intros [= H]. apply runBracketRound_swissRound in H.
  rewrite H. now destruct (roundNum =? 1).
Qed.

(** X17: the phase label is a function of the round counter alone while
    the counter is between 0 and 4, and no function of the bracket moves
    the counter: from the fourth Swiss round through [startBracket], the
    rounds of the bracket and [finalizeWeek] the label stays
    [Swiss Round 4]. The label of the bracket is returned only for a
    counter outside 0..4. *)
Theorem getCurrentPhase_during_bracket
    (sort : (ref -> ref -> Z) -> list ref -> list ref) (s s' : World) :
  swissRound s = SWISS_ROUNDS ->
  startBracket sort s = Some (Ran s') \/
  (exists roundNum, generateNextBracketRound roundNum s = Some (Ran s')) \/
  (exists roundNum, roundCallback roundNum s = Some (Ran s')) \/
  finalizeWeek s = Some s' ->
  getCurrentPhase s' = SwissRoundLabel SWISS_ROUNDS /\
  getCurrentPhase s' = getCurrentPhase s /\
  (forall s0, getCurrentPhase s0 = PlacementBracket ->
              swissRound s0 < 0 \/ SWISS_ROUNDS < swissRound s0).
Proof.
  intros Hr Hstep.
  assert (Hlabel : forall s0, swissRound s0 = SWISS_ROUNDS ->
                              getCurrentPhase s0 = SwissRoundLabel SWISS_ROUNDS).
  { intros s0 E. unfold getCurrentPhase. rewrite E. reflexivity. }
  assert (Hsame : swissRound s' = swissRound s).
  { destruct Hstep as [H | [[r H] | [[r H] | H]]].
    - unfold startBracket in H.
      destruct (length (teams s) <? 8)%nat; [discriminate |].
      destruct (sortTeamsBySwiss sort s (teams s))
        as [| s0 [| s1 [| s2 [| s3 [| s4 [| s5 [| s6 [| s7 rest]]]]]]]]; try discriminate.
      injection H as <-. reflexivity.
    - now apply generateNextBracketRound_swissRound in H.
    - unfold roundCallback in H. destruct (r <? BRACKET_ROUND_COUNT).
      + now apply generateNextBracketRound_swissRound in H.
      + destruct (finalizeWeek s) as [s1 |] eqn:E; [| discriminate].
        injection H as <-. now apply finalizeWeek_swissRound.
    - now apply finalizeWeek_swissRound. }
  split; [apply Hlabel; congruence |].
  split; [rewrite !Hlabel; congruence |].
  intros s0. unfold getCurrentPhase, SWISS_ROUNDS.
  destruct (Z.eqb_spec (swissRound s0) 0); [discriminate |].
  destruct (Z.ltb_spec 0 (swissRound s0)), (Z.leb_spec (swissRound s0) 4);
    cbn [andb]; try discriminate; intros _; lia.
Qed.

Lemma getCurrentPhase_during_bracket_witness :
  swissRound worldSwissDone = SWISS_ROUNDS /\
  exists s',
    startBracket insertionSort worldSwissDone = Some (Ran s') /\
    hasBracketStarted s' = true /\
    getCurrentPhase s' = SwissRoundLabel 4.
Proof.
  split; [reflexivity |].
  destruct (startBracket insertionSort worldSwissDone) as [[s' | e s'] |] eqn:E;
    try (vm_compute in E; discriminate E).
  exists s'. split; [reflexivity |].
  split.
  - vm_compute in E. injection E as <-. reflexivity.
  - apply (getCurrentPhase_during_bracket insertionSort worldSwissDone s');
      [reflexivity | left; exact E].
Defined.

(** ** The start of a league *)

Section StartLeague.

Variable trim : string -> string.
Variable toLowerCase : string -> string.

Lemma checkInput_false (values : list string) : forall names,
  fst (fold_left (checkInput trim toLowerCase) values (false, names)) = false.
Proof.
  induction values as [| v values IH]; intros names; [reflexivity |].
  cbn [fold_left]. unfold checkInput at 2. cbn [fst snd].
  destruct (String.eqb (trim v) "" || bool_decide (toLowerCase (trim v) ∈ names)); apply IH.
Qed.

(** A run of the check that ends valid has met only names that are not
    empty and, lower-cased, all different and not in the set before. *)
Lemma checkInput_valid (values : list string) : forall names,
  fst (fold_left (checkInput trim toLowerCase) values (true, names)) = true ->
  NoDup (map toLowerCase (map trim values)) /\
  (forall v, v ∈ values -> trim v <> ""%string /\ toLowerCase (trim v) ∉ names).
Proof.
  induction values as [| v values IH]; intros names Hv.
  - split; [constructor | intros v Hin; inversion Hin].
  - cbn [fold_left] in Hv. unfold checkInput at 2 in Hv. cbn [fst snd] in Hv.
    destruct (String.eqb_spec (trim v) "") as [E | NE]; cbn [orb] in Hv;
      [now rewrite checkInput_false in Hv |].
    destruct (bool_decide_reflect (toLowerCase (trim v) ∈ names)) as [Hin | Hnin];
      [now rewrite checkInput_false in Hv |].
    destruct (IH _ Hv) as [Hnd Hall]. split.
    + cbn [map]. apply NoDup_cons. split; [| exact Hnd].
      intros Hin. apply list_elem_of_fmap in Hin as (n & Hn & Hin).
      apply list_elem_of_fmap in Hin as (v' & -> & Hin).
      destruct (Hall v' Hin) as [_ Hnot]. apply Hnot. rewrite <- Hn. left.
    + intros v' Hin. apply elem_of_cons in Hin as [-> | Hin].
      * split; assumption.
      * destruct (Hall v' Hin) as [Hne Hnot]. split; [exact Hne |].
        intros Hin'. apply Hnot. now right.
Qed.

Lemma allocTeams_new (base : ref) (gs : list Group) (h : Heap) :
  map (allocTeams trim base gs h) (seq base (length gs)) = map (newTeam trim) gs.
Proof.
  apply list_eq. intros i. rewrite !list_lookup_fmap.
  destruct (gs !! i) as [g |] eqn:Hg.
  - rewrite lookup_seq_lt by (now apply lookup_lt_Some in Hg). cbn [fmap option_fmap option_map].
    unfold allocTeams. rewrite (proj2 (Nat.leb_le base (base + i))) by lia.
    replace (base + i - base)%nat with i by lia. now rewrite Hg.
  - rewrite lookup_seq_ge by (now apply lookup_ge_None in Hg). reflexivity.
Qed.

End StartLeague.

Lemma startLeague_unfold (trim toLowerCase : string -> string) (confirmed : bool)
    (inputs : list Group) (s : World) :
  length inputs = 8%nat ->
  startLeague trim toLowerCase confirmed inputs s
  = if accepted trim toLowerCase confirmed inputs s
    then Some (nextSwissRound (leagueReady trim inputs s))
    else Some s.
Proof.
  intros Hlen. unfold startLeague, accepted.
  destruct (hasTeams s), confirmed; cbn [negb andb orb]; try reflexivity.
  all: destruct (fst (fold_left _ _ _)); cbn [negb]; [| reflexivity].
  all: rewrite Hlen; change (Z.to_nat TEAM_COUNT) with 8%nat; cbn [Nat.ltb Nat.leb].
  all: rewrite <- Hlen, firstn_all; reflexivity.
Qed.

Lemma nextSwissRound_keeps (s : World) :
  sameButMarks (heap s) (heap (nextSwissRound s)) /\
  teams (nextSwissRound s) = teams s /\ allPlayers (nextSwissRound s) = allPlayers s /\
  week (nextSwissRound s) = week s /\ bracketRounds (nextSwissRound s) = bracketRounds s.
Proof.
  destruct (Z.ltb_spec 0 (pending s)) as [Hpos | Hle].
  - assert (E : nextSwissRound s = s)
      by (unfold nextSwissRound; destruct (Z.ltb_spec 0 (pending s)); [reflexivity | lia]).
    rewrite E. split; [apply sameButMarks_refl | repeat split].
  - destruct (nextSwissRound_roundSoFar s Hle)
      as (new & _ & _ & _ & _ & _ & Hs & _ & Ht & Hpl & Hw & Hb & _).
    split; [exact Hs |]. repeat split; assumption.
Qed.

Lemma names_perm (trim : string -> string) (gs : list Group) :
  map (fun g => trim (fst (fst g))) gs ++ map p_name (flat_map (newPlayers trim) gs)
  ≡ₚ map trim (inputValues gs).
Proof.
  induction gs as [| g gs IH]; [reflexivity |].
  cbn [map flat_map inputValues newPlayers app p_name].
  fold (inputValues gs). constructor. rewrite <- IH.
  rewrite <- !Permutation_middle. reflexivity.
Qed.

Lemma freshRef_fresh (s : World) (t : ref) : t ∈ teams s -> (t < freshRef s)%nat.
Proof.
  intros Hin. unfold freshRef.
  pose proof (proj1 (list_max_le (teams s ++ flat_map (flat_map (fun p => [fst p; snd p]))
                                                      (bracketRounds s)) _)
                    (Nat.le_refl _)) as H.
  rewrite List.Forall_forall in H.
  specialize (H t). rewrite in_app_iff in H.
  apply list_elem_of_In in Hin. specialize (H (or_introl Hin)). lia.
Qed.

(** X18: [startLeague] changes nothing when the dialog is declined or a
    field fails the check. When it goes through (on a page of eight
    groups) the league is in week 1 with eight team objects that are none
    of the old ones, named as the trimmed team fields, each with its two
    trimmed player fields as roster and with empty records, and with the
    sixteen players of the rosters at zero; the twenty-four names are not
    empty and all different, also when compared in lower case. The
    bracket rounds of the state before are still there. *)
Theorem startLeague_cases (trim toLowerCase : string -> string) (confirmed : bool)
    (inputs : list Group) (s : World) :
  length inputs = 8%nat ->
  if accepted trim toLowerCase confirmed inputs s
  then
    exists s',
      startLeague trim toLowerCase confirmed inputs s = Some s' /\
      week s' = 1 /\
      teams s' = seq (freshRef s) 8 /\
      (forall t, t ∈ teams s' -> t ∉ teams s) /\
      teamNames s' = map (fun g => trim (fst (fst g))) inputs /\
      allPlayers s' = flat_map (newPlayers trim) inputs /\
      (forall i t g,
         teams s' !! i = Some t -> inputs !! i = Some g ->
         players (heap s' t) = [trim (snd (fst g)); trim (snd g)] /\
         s_rec (swiss (heap s' t)) = mkWld 0 0 0 /\
         opps (swiss (heap s' t)) = [] /\
         bracket (heap s' t) = mkWld 0 0 0) /\
      NoDup (map toLowerCase (teamNames s' ++ playerNames s')) /\
      NoDup (teamNames s' ++ playerNames s') /\
      (forall n, n ∈ teamNames s' ++ playerNames s' -> n <> ""%string) /\
      bracketRounds s' = bracketRounds s
  else startLeague trim toLowerCase confirmed inputs s = Some s.
Proof.
  intros Hlen. rewrite (startLeague_unfold trim toLowerCase confirmed inputs s Hlen).
  destruct (accepted trim toLowerCase confirmed inputs s) eqn:Hacc; [| reflexivity].
  set (s1 := leagueReady trim inputs s).
  destruct (nextSwissRound_keeps s1) as (Hsame & Ht & Hpl & Hw & Hb).
  exists (nextSwissRound s1). split; [reflexivity |].
  assert (Hteams : teams (nextSwissRound s1) = seq (freshRef s) 8)
    by (rewrite Ht; cbn [s1 leagueReady teams]; now rewrite Hlen).
  assert (Hheap : map (heap s1) (seq (freshRef s) 8) = map (newTeam trim) inputs)
    by (rewrite <- Hlen; apply allocTeams_new).
  assert (Hnames : teamNames (nextSwissRound s1) = map (fun g => trim (fst (fst g))) inputs).
  { unfold teamNames. rewrite Hteams.
    rewrite (map_ext (fun t => name (heap (nextSwissRound s1) t)) (fun t => name (heap s1 t)))
      by (intros t; apply Hsame).
    change (map (fun t => name (heap s1 t)) (seq (freshRef s) 8))
      with (map (fun t => name (heap s1 t)) (seq (freshRef s) 8)).
    rewrite <- (map_map (heap s1) name), Hheap, map_map. reflexivity. }
  assert (Hvalid : fst (fold_left (checkInput trim toLowerCase) (inputValues inputs) (true, []))
                   = true).
  { unfold accepted in Hacc. apply andb_true_iff in Hacc. tauto. }
  destruct (checkInput_valid trim toLowerCase _ _ Hvalid) as [Hnd Hall].
  assert (Hperm : teamNames (nextSwissRound s1) ++ playerNames (nextSwissRound s1)
                  ≡ₚ map trim (inputValues inputs)).
  { rewrite Hnames. unfold playerNames. rewrite Hpl. apply names_perm. }
  split; [rewrite Hw; reflexivity |].
  split; [exact Hteams |].
  split.
  { intros t Hin Hold. rewrite Hteams in Hin. apply elem_of_seq in Hin.
    apply freshRef_fresh in Hold. lia. }
  split; [exact Hnames |].
  split; [rewrite Hpl; reflexivity |].
  split.
  { intros i t g Hi Hg. rewrite Hteams in Hi.
    assert (E : heap s1 t = newTeam trim g).
    { assert (H : map (heap s1) (seq (freshRef s) 8) !! i = Some (heap s1 t))
        by (rewrite list_lookup_fmap, Hi; reflexivity).
      rewrite Hheap, list_lookup_fmap, Hg in H. injection H as H. symmetry. exact H. }
    destruct (Hsame t) as (_ & -> & -> & -> & ->). rewrite E. repeat split. }
  split; [rewrite Hperm; exact Hnd |].
  split; [rewrite Hperm; apply (NoDup_fmap_1 toLowerCase); exact Hnd |].
  split; [| rewrite Hb; reflexivity].
  intros n Hin. rewrite Hperm in Hin.
  apply list_elem_of_fmap in Hin as (v & -> & Hv). apply (Hall v Hv).
Qed.

Lemma startLeague_cases_witness :
  length leagueInputs = 8%nat /\
  accepted id id true leagueInputs worldBracketDone = true /\
  exists s',
    startLeague id id true leagueInputs worldBracketDone = Some s' /\
    week s' = 1 /\
    teams s' = seq 8 8 /\
    NoDup (teamNames s' ++ playerNames s') /\
    bracketRounds s' = bracketRounds worldBracketDone.
Proof.
  split; [reflexivity |]. split; [vm_compute; reflexivity |].
  pose proof (startLeague_cases id id true leagueInputs worldBracketDone eq_refl) as H.
  replace (accepted id id true leagueInputs worldBracketDone) with true in H
    by (vm_compute; reflexivity).
  destruct H as (s' & Hrun & Hw & Ht & _ & _ & _ & _ & _ & Hnd & _ & Hb).
  exists s'. repeat split; assumption.
Defined.

Lemma groupPools_uniform (h : Heap) (ts : list ref) (k : Z * Z) :
  ts <> [] -> (forall t, t ∈ ts -> recordKey (h t) = k) -> groupPools h ts = [(k, ts)].
Proof.
  induction ts as [| t ts IH] using rev_ind; intros Hne Hall; [contradiction |].
  rewrite groupPools_snoc, (Hall t) by (apply elem_of_app; right; left).
  destruct ts as [| t0 ts0].
  - reflexivity.
  - rewrite IH; [| discriminate | intros x Hx; apply Hall, elem_of_app; now left].
    cbn [poolPush]. now rewrite bool_decide_eq_true_2.
Qed.

Lemma runPage_empty (ies : list (nat * Event)) (s : World) : runPage ies ([], s) = ([], s).
Proof. induction ies as [| ie ies IH]; [reflexivity | exact IH]. Qed.

(** X19: a league started while [pending] is above 0 (an element of the
    league before was still open) does not get its first round: the
    state has the new teams, round 0 and an empty page, [pending] is what
    it was, so that [nextSwissRound] returns at once however often it is
    called, and no event on the page can bring [pending] down. *)
Theorem startLeague_blocked_by_pending (trim toLowerCase : string -> string)
    (confirmed : bool) (inputs : list Group) (s : World) :
  length inputs = 8%nat ->
  accepted trim toLowerCase confirmed inputs s = true ->
  0 < pending s ->
  exists s',
    startLeague trim toLowerCase confirmed inputs s = Some s' /\
    teams s' = seq (freshRef s) 8 /\
    swissRound s' = 0 /\ content s' = [] /\ pending s' = pending s /\
    (forall n, Nat.iter n nextSwissRound s' = s') /\
    (forall ies, runPage ies (content s', s') = (content s', s')).
Proof.
  intros Hlen Hacc Hpos.
  rewrite (startLeague_unfold trim toLowerCase confirmed inputs s Hlen), Hacc.
  set (s1 := leagueReady trim inputs s).
  assert (E : nextSwissRound s1 = s1).
  { unfold nextSwissRound. change (pending s1) with (pending s).
    destruct (Z.ltb_spec 0 (pending s)); [reflexivity | lia]. }
  exists s1. split; [now rewrite E |].
  split; [cbn [s1 leagueReady teams]; now rewrite Hlen |].
  repeat split.
  - intros n. induction n as [| n IH]; [reflexivity |].
    change (Nat.iter (S n) nextSwissRound s1) with (nextSwissRound (Nat.iter n nextSwissRound s1)).
    now rewrite IH.
  - intros ies. apply runPage_empty.
Qed.

Lemma startLeague_blocked_by_pending_witness :
  length leagueInputs = 8%nat /\
  accepted id id true leagueInputs worldPending = true /\
  0 < pending worldPending /\
  exists s',
    startLeague id id true leagueInputs worldPending = Some s' /\
    swissRound s' = 0 /\ content s' = [] /\ pending s' = 1 /\
    nextSwissRound (nextSwissRound s') = s'.
Proof.
  split; [reflexivity |]. split; [vm_compute; reflexivity |]. split; [reflexivity |].
  destruct (startLeague_blocked_by_pending id id true leagueInputs worldPending)
    as (s' & Hrun & _ & Hr & Hc & Hp & Hit & _);
    [reflexivity | vm_compute; reflexivity | reflexivity |].
  exists s'. repeat split; try assumption. exact (Hit 2%nat).
Defined.

Lemma neighbours_seq8 (base : nat) :
  perfectMatching (seq base 8) (neighbours (seq base 8)).
Proof.
  unfold perfectMatching.
  change (flatPairs (neighbours (seq base 8))) with (seq base 8).
  split; [apply NoDup_seq | reflexivity].
Qed.

(** X20: a league started with [pending] at most 0 gets its first round
    at once: the round counter is 1, the page holds four fresh
    single-game Swiss elements, [pending] is 4, and the four pairs are a
    perfect matching of the eight new teams. *)
Theorem startLeague_draws_round1 (trim toLowerCase : string -> string)
    (confirmed : bool) (inputs : list Group) (s : World) :
  length inputs = 8%nat ->
  accepted trim toLowerCase confirmed inputs s = true ->
  pending s <= 0 ->
  exists s',
    startLeague trim toLowerCase confirmed inputs s = Some s' /\
    swissRound s' = 1 /\ pending s' = 4 /\ length (content s') = 4%nat /\
    Forall freshSwissMatch (content s') /\
    Forall (fun m => m_bo3 m = false) (content s') /\
    perfectMatching (teams s') (pairsOf (content s')).
Proof.
  intros Hlen Hacc Hle.
  rewrite (startLeague_unfold trim toLowerCase confirmed inputs s Hlen), Hacc.
  set (s1 := leagueReady trim inputs s).
  set (ts := seq (freshRef s) 8).
  assert (Hts : teams s1 = ts) by (cbn [s1 leagueReady teams]; now rewrite Hlen).
  assert (Hheap : map (heap s1) ts = map (newTeam trim) inputs)
    by (subst ts; rewrite <- Hlen; apply allocTeams_new).
  assert (Hfresh : forall t, t ∈ ts ->
                     recordKey (heap s1 t) = (0, 0) /\ opps (swiss (heap s1 t)) = []).
  { intros t Hin. apply list_elem_of_lookup in Hin as [i Hi].
    assert (H : map (heap s1) ts !! i = Some (heap s1 t))
      by (rewrite list_lookup_fmap, Hi; reflexivity).
    rewrite Hheap, list_lookup_fmap in H.
    destruct (inputs !! i) as [g |]; [| discriminate H].
    injection H as H. change (heap s1 t) with (allocTeams trim (freshRef s) inputs (heap s) t).
    rewrite <- H. split; reflexivity. }
  set (M := swissPair (heap s1) ts).
  assert (HM : perfectMatching ts M).
  { apply (swissPair_complete (heap s1) ts (neighbours ts)); [apply neighbours_seq8 |].
    apply Forall_forall. intros p Hp.
    destruct (pair_in_flatPairs _ p Hp) as [Ha Hb].
    change (flatPairs (neighbours ts)) with ts in Ha, Hb.
    unfold neverMet, includesOpp.
    rewrite (proj2 (Hfresh _ Ha)), (proj2 (Hfresh _ Hb)).
    split; apply bool_decide_eq_false_2, not_elem_of_nil. }
  assert (Hlen4 : length M = 4%nat).
  { pose proof (perfectMatching_even ts M HM) as H. subst ts. rewrite length_seq in H. lia. }
  assert (Hrun : nextSwissRound s1
                 = createMatches makeMatch M (setPending 0 (incrementSwissRound s1))).
  { unfold nextSwissRound. change (pending s1) with (pending s).
    destruct (Z.ltb_spec 0 (pending s)); [lia |].
    change (teams (setPending 0 (incrementSwissRound s1))) with (teams s1).
    change (heap (setPending 0 (incrementSwissRound s1))) with (heap s1).
    rewrite Hts.
    rewrite (groupPools_uniform (heap s1) ts (0, 0));
      [| subst ts; discriminate | intros t Hin; apply (Hfresh t Hin)].
    reflexivity. }
  exists (nextSwissRound s1). split; [reflexivity |].
  rewrite Hrun.
  destruct (createMatches_frame makeMatch M (setPending 0 (incrementSwissRound s1)))
    as (_ & -> & _ & -> & _ & _ & _ & -> & ->).
  destruct (pairsOf_made makeMatch M (or_introl eq_refl)) as [Hpairs Hfr].
  cbn [content pending swissRound teams setPending incrementSwissRound setSwissRound
       s1 leagueReady app].
  rewrite length_map, Hlen4, Hpairs.
  repeat split; try assumption; try apply HM.
  - apply Forall_forall. intros m Hm. apply list_elem_of_fmap in Hm as (p & -> & _). reflexivity.
  - rewrite Hlen. apply HM.
Qed.

Lemma startLeague_draws_round1_witness :
  length leagueInputs = 8%nat /\
  accepted id id true leagueInputs worldBracketDone = true /\
  pending worldBracketDone <= 0 /\
  exists s',
    startLeague id id true leagueInputs worldBracketDone = Some s' /\
    swissRound s' = 1 /\ pending s' = 4 /\ length (content s') = 4%nat /\
    perfectMatching (teams s') (pairsOf (content s')).
Proof.
  split; [reflexivity |]. split; [vm_compute; reflexivity |]. split; [cbn; lia |].
  destruct (startLeague_draws_round1 id id true leagueInputs worldBracketDone)
    as (s' & Hrun & Hr & Hp & Hc & _ & _ & Hm);
    [reflexivity | vm_compute; reflexivity | cbn; lia |].
  exists s'. repeat split; try assumption; apply Hm.
Defined.

(** The pairs of the first round of the example. *)
Example startLeague_example :
  (fun s' => (pairsOf (content s'), teamNames s'))
    <$> startLeague id id true leagueInputs worldBracketDone
  = Some ([(8, 9); (10, 11); (12, 13); (14, 15)]%nat,
          ["TA"; "TB"; "TC"; "TD"; "TE"; "TF"; "TG"; "TH"]%string).
Proof. vm_compute. reflexivity. Qed.

(** ** The records and the results on the page *)

Lemma pageNet_cons (m : Match) (ms : list Match) (t : ref) :
  pageNet (m :: ms) t = plusWld (resultNet m t) (pageNet ms t).
Proof. reflexivity. Qed.

Lemma pageNet_insert (t : ref) (ms : list Match) : forall (i : nat) (m m' : Match),
  ms !! i = Some m ->
  plusWld (pageNet (<[i := m']> ms) t) (resultNet m t)
  = plusWld (pageNet ms t) (resultNet m' t).
Proof.
  induction ms as [| m0 ms IH]; intros i m m' Hi; [discriminate |].
  destruct i as [| i]; cbn [lookup list_lookup] in Hi.
  - injection Hi as ->. cbn [insert list_insert]. rewrite !pageNet_cons.
    apply Wld_eq; cbn [plusWld w l pd]; lia.
  - change (<[S i := m']> (m0 :: ms)) with (m0 :: <[i := m']> ms). rewrite !pageNet_cons.
    specialize (IH i m m' Hi).
    pose proof (f_equal w IH) as Hw. pose proof (f_equal l IH) as Hl.
    pose proof (f_equal pd IH) as Hpd. cbn [plusWld w l pd] in Hw, Hl, Hpd.
    apply Wld_eq; cbn [plusWld w l pd]; lia.
Qed.

Lemma resultNet_correct (m : Match) (x y : Z) (t : ref) :
  (forall x0 y0, lastResult m = Some (x0, y0) -> x0 <> y0) ->
  plusWld (resultNet m t) (netChange (m_a m) (m_b m) x y (lastResult m) t)
  = netChange (m_a m) (m_b m) x y None t.
Proof.
  intros Hdec. unfold resultNet. destruct (lastResult m) as [[x0 y0] |].
  - apply netChange_chain. now apply Hdec.
  - apply Wld_eq; cbn [plusWld zeroWld w l pd]; lia.
Qed.

Lemma handleAt_pageConsistent (isSwiss : bool) (s0 : World) (ie : nat * Event)
    (ps : list Match * World) :
  pageConsistent isSwiss s0 ps -> pageConsistent isSwiss s0 (handleAt ie ps).
Proof.
  destruct ps as [ms s], ie as [i e]. intros [Hel Hrec].
  unfold handleAt; cbn [fst snd] in *.
  destruct (ms !! i) as [m |] eqn:Hi; [| split; assumption].
  destruct (Hel m (list_elem_of_lookup_2 _ _ _ Hi)) as [Hsw Hdec].
  pose proof (handle_stats e m s) as Hst. cbn zeta in Hst.
  destruct Hst as (Ha & Hb & Hsw' & _ & Hst).
  destruct (validScores e) as [[x y] |] eqn:Ev.
  2:{ rewrite Hst. cbn [fst snd]. rewrite list_insert_id by exact Hi. split; assumption. }
  destruct Hst as (_ & Hlr & _ & Hph).
  destruct (handle e (m, s)) as [m' s']. cbn [fst snd] in *.
  split.
  - intros m0 Hin. apply list_elem_of_lookup in Hin as [j Hj].
    apply list_lookup_insert_Some in Hj as [(_ & <- & _) | (_ & Hj)].
    + split; [congruence |]. intros x0 y0 E. rewrite Hlr in E. injection E as <- <-.
      now apply (validScores_differ e).
    + apply Hel. now apply (list_elem_of_lookup_2 _ j).
  - intros t. cbn [fst snd]. rewrite Hsw in Hph. rewrite Hph, Hrec, plusWld_assoc. f_equal.
    pose proof (pageNet_insert t ms i m m' Hi) as Hins.
    pose proof (resultNet_correct m x y t Hdec) as Hcor.
    assert (Hnew : resultNet m' t = netChange (m_a m) (m_b m) x y None t)
      by (unfold resultNet; now rewrite Hlr, Ha, Hb).
    rewrite Hnew in Hins.
    pose proof (f_equal w Hins) as Hw1. pose proof (f_equal l Hins) as Hl1.
    pose proof (f_equal pd Hins) as Hpd1.
    pose proof (f_equal w Hcor) as Hw2. pose proof (f_equal l Hcor) as Hl2.
    pose proof (f_equal pd Hcor) as Hpd2.
    cbn [plusWld w l pd] in Hw1, Hl1, Hpd1, Hw2, Hl2, Hpd2.
    apply Wld_eq; cbn [plusWld w l pd]; lia.
Qed.

Lemma runPage_pageConsistent (isSwiss : bool) (s0 : World) (ies : list (nat * Event)) :
  forall ps, pageConsistent isSwiss s0 ps -> pageConsistent isSwiss s0 (runPage ies ps).
Proof.
  induction ies as [| ie ies IH]; intros ps H; [exact H |].
  cbn [runPage fold_left]. apply IH. now apply handleAt_pageConsistent.
Qed.

Lemma pageNet_fresh (ms : list Match) (t : ref) :
  (forall m, m ∈ ms -> lastResult m = None) -> pageNet ms t = zeroWld.
Proof.
  induction ms as [| m ms IH]; intros H; [reflexivity |].
  rewrite pageNet_cons.
  rewrite IH by (intros m0 Hin; apply H; now right).
  unfold resultNet. rewrite (H m) by left. reflexivity.
Qed.

(** X21: on a page of single-game elements of one phase that remember
    no result yet,
    after any run of submissions and overrides on any of the elements,
    in any order, the record of every team in that phase is its record
    before the run plus, for each element, what one application of the
    result that the element now remembers adds; every remembered result
    is decisive. *)
Theorem runPage_records_sum (isSwiss : bool) (ies : list (nat * Event)) (ms : list Match)
    (s : World) :
  (forall m, m ∈ ms -> m_bo3 m = false) ->
  (forall m, m ∈ ms -> m_isSwiss m = isSwiss /\ lastResult m = None) ->
  let ps' := runPage ies (ms, s) in
  (forall t, phaseBlock isSwiss (heap (snd ps') t)
             = plusWld (phaseBlock isSwiss (heap s t)) (pageNet (fst ps') t)) /\
  (forall m x y, m ∈ fst ps' -> lastResult m = Some (x, y) -> x <> y).
Proof.
  intros _ Hfresh.
  assert (H0 : pageConsistent isSwiss s (ms, s)).
  { split.
    - intros m Hin. destruct (Hfresh m Hin) as [Hsw Hnone]. split; [exact Hsw |].
      intros x y E. congruence.
    - intros t. cbn [fst snd]. rewrite pageNet_fresh by (intros m Hin; apply (Hfresh m Hin)).
      symmetry. apply plusWld_zero_r. }
  destruct (runPage_pageConsistent isSwiss s ies (ms, s) H0) as [Hel Hrec].
  cbn zeta. split; [exact Hrec |].
  intros m x y Hin E. exact (proj2 (Hel m Hin) x y E).
Qed.

Lemma runPage_records_sum_witness :
  (forall m, m ∈ pageOfTwo -> m_bo3 m = false) /\
  (forall m, m ∈ pageOfTwo -> m_isSwiss m = false /\ lastResult m = None) /\
  let ps' := runPage eventsOfTwo (pageOfTwo, worldRoundOpen) in
  (forall t, phaseBlock false (heap (snd ps') t)
             = plusWld (phaseBlock false (heap worldRoundOpen t)) (pageNet (fst ps') t)) /\
  (forall m x y, m ∈ fst ps' -> lastResult m = Some (x, y) -> x <> y).
Proof.
  assert (H : forall m, m ∈ pageOfTwo -> m_isSwiss m = false /\ lastResult m = None).
  { intros m Hin. unfold pageOfTwo, bracketMatches in Hin. cbn [map] in Hin.
    repeat (apply elem_of_cons in Hin as [-> | Hin]; [split; reflexivity |]).
    inversion Hin. }
  assert (H3 : forall m, m ∈ pageOfTwo -> m_bo3 m = false).
  { intros m Hin. unfold pageOfTwo, bracketMatches in Hin. cbn [map] in Hin.
    repeat (apply elem_of_cons in Hin as [-> | Hin]; [reflexivity |]).
    inversion Hin. }
  split; [exact H3 |]. split; [exact H |].
  apply (runPage_records_sum false eventsOfTwo pageOfTwo worldRoundOpen H3 H).
Defined.

Lemma handleAt_pairsOf (ie : nat * Event) (ps : list Match * World) :
  pairsOf (fst (handleAt ie ps)) = pairsOf (fst ps).
Proof.
  destruct ps as [ms s], ie as [i e]. unfold handleAt; cbn [fst snd].
  destruct (ms !! i) as [m |] eqn:Hi; [| reflexivity]. cbn [fst].
  pose proof (handle_stats e m s) as Hst. cbn zeta in Hst.
  destruct Hst as (Ha & Hb & _).
  unfold pairsOf. rewrite list_fmap_insert, Ha, Hb.
  apply list_insert_id. rewrite list_lookup_fmap, Hi. reflexivity.
Qed.

Lemma runPage_pairsOf (ies : list (nat * Event)) : forall ps,
  pairsOf (fst (runPage ies ps)) = pairsOf (fst ps).
Proof.
  induction ies as [| ie ies IH]; intros ps; [reflexivity |].
  cbn [runPage fold_left]. fold (runPage ies (handleAt ie ps)).
  rewrite IH. apply handleAt_pairsOf.
Qed.

Lemma resultNet_absent (m : Match) (t : ref) :
  t <> m_a m -> t <> m_b m -> resultNet m t = zeroWld.
Proof.
  intros Ha Hb. unfold resultNet, netChange.
  destruct (Nat.eqb_spec t (m_a m)) as [? | _]; [contradiction |].
  destruct (Nat.eqb_spec t (m_b m)) as [? | _]; [contradiction |].
  now destruct (lastResult m) as [[x y] |].
Qed.

Lemma pageNet_absent (ms : list Match) (t : ref) :
  t ∉ flatPairs (pairsOf ms) -> pageNet ms t = zeroWld.
Proof.
  induction ms as [| m ms IH]; intros Hnot; [reflexivity |].
  rewrite pageNet_cons. cbn [pairsOf map flatPairs flat_map fst snd app] in Hnot.
  fold (pairsOf ms) in Hnot. fold (flatPairs (pairsOf ms)) in Hnot.
  apply not_elem_of_cons in Hnot as [Ha Hnot].
  apply not_elem_of_cons in Hnot as [Hb Hnot].
  rewrite resultNet_absent, IH by assumption. reflexivity.
Qed.

Lemma pageNet_single (t : ref) (ms : list Match) : forall (i : nat) (m : Match),
  NoDup (flatPairs (pairsOf ms)) -> ms !! i = Some m -> t = m_a m \/ t = m_b m ->
  pageNet ms t = resultNet m t.
Proof.
  induction ms as [| m0 ms IH]; intros i m Hnd Hi Ht; [discriminate |].
  rewrite pageNet_cons. cbn [pairsOf map flatPairs flat_map fst snd app] in Hnd.
  fold (pairsOf ms) in Hnd. fold (flatPairs (pairsOf ms)) in Hnd.
  apply NoDup_cons in Hnd as [Ha Hnd]. apply NoDup_cons in Hnd as [Hb Hnd].
  destruct i as [| i]; cbn [lookup list_lookup] in Hi.
  - injection Hi as ->.
    rewrite pageNet_absent; [apply plusWld_zero_r |].
    destruct Ht as [-> | ->]; [| exact Hb].
    intros Hin. apply Ha. now right.
  - assert (Hin : t ∈ flatPairs (pairsOf ms)).
    { assert (Hp : (m_a m, m_b m) ∈ pairsOf ms).
      { unfold pairsOf. apply list_elem_of_fmap. exists m.
        split; [reflexivity | now apply (list_elem_of_lookup_2 _ i)]. }
      destruct (pair_in_flatPairs _ _ Hp) as [H1 H2]. cbn [fst snd] in H1, H2.
      destruct Ht as [-> | ->]; assumption. }
    rewrite resultNet_absent.
    + rewrite (IH i m Hnd Hi Ht). apply Wld_eq; cbn [plusWld zeroWld w l pd]; lia.
    + intros ->. apply Ha. now right.
    + intros ->. now apply Hb.
Qed.

Lemma pair_distinct (P : Pairing) (p : ref * ref) :
  NoDup (flatPairs P) -> p ∈ P -> fst p <> snd p.
Proof.
  induction P as [| q P IH]; intros Hnd Hin; [inversion Hin |].
  cbn [flatPairs flat_map app] in Hnd. fold (flatPairs P) in Hnd.
  apply NoDup_cons in Hnd as [Ha Hnd]. apply NoDup_cons in Hnd as [_ Hnd].
  apply elem_of_cons in Hin as [-> | Hin]; [| now apply IH].
  intros E. apply Ha. rewrite E. left.
Qed.

Lemma pairsOf_bracketMatches (P : Pairing) : pairsOf (bracketMatches P) = P.
Proof.
  unfold pairsOf, bracketMatches. rewrite map_map. rewrite <- (map_id P) at 2.
  apply map_ext. now intros [a b].
Qed.

(** What the wins of the two teams of a pair are after a run on the
    elements of a round, whatever they entered with. *)
Lemma round_wins (P : Pairing) (ies : list (nat * Event)) (s : World)
    (i : nat) (p : ref * ref) (m' : Match) (x y : Z) :
  NoDup (flatPairs P) ->
  let ps' := runPage ies (bracketMatches P, s) in
  P !! i = Some p -> fst ps' !! i = Some m' -> lastResult m' = Some (x, y) ->
  x <> y /\
  w (bracket (heap (snd ps') (fst p))) = w (bracket (heap s (fst p))) + b2z (y <? x) /\
  w (bracket (heap (snd ps') (snd p))) = w (bracket (heap s (snd p))) + b2z (negb (y <? x)).
Proof.
  intros Hnd ps' Hp Hm Hlr.
  assert (Hfresh : forall m, m ∈ bracketMatches P -> m_isSwiss m = false /\ lastResult m = None).
  { intros m Hin. apply list_elem_of_fmap in Hin as (q & -> & _). split; reflexivity. }
  assert (H0 : pageConsistent false s (bracketMatches P, s)).
  { split.
    - intros m Hin. destruct (Hfresh m Hin) as [Hsw Hnone]. split; [exact Hsw |].
      intros x0 y0 E. congruence.
    - intros t. cbn [fst snd]. rewrite pageNet_fresh by (intros m Hin; apply (Hfresh m Hin)).
      symmetry. apply plusWld_zero_r. }
  destruct (runPage_pageConsistent false s ies _ H0) as [Hel Hrec]. fold ps' in Hel, Hrec.
  pose proof (runPage_pairsOf ies (bracketMatches P, s)) as Hpairs.
  fold ps' in Hpairs. cbn [fst] in Hpairs. rewrite pairsOf_bracketMatches in Hpairs.
  assert (Hpm : p = (m_a m', m_b m')).
  { assert (H : pairsOf (fst ps') !! i = Some (m_a m', m_b m'))
      by (unfold pairsOf; rewrite list_lookup_fmap, Hm; reflexivity).
    rewrite Hpairs, Hp in H. congruence. }
  assert (Hxy : x <> y) by (apply (proj2 (Hel m' (list_elem_of_lookup_2 _ _ _ Hm)) x y Hlr)).
  assert (Hnd' : NoDup (flatPairs (pairsOf (fst ps')))) by (now rewrite Hpairs).
  assert (Hab : fst p <> snd p)
    by (apply (pair_distinct P); [exact Hnd | now apply (list_elem_of_lookup_2 _ i)]).
  pose proof (Hrec (fst p)) as Ha. pose proof (Hrec (snd p)) as Hb.
  rewrite (pageNet_single (fst p) (fst ps') i m' Hnd' Hm) in Ha
    by (left; now rewrite Hpm).
  rewrite (pageNet_single (snd p) (fst ps') i m' Hnd' Hm) in Hb
    by (right; now rewrite Hpm).
  unfold resultNet in Ha, Hb. rewrite Hlr in Ha, Hb.
  rewrite Hpm in Ha, Hb, Hab |- *. cbn [fst snd] in *.
  unfold netChange, undoneA, undoneB, addedA, addedB in Ha, Hb.
  rewrite !Nat.eqb_refl in Ha, Hb.
  destruct (Nat.eqb_spec (m_a m') (m_b m')) as [? | _]; [contradiction |].
  destruct (Nat.eqb_spec (m_b m') (m_a m')) as [? | _]; [congruence |].
  apply (f_equal w) in Ha, Hb. cbn [phaseBlock plusWld zeroWld w] in Ha, Hb.
  split; [exact Hxy |]. split; lia.
Qed.

(** Two teams that enter level: the one that gains the win has more wins
    afterwards. *)
Lemma level_winner (h h' : Heap) (p : ref * ref) (c : bool) :
  w (bracket (h (fst p))) = w (bracket (h (snd p))) ->
  w (bracket (h' (fst p))) = w (bracket (h (fst p))) + b2z c ->
  w (bracket (h' (snd p))) = w (bracket (h (snd p))) + b2z (negb c) ->
  bracketWinner h' p = (if c then fst p else snd p) /\
  bracketLoser h' p = (if c then snd p else fst p) /\
  hiTeam h' (fst p) (snd p) = bracketWinner h' p /\
  w (bracket (h' (bracketWinner h' p))) = w (bracket (h (fst p))) + 1 /\
  w (bracket (h' (bracketLoser h' p))) = w (bracket (h (fst p))).
Proof.
  intros Hw Ha Hb. unfold bracketWinner, bracketLoser, hiTeam.
  destruct c; cbn [b2z negb] in Ha, Hb;
    destruct (Z.ltb_spec (w (bracket (h' (snd p)))) (w (bracket (h' (fst p))))); try lia;
    repeat split; lia.
Qed.

(** X22: a round of the bracket is decided by its last results. Let the
    pairs of the round name no team twice and let the two teams of each
    pair enter with equal bracket wins. Then after any run of events
    on the elements of the round, for an element that remembers the
    result [x] to [y], the team that [generateNextBracketRound] and
    [finalizeWeek] take for the winner of the pair is the first team if
    [x > y] and the second otherwise, and it has one bracket win more
    than on entry while the other team has as many as on entry. *)
Theorem bracket_round_decisive (P : Pairing) (ies : list (nat * Event)) (s : World)
    (i : nat) (p : ref * ref) (m' : Match) (x y : Z) :
  NoDup (flatPairs P) ->
  (forall q, q ∈ P -> w (bracket (heap s (fst q))) = w (bracket (heap s (snd q)))) ->
  let ps' := runPage ies (bracketMatches P, s) in
  P !! i = Some p -> fst ps' !! i = Some m' -> lastResult m' = Some (x, y) ->
  x <> y /\
  bracketWinner (heap (snd ps')) p = (if y <? x then fst p else snd p) /\
  bracketLoser (heap (snd ps')) p = (if y <? x then snd p else fst p) /\
  hiTeam (heap (snd ps')) (fst p) (snd p) = bracketWinner (heap (snd ps')) p /\
  w (bracket (heap (snd ps') (bracketWinner (heap (snd ps')) p)))
  = w (bracket (heap s (fst p))) + 1 /\
  w (bracket (heap (snd ps') (bracketLoser (heap (snd ps')) p)))
  = w (bracket (heap s (fst p))).
Proof.
  intros Hnd Heq ps' Hp Hm Hlr.
  destruct (round_wins P ies s i p m' x y Hnd Hp Hm Hlr) as (Hxy & Ha & Hb).
  fold ps' in Ha, Hb. split; [exact Hxy |].
  apply (level_winner (heap s) (heap (snd ps')) p (y <? x)); try assumption.
  apply Heq. now apply (list_elem_of_lookup_2 _ i).
Qed.

Lemma bracket_round_decisive_witness :
  NoDup (flatPairs [(0, 1); (2, 3)]%nat) /\
  (forall q, q ∈ [(0, 1); (2, 3)]%nat ->
             w (bracket (heap worldStart (fst q))) = w (bracket (heap worldStart (snd q)))) /\
  let ps' := runPage eventsOfTwo (bracketMatches [(0, 1); (2, 3)]%nat, worldStart) in
  exists m', fst ps' !! 0%nat = Some m' /\ lastResult m' = Some (9, 11) /\
             bracketWinner (heap (snd ps')) (0, 1)%nat = 1%nat /\
             w (bracket (heap (snd ps') 1%nat)) = 1 /\
             w (bracket (heap (snd ps') 0%nat)) = 0.
Proof.
  assert (Hnd : NoDup (flatPairs [(0, 1); (2, 3)]%nat))
    by (apply (bool_decide_unpack _); vm_compute; exact I).
  assert (Heq : forall q, q ∈ [(0, 1); (2, 3)]%nat ->
                  w (bracket (heap worldStart (fst q))) = w (bracket (heap worldStart (snd q))))
    by (intros q _; reflexivity).
  split; [exact Hnd |]. split; [exact Heq |].
  cbn zeta.
  destruct (fst (runPage eventsOfTwo (bracketMatches [(0, 1); (2, 3)]%nat, worldStart)) !! 0%nat)
    as [m' |] eqn:Hm; [| vm_compute in Hm; discriminate Hm].
  assert (Hlr : lastResult m' = Some (9, 11)).
  { assert (H : (lastResult <$> fst (runPage eventsOfTwo
                                       (bracketMatches [(0, 1); (2, 3)]%nat, worldStart)) !! 0%nat)
                = Some (Some (9, 11))) by (vm_compute; reflexivity).
    rewrite Hm in H. cbn in H. congruence. }
  exists m'. split; [reflexivity |]. split; [exact Hlr |].
  destruct (bracket_round_decisive [(0, 1); (2, 3)]%nat eventsOfTwo worldStart 0%nat
              (0, 1)%nat m' 9 11 Hnd Heq eq_refl Hm Hlr)
    as (_ & Hwin & Hlose & _ & Hw1 & Hw0).
  change (11 <? 9) with false in Hwin, Hlose. cbv iota in Hwin, Hlose.
  rewrite Hwin in Hw1. rewrite Hlose in Hw0.
  repeat split; assumption.
Defined.

Lemma handleAt_done_result (ie : nat * Event) (ps : list Match * World) :
  (forall m, m ∈ fst ps -> done m = true -> lastResult m <> None) ->
  forall m, m ∈ fst (handleAt ie ps) -> done m = true -> lastResult m <> None.
Proof.
  destruct ps as [ms s], ie as [i e]. intros H. unfold handleAt; cbn [fst snd] in *.
  destruct (ms !! i) as [m0 |] eqn:Hi; [| exact H]. cbn [fst].
  pose proof (handle_stats e m0 s) as Hst. cbn zeta in Hst.
  destruct Hst as (_ & _ & _ & _ & Hst).
  intros m Hin Hd. apply list_elem_of_lookup in Hin as [j Hj].
  apply list_lookup_insert_Some in Hj as [(_ & <- & _) | (_ & Hj)].
  - destruct (validScores e) as [[x y] |].
    + destruct Hst as (_ & -> & _). discriminate.
    + rewrite Hst in Hd |- *. cbn [fst] in *.
      apply (H m0); [now apply (list_elem_of_lookup_2 _ i) | exact Hd].
  - apply (H m); [now apply (list_elem_of_lookup_2 _ j) | exact Hd].
Qed.

Lemma runPage_done_result (ies : list (nat * Event)) : forall ps,
  (forall m, m ∈ fst ps -> done m = true -> lastResult m <> None) ->
  forall m, m ∈ fst (runPage ies ps) -> done m = true -> lastResult m <> None.
Proof.
  induction ies as [| ie ies IH]; intros ps H; [exact H |].
  cbn [runPage fold_left]. apply IH. now apply handleAt_done_result.
Qed.

Lemma notDone_nil (ms : list Match) (m : Match) :
  notDone ms = [] -> m ∈ ms -> done m = true.
Proof.
  intros Hnil Hin. destruct (done m) eqn:E; [reflexivity |].
  exfalso. apply (filter_nil_not_elem_of _ _ m Hnil); assumption.
Qed.

Ltac elem_here :=
  cbn; repeat first [apply list_elem_of_here | apply list_elem_of_further].

(** X23: the rounds of a bracket stay level. Let a round hold four pairs
    of eight different teams, the four teams of the first two pairs
    entering with the same number of bracket wins and the four of the
    last two with the same number. When no element of the round is open
    any more, the winner of each pair has one win more than it entered
    with and the loser as many: the pairs that [generateNextBracketRound]
    then forms (winners of the first two pairs, losers of the first two,
    winners of the last two, losers of the last two) are again pairs of
    equal wins. From eight teams without bracket wins this holds through
    all three rounds. *)
Theorem bracket_rounds_stay_level (p0 p1 p2 p3 : ref * ref) (ies : list (nat * Event))
    (s : World) (e01 e23 : Z) :
  NoDup (flatPairs [p0; p1; p2; p3]) ->
  (forall t, t ∈ flatPairs [p0; p1] -> w (bracket (heap s t)) = e01) ->
  (forall t, t ∈ flatPairs [p2; p3] -> w (bracket (heap s t)) = e23) ->
  let ps' := runPage ies (bracketMatches [p0; p1; p2; p3], s) in
  notDone (fst ps') = [] ->
  let wins t := w (bracket (heap (snd ps') t)) in
  let W := bracketWinner (heap (snd ps')) in
  let L := bracketLoser (heap (snd ps')) in
  (wins (W p0) = e01 + 1 /\ wins (W p1) = e01 + 1) /\
  (wins (L p0) = e01 /\ wins (L p1) = e01) /\
  (wins (W p2) = e23 + 1 /\ wins (W p3) = e23 + 1) /\
  (wins (L p2) = e23 /\ wins (L p3) = e23).
Proof.
  intros Hnd H01 H23 ps' Hdone. cbn zeta.
  set (P := [p0; p1; p2; p3]) in *.
  assert (Hlevel : forall q, q ∈ P ->
                     w (bracket (heap s (fst q))) = w (bracket (heap s (snd q)))).
  { intros q Hq. subst P.
    repeat (apply elem_of_cons in Hq as [-> | Hq]); [| | | | inversion Hq].
    - rewrite (H01 (fst p0)), (H01 (snd p0)) by elem_here. reflexivity.
    - rewrite (H01 (fst p1)), (H01 (snd p1)) by elem_here. reflexivity.
    - rewrite (H23 (fst p2)), (H23 (snd p2)) by elem_here. reflexivity.
    - rewrite (H23 (fst p3)), (H23 (snd p3)) by elem_here. reflexivity. }
  assert (Hres : forall i p, P !! i = Some p ->
                   w (bracket (heap (snd ps') (bracketWinner (heap (snd ps')) p)))
                   = w (bracket (heap s (fst p))) + 1 /\
                   w (bracket (heap (snd ps') (bracketLoser (heap (snd ps')) p)))
                   = w (bracket (heap s (fst p)))).
  { intros i p Hp.
    assert (Hlen : length (pairsOf (fst ps')) = length P)
      by (unfold ps'; rewrite runPage_pairsOf; cbn [fst]; now rewrite pairsOf_bracketMatches).
    unfold pairsOf in Hlen. rewrite length_map in Hlen.
    destruct (fst ps' !! i) as [m' |] eqn:Hm.
    2:{ apply lookup_ge_None in Hm. apply lookup_lt_Some in Hp. lia. }
    assert (Hin : m' ∈ fst ps') by (now apply (list_elem_of_lookup_2 _ i)).
    assert (Hd : done m' = true) by (now apply (notDone_nil (fst ps'))).
    assert (Hsome : lastResult m' <> None).
    { apply (runPage_done_result ies (bracketMatches P, s)); [| exact Hin | exact Hd].
      intros m Hm0 Hd0. apply list_elem_of_fmap in Hm0 as (q & -> & _). discriminate Hd0. }
    destruct (lastResult m') as [[x y] |] eqn:Hlr; [| contradiction].
    destruct (round_wins P ies s i p m' x y Hnd Hp Hm Hlr) as (_ & Ha & Hb).
    fold ps' in Ha, Hb.
    destruct (level_winner (heap s) (heap (snd ps')) p (y <? x)) as (_ & _ & _ & Hw & Hl);
      try assumption; [| split; assumption].
    apply Hlevel. now apply (list_elem_of_lookup_2 _ i). }
  destruct (Hres 0%nat p0 eq_refl) as [Hw0 Hl0].
  destruct (Hres 1%nat p1 eq_refl) as [Hw1 Hl1].
  destruct (Hres 2%nat p2 eq_refl) as [Hw2 Hl2].
  destruct (Hres 3%nat p3 eq_refl) as [Hw3 Hl3].
  rewrite Hw0, Hw1, Hw2, Hw3, Hl0, Hl1, Hl2, Hl3.
  rewrite (H01 (fst p0)), (H01 (fst p1)), (H23 (fst p2)), (H23 (fst p3)) by elem_here.
  repeat split.
Qed.

Lemma bracket_rounds_stay_level_witness :
  NoDup (flatPairs roundOfFour) /\
  (forall t, t ∈ flatPairs [(0, 1); (2, 3)]%nat -> w (bracket (heap worldStart t)) = 0) /\
  (forall t, t ∈ flatPairs [(4, 5); (6, 7)]%nat -> w (bracket (heap worldStart t)) = 0) /\
  let ps' := runPage eventsOfFour (bracketMatches roundOfFour, worldStart) in
  notDone (fst ps') = [] /\
  map (bracketWinner (heap (snd ps'))) roundOfFour = [1; 3; 4; 7]%nat /\
  w (bracket (heap (snd ps') (bracketWinner (heap (snd ps')) (0, 1)%nat))) = 0 + 1 /\
  w (bracket (heap (snd ps') (bracketLoser (heap (snd ps')) (6, 7)%nat))) = 0.
Proof.
  assert (Hnd : NoDup (flatPairs roundOfFour))
    by (apply (bool_decide_unpack _); vm_compute; exact I).
  assert (H01 : forall t, t ∈ flatPairs [(0, 1); (2, 3)]%nat ->
                          w (bracket (heap worldStart t)) = 0) by (intros t _; reflexivity).
  assert (H23 : forall t, t ∈ flatPairs [(4, 5); (6, 7)]%nat ->
                          w (bracket (heap worldStart t)) = 0) by (intros t _; reflexivity).
  assert (Hdone : notDone (fst (runPage eventsOfFour (bracketMatches roundOfFour, worldStart)))
                  = []) by (vm_compute; reflexivity).
  split; [exact Hnd |]. split; [exact H01 |]. split; [exact H23 |].
  cbn zeta. split; [exact Hdone |]. split; [vm_compute; reflexivity |].
  destruct (bracket_rounds_stay_level (0, 1)%nat (2, 3)%nat (4, 5)%nat (6, 7)%nat
              eventsOfFour worldStart 0 0 Hnd H01 H23 Hdone)
    as ((Hw0 & _) & _ & _ & (_ & Hl3)).
  split; [exact Hw0 | exact Hl3].
Defined.

(** ** From one round of the bracket to the next *)

Lemma sameLeague_refl (s : World) : sameLeague s s.
Proof. repeat split. Qed.

Lemma sameLeague_trans (s1 s2 s3 : World) :
  sameLeague s1 s2 -> sameLeague s2 s3 -> sameLeague s1 s3.
Proof.
  unfold sameLeague. intros (? & ? & ? & ? & ? & ? & ?) (? & ? & ? & ? & ? & ? & ?).
  repeat split; congruence.
Qed.

Lemma recordScore_frame m s x y : sameLeague s (fst (recordScore m s x y)).
Proof.
  unfold recordScore. destruct (applyScore _ _ _ _ _ _ _) as [h res].
  cbn [fst]. destruct (done m); repeat split.
Qed.

Lemma notifyCompletion_frame isSwiss s : sameLeague s (notifyCompletion isSwiss s).
Proof.
  unfold notifyCompletion.
  destruct (negb isSwiss && (pending s =? 0)); [| apply sameLeague_refl].
  destruct (onAllMatchesComplete s); repeat split.
Qed.

Lemma setHeap_frame h s : sameLeague s (setHeap h s).
Proof. repeat split. Qed.

Lemma handle_frame (e : Event) (m : Match) (s : World) :
  sameLeague s (snd (handle e (m, s))).
Proof.
  destruct e as [vA vB | sa sb]; cbn [handle fst snd].
  - unfold submitOnclick.
    destruct (isValidScore (parseIntResult vA) (parseIntResult vB)); cbn [negb];
      [| apply sameLeague_refl].
    destruct vA as [a |], vB as [b |]; try apply sameLeague_refl.
    pose proof (recordScore_frame m s a b) as H.
    destruct (recordScore m s a b) as [s1 res]. cbn [fst snd] in *.
    eapply sameLeague_trans; [exact H |].
    eapply sameLeague_trans; [| apply notifyCompletion_frame].
    destruct (m_isSwiss m && negb (oppsRecorded m));
      [apply setHeap_frame | apply sameLeague_refl].
  - unfold adminOnclick.
    destruct sa as [vA |], sb as [vB |]; try apply sameLeague_refl.
    destruct (isValidScore (parseIntResult vA) (parseIntResult vB)); cbn [negb];
      [| apply sameLeague_refl].
    destruct vA as [a |], vB as [b |]; try apply sameLeague_refl.
    pose proof (recordScore_frame m s a b) as H.
    destruct (recordScore m s a b) as [s1 res]. cbn [fst snd] in *.
    eapply sameLeague_trans; [exact H | apply notifyCompletion_frame].
Qed.

Lemma runPage_frame (ies : list (nat * Event)) : forall (ps : list Match * World),
  sameLeague (snd ps) (snd (runPage ies ps)).
Proof.
  induction ies as [| ie ies IH]; intros ps; [apply sameLeague_refl |].
  cbn [runPage fold_left]. fold (runPage ies (handleAt ie ps)).
  eapply sameLeague_trans; [| apply IH].
  destruct ps as [ms s], ie as [i e]. unfold handleAt; cbn [fst snd].
  destruct (ms !! i) as [m |]; [| apply sameLeague_refl]. cbn [snd].
  apply handle_frame.
Qed.

(** X24: a round of the bracket, from its start to the start of the next.
    Let round 1 or 2 hold four pairs and be started by [runBracketRound]
    with an empty queue. While an element of the round is open, the queue
    stays empty: there is nothing for the event loop to run. Once none is
    open, the queue holds the callback exactly once, and running it
    writes the next round from the wins as they then stand, appends its
    four elements, sets [pending] to 4, registers the callback of the
    next round and leaves the queue empty again. *)
Theorem bracket_round_to_next (r : Z) (s s1 : World) (p0 p1 p2 p3 : ref * ref)
    (ies : list (nat * Event)) :
  r = 1 \/ r = 2 ->
  roundAt r (bracketRounds s) = Some [p0; p1; p2; p3] ->
  microtasks s = [] ->
  runBracketRound r s = Ran s1 ->
  let ps' := runPage ies (bracketMatches [p0; p1; p2; p3], s1) in
  match notDone (fst ps') with
  | _ :: _ => runMicrotask (snd ps') = Some (Ran (snd ps'))
  | [] =>
      let W := bracketWinner (heap (snd ps')) in
      let L := bracketLoser (heap (snd ps')) in
      let next := if r =? 1
                  then [(W p0, W p1); (W p2, W p3); (L p0, L p1); (L p2, L p3)]
                  else [(W p0, W p1); (L p0, L p1); (W p2, W p3); (L p2, L p3)] in
      exists s2,
        runMicrotask (snd ps') = Some (Ran s2) /\
        roundAt (r + 1) (bracketRounds s2) = Some next /\
        pending s2 = 4 /\
        onAllMatchesComplete s2 = Some (r + 1) /\
        microtasks s2 = [] /\
        content s2 = content s1 ++ bracketMatches next /\
        heap s2 = heap (snd ps')
  end.
Proof.
  intros Hr Hround Hq Hrun ps'.
  destruct (runBracketRound_ran r s [p0; p1; p2; p3] Hround)
    as (s1' & Hrun' & Hp & Hcb & Hq1 & Hc & Hh & Hb & _); [discriminate |].
  rewrite Hrun in Hrun'. injection Hrun' as <-.
  assert (H0 : roundOnPage r [] (bracketMatches [p0; p1; p2; p3], s1)).
  { split; [| split].
    - intros m Hin _. apply list_elem_of_fmap in Hin as (q & -> & _). reflexivity.
    - cbn [fst snd]. rewrite Hp. reflexivity.
    - cbn [fst snd]. rewrite Hp. cbn [length Z.of_nat Z.eqb Pos.of_succ_nat Pos.succ].
      split; [exact Hcb | now rewrite Hq1, Hq]. }
  pose proof (runPage_roundOnPage r [] ies _ H0) as (_ & Hp' & Hcb'). fold ps' in Hp', Hcb'.
  destruct (runPage_frame ies (bracketMatches [p0; p1; p2; p3], s1))
    as (_ & _ & _ & _ & Hb' & Hc' & _).
  fold ps' in Hb', Hc'. cbn [snd] in Hb', Hc'.
  rewrite Hp' in Hcb'.
  destruct (notDone (fst ps')) as [| m0 open]; cbn [length] in Hcb'.
  - destruct Hcb' as [Hnone Hqueue]. cbn [app] in Hqueue.
    cbn zeta. unfold runMicrotask. rewrite Hqueue.
    set (s' := setCallback (onAllMatchesComplete (snd ps')) [] (snd ps')).
    assert (Hround' : roundAt r (bracketRounds s') = Some [p0; p1; p2; p3])
      by (cbn [s' setCallback bracketRounds]; now rewrite Hb', Hb).
    unfold roundCallback.
    replace (r <? BRACKET_ROUND_COUNT) with true
      by (destruct Hr as [-> | ->]; reflexivity).
    destruct (generateNextBracketRound_ran r s' p0 p1 p2 p3 [] Hr Hround')
      as (s2 & Hgen & Hnext & _ & Hp2 & Hcb2 & Hq2 & Hc2 & Hh2 & _).
    exists s2. repeat split; try assumption.
    + rewrite Hc2. cbn [s' setCallback content heap]. now rewrite Hc'.
  - destruct Hcb' as [_ Hqueue]. unfold runMicrotask. now rewrite Hqueue.
Qed.

Lemma bracket_round_to_next_witness :
  (1 = 1 \/ 1 = 2) /\
  roundAt 1 (bracketRounds (setBracketRounds [roundOfFour] worldStart)) = Some roundOfFour /\
  microtasks worldStart = [] /\
  exists s1,
    runBracketRound 1 (setBracketRounds [roundOfFour] worldStart) = Ran s1 /\
    notDone (fst (runPage eventsOfFour (bracketMatches roundOfFour, s1))) = [] /\
    exists s2,
      runMicrotask (snd (runPage eventsOfFour (bracketMatches roundOfFour, s1)))
      = Some (Ran s2) /\
      roundAt 2 (bracketRounds s2) = Some [(1, 3); (4, 7); (0, 2); (5, 6)]%nat /\
      pending s2 = 4 /\ onAllMatchesComplete s2 = Some 2 /\ microtasks s2 = [].
Proof.
  split; [now left |]. split; [reflexivity |]. split; [reflexivity |].
  eexists. split; [reflexivity |].
  match goal with
  | |- notDone (fst (runPage _ (_, ?s1))) = [] /\ _ =>
      pose proof (bracket_round_to_next 1 (setBracketRounds [roundOfFour] worldStart) s1
                    (0, 1)%nat (2, 3)%nat (4, 5)%nat (6, 7)%nat eventsOfFour
                    (or_introl eq_refl) eq_refl eq_refl eq_refl) as H;
      assert (E : notDone (fst (runPage eventsOfFour (bracketMatches roundOfFour, s1))) = [])
        by (vm_compute; reflexivity)
  end.
  split; [exact E |].
  cbn zeta in H.
  destruct (notDone _) as [| m0 open] eqn:E' in H; [| vm_compute in E'; discriminate E'].
  destruct H as (s2 & Hrun & Hnext & Hp & Hcb & Hq & _).
  exists s2. split; [exact Hrun |]. split; [| repeat split; assumption].
  change (roundAt 2 (bracketRounds s2)) with (roundAt (1 + 1) (bracketRounds s2)).
  rewrite Hnext. vm_compute. reflexivity.
Defined.
